(** * The pitch shifter effect of OpenAL Soft, [alc/effects/pshifter.cpp]

    A shallow embedding of [PshifterState] (its [deviceUpdate], [update] and
    [process] methods) and the properties of its ring-buffered framer, bin
    remapper, analyzer and resynthesizer.

    The C++ code computes on [double], [float], [size_t], [uint] and [int].
    Integers are modelled in [Z] with the wrap-around of the unsigned types
    written out.  The floating-point types are kept behind the interface
    [Arith]; the properties of the loops and of the framer hold of every
    instance, and the numerical ones are proved of [Binary64], the
    instance that reads [double] as IEEE binary64 over Rocq's primitive
    floats and [float] as IEEE binary32.  Functions the effect calls but
    does not define are the fields of [AlNumeric], [Libm] and
    [Collaborators]. *)

From Stdlib Require Import ZArith Lia Reals Zfloor Lra Floats.
From Stdlib Require Uint63.
From stdpp Require Import base list.

Open Scope Z_scope.

(** ** Partial computations

    An out-of-bounds array access and a division by zero are undefined
    behaviour in the source; the model returns [None] there. *)

Notation "'do' x <- e ; k" :=
  (match e with Some x => k | None => None end)
  (at level 10, x name, e at level 100, k at level 200,
   format "'[v' 'do'  x  <-  e ; '/' k ']'").

Notation "'do' ' p <- e ; k" :=
  (match e with Some p => k | None => None end)
  (at level 10, p pattern, e at level 100, k at level 200,
   format "'[v' 'do'  ' p  <-  e ; '/' k ']'").

(** Whether a computation returned. *)
Definition returned {A} (o : option A) : bool :=
  match o with Some _ => true | None => false end.

(** ** Arrays

    A [std::array] is a list of its fixed length; positions are [size_t]
    values, so they are given in [Z]. *)

Module Arr.

(** [a[i]] as a read. *)
Definition get {A} (a : list A) (i : Z) : option A :=
  if decide (0 <= i) then a !! Z.to_nat i else None.

(** [a[i] = x]. *)
Definition set {A} (a : list A) (i : Z) (x : A) : option (list A) :=
  if decide (0 <= i < Z.of_nat (length a))
  then Some (<[Z.to_nat i := x]> a) else None.

(** The [n] elements from [a.begin()+off] on. *)
Definition slice {A} (a : list A) (off n : Z) : option (list A) :=
  if decide (0 <= off /\ 0 <= n /\ off + n <= Z.of_nat (length a))
  then Some (take (Z.to_nat n) (drop (Z.to_nat off) a)) else None.

(** Writing the elements [src] to [a.begin()+off] and the following
    positions. *)
Definition blit {A} (a : list A) (off : Z) (src : list A) : option (list A) :=
  if decide (0 <= off /\ off + Z.of_nat (length src) <= Z.of_nat (length a))
  then Some (take (Z.to_nat off) a ++ src
             ++ drop (Z.to_nat off + length src) a)
  else None.

(** [std::fill(a.begin(), a.end(), x)]. *)
Definition fill {A} (a : list A) (x : A) : list A :=
  replicate (length a) x.

(** [std::fill_n(a.begin()+off, n, x)]. *)
Definition fill_n {A} (a : list A) (off n : Z) (x : A) : option (list A) :=
  if decide (0 <= n) then blit a off (replicate (Z.to_nat n) x) else None.

(** [std::copy_n(src.begin()+soff, n, dst.begin()+doff)]. *)
Definition copy_n {A} (src : list A) (soff n : Z) (dst : list A) (doff : Z)
  : option (list A) :=
  do xs <- slice src soff n;
  blit dst doff xs.

End Arr.

(** ** Counted loops

    [for (i = lo; i < hi; ++i) body], for a body that does not assign [i]
    or [hi]. *)

Fixpoint iter_from {S} (n : nat) (i : Z) (body : Z -> S -> option S) (s : S)
  : option S :=
  match n with
  | O => Some s
  | Datatypes.S n' => do s' <- body i s; iter_from n' (i + 1) body s'
  end.

Definition for_range {S} (lo hi : Z) (body : Z -> S -> option S) (s : S)
  : option S :=
  iter_from (Z.to_nat (hi - lo)) lo body s.

(** ** Machine integers *)

Definition size_bits : Z := 64.

(** A result of [size_t] arithmetic. *)
Definition to_size (x : Z) : Z := x mod 2 ^ size_bits.

(** A value stored in a [uint]. *)
Definition to_uint (x : Z) : Z := x mod 2 ^ 32.

(** [minz] and [maxz] of [alnumeric.h] are [std::min] and [std::max] on
    [size_t]. *)
Definition minz (a b : Z) : Z := Z.min a b.
Definition maxz (a b : Z) : Z := Z.max a b.

(** ** The scalar types *)

Class Arith := {
  double : Type;
  float32 : Type;
  (** [static_cast<double>] of an integer, and the integral literals. *)
  d_of_Z : Z -> double;
  d_add : double -> double -> double;
  d_sub : double -> double -> double;
  d_mul : double -> double -> double;
  d_div : double -> double -> double;
  d_neg : double -> double;
  (** [a > b]. *)
  d_gt : double -> double -> bool;
  (** [al::numbers::pi] and [al::numbers::inv_pi]. *)
  d_pi : double;
  d_inv_pi : double;
  f_of_Z : Z -> float32;
  f_mul : float32 -> float32 -> float32;
  f_div : float32 -> float32 -> float32;
  (** [static_cast<float>(d)] and the implicit widening of a [float]. *)
  f_of_d : double -> float32;
  d_of_f : float32 -> double
}.

(** [std::complex<double>]. *)
Record complex_d `{Arith} := Complex { real : double; imag : double }.
Arguments Complex {_} _ _.
Arguments real {_} _.
Arguments imag {_} _.

(** The constants of [core/mixer/defs.h]; the header fixes
    [MixerFracBits], and [MixerFracOne] and [MixerFracHalf] follow from it
    below. [BufferLineSize] ([core/bufferline.h]) is the length of a
    [FloatBufferLine]. *)
Class MixerDefs := {
  MixerFracBits : Z;
  BufferLineSize : Z
}.

(** What [update] reads of its arguments. *)
Record EffectProps := {
  CoarseTune : Z;
  FineTune : Z
}.

(** The functions the effect calls but does not define: [alnumeric.h], *)
Class AlNumeric `{Arith} := {
  (** [int double2int(double)] *)
  double2int : double -> Z;
  (** [uint fastf2u(float)] *)
  fastf2u : float32 -> Z
}.

(** <cmath> and <complex>, *)
Class Libm `{Arith} := {
  d_sin : double -> double;
  f_pow : float32 -> float32 -> float32;
  c_abs : complex_d -> double;
  c_arg : complex_d -> double;
  c_polar : double -> double -> complex_d
}.

(** and the other parts of the library. *)
Class Collaborators `{Arith} := {
  (** [alcomplex.h]; both work in place on the span they are given. *)
  forward_fft : list complex_d -> list complex_d;
  inverse_fft : list complex_d -> list complex_d;
  (** [core/mixer.h]: [MixSamples InSamples OutBuffer CurrentGains
      TargetGains Counter OutPos] writes [OutBuffer] and [CurrentGains]. *)
  MixSamples : list float32 -> list (list float32) -> list float32 ->
               list float32 -> Z -> Z -> list (list float32) * list float32;
  (** [MixParams], the type of [target.Main], with its [Buffer]. *)
  MixParams : Type;
  MixParams_Buffer : MixParams -> list (list float32);
  (** [CalcDirectionCoeffs({0.0f, 0.0f, -1.0f})]. *)
  coeffs : list float32;
  (** [ComputePanGains mix coeffs ingain gains] writes [gains]. *)
  ComputePanGains : MixParams -> list float32 -> float32 -> list float32 ->
                    list float32
}.

(** ** The effect state and its constants *)

Definition StftSize : Z := 1024.
Definition StftHalfSize : Z := Z.shiftr StftSize 1.
Definition OversampleFactor : Z := 4.
Definition StftStep : Z := StftSize / OversampleFactor.

Section Model.
Context {Ar : Arith} {Num : AlNumeric} {Lm : Libm} {Co : Collaborators}
        {Defs : MixerDefs}.

Definition MixerFracOne : Z := Z.shiftl 1 MixerFracBits.
Definition MixerFracHalf : Z := Z.shiftr MixerFracOne 1.

(** The literals [0.0], [1.0], [0.5] and [0.0f]. *)
Definition d_zero : double := d_of_Z 0.
Definition d_one : double := d_of_Z 1.
Definition d_half : double := d_div (d_of_Z 1) (d_of_Z 2).
Definition f_zero : float32 := f_of_Z 0.

(** [complex_d{}], and the conversion of a [double] assigned to a
    [complex_d]. *)
Definition c_zero : complex_d := Complex d_zero d_zero.
Definition c_of_d (x : double) : complex_d := Complex x d_zero.
Definition c_conj (c : complex_d) : complex_d :=
  Complex (real c) (d_neg (imag c)).

(** [InitHannWindow]: both halves of the table are written in one pass
    over the lower half. *)
Definition InitHannWindow : list double :=
  let scale := d_div d_pi (d_of_Z StftSize) in
  foldl (fun ret i =>
           let val :=
             d_sin (d_mul (d_add (d_of_Z (Z.of_nat i)) d_half) scale) in
           let v := d_mul val val in
           <[(Z.to_nat (StftSize - 1) - i)%nat := v]> (<[i := v]> ret))
        (replicate (Z.to_nat StftSize) d_zero)
        (seq 0 (Z.to_nat StftHalfSize)).

Definition HannWindow : list double := InitHannWindow.

Record FrequencyBin := {
  Magnitude : double;
  FreqBin : double
}.

(** [FrequencyBin{}]. *)
Definition bin_zero : FrequencyBin :=
  {| Magnitude := d_zero; FreqBin := d_zero |}.

Record PshifterState := {
  (** [EffectState::mOutTarget] *)
  mOutTarget : list (list float32);
  mCount : Z;
  mPos : Z;
  mPitchShiftI : Z;
  mPitchShift : double;
  mFIFO : list double;
  mLastPhase : list double;
  mSumPhase : list double;
  mOutputAccum : list double;
  mFftBuffer : list complex_d;
  mAnalysisBuffer : list FrequencyBin;
  mSynthesisBuffer : list FrequencyBin;
  mBufferOut : list float32;
  mCurrentGains : list float32;
  mTargetGains : list float32
}.

Record EffectSlot := { Gain : float32 }.
Record EffectTarget := { Main : MixParams }.

(** *** [PshifterState::deviceUpdate] *)

Definition deviceUpdate (s : PshifterState) : PshifterState :=
  {| mOutTarget := mOutTarget s;
     mCount := 0;
     mPos := to_size (StftSize - StftStep);
     mPitchShiftI := to_uint MixerFracOne;
     mPitchShift := d_one;
     mFIFO := Arr.fill (mFIFO s) d_zero;
     mLastPhase := Arr.fill (mLastPhase s) d_zero;
     mSumPhase := Arr.fill (mSumPhase s) d_zero;
     mOutputAccum := Arr.fill (mOutputAccum s) d_zero;
     mFftBuffer := Arr.fill (mFftBuffer s) c_zero;
     mAnalysisBuffer := Arr.fill (mAnalysisBuffer s) bin_zero;
     mSynthesisBuffer := Arr.fill (mSynthesisBuffer s) bin_zero;
     mBufferOut := mBufferOut s;
     mCurrentGains := Arr.fill (mCurrentGains s) f_zero;
     mTargetGains := Arr.fill (mTargetGains s) f_zero |}.

(** *** [PshifterState::update]

    [tune] is an [int]; its overflow is undefined in the source and is not
    modelled. *)

Definition update_tune (props : EffectProps) : Z :=
  CoarseTune props * 100 + FineTune props.

Definition update_pitch (props : EffectProps) : float32 :=
  f_pow (f_of_Z 2) (f_div (f_of_Z (update_tune props)) (f_of_Z 1200)).

Definition update (s : PshifterState) (slot : EffectSlot)
    (props : EffectProps) (target : EffectTarget) : PshifterState :=
  let pitch := update_pitch props in
  let shiftI := to_uint (fastf2u (f_mul pitch (f_of_Z MixerFracOne))) in
  {| mOutTarget := MixParams_Buffer (Main target);
     mCount := mCount s;
     mPos := mPos s;
     mPitchShiftI := shiftI;
     mPitchShift :=
       d_mul (d_of_Z shiftI) (d_div (d_of_Z 1) (d_of_Z MixerFracOne));
     mFIFO := mFIFO s;
     mLastPhase := mLastPhase s;
     mSumPhase := mSumPhase s;
     mOutputAccum := mOutputAccum s;
     mFftBuffer := mFftBuffer s;
     mAnalysisBuffer := mAnalysisBuffer s;
     mSynthesisBuffer := mSynthesisBuffer s;
     mBufferOut := mBufferOut s;
     mCurrentGains := mCurrentGains s;
     mTargetGains :=
       ComputePanGains (Main target) coeffs (Gain slot) (mTargetGains s) |}.

(** *** [PshifterState::process] *)

(** Cycle offset per update expected of each frequency bin. *)
Definition expected_cycles : double :=
  d_div (d_mul d_pi (d_of_Z 2)) (d_of_Z OversampleFactor).

(** One pass of the framer: [todo] samples leave the FIFO for [mBufferOut]
    and [todo] input samples take their place. *)
Definition frame_chunk (s : PshifterState) (samplesIn : list (list float32))
    (base todo : Z) : option PshifterState :=
  let fifo_iter := mPos s + mCount s in
  do old <- Arr.slice (mFIFO s) fifo_iter todo;
  do out <- Arr.blit (mBufferOut s) base (map f_of_d old);
  do in0 <- Arr.get samplesIn 0;
  do new <- Arr.slice in0 base todo;
  do fifo <- Arr.blit (mFIFO s) fifo_iter (map d_of_f new);
  Some {| mOutTarget := mOutTarget s;
          mCount := to_size (mCount s + todo);
          mPos := mPos s;
          mPitchShiftI := mPitchShiftI s;
          mPitchShift := mPitchShift s;
          mFIFO := fifo;
          mLastPhase := mLastPhase s;
          mSumPhase := mSumPhase s;
          mOutputAccum := mOutputAccum s;
          mFftBuffer := mFftBuffer s;
          mAnalysisBuffer := mAnalysisBuffer s;
          mSynthesisBuffer := mSynthesisBuffer s;
          mBufferOut := out;
          mCurrentGains := mCurrentGains s;
          mTargetGains := mTargetGains s |}.

(** The FIFO is full: the counter restarts and the cursor moves on one
    step. *)
Definition advance (s : PshifterState) : PshifterState :=
  {| mOutTarget := mOutTarget s;
     mCount := 0;
     mPos := Z.land (to_size (mPos s + StftStep)) (to_size (StftSize - 1));
     mPitchShiftI := mPitchShiftI s;
     mPitchShift := mPitchShift s;
     mFIFO := mFIFO s;
     mLastPhase := mLastPhase s;
     mSumPhase := mSumPhase s;
     mOutputAccum := mOutputAccum s;
     mFftBuffer := mFftBuffer s;
     mAnalysisBuffer := mAnalysisBuffer s;
     mSynthesisBuffer := mSynthesisBuffer s;
     mBufferOut := mBufferOut s;
     mCurrentGains := mCurrentGains s;
     mTargetGains := mTargetGains s |}.

(** Time-domain windowing into the FFT buffer; the two loops read the FIFO
    from the cursor to its end and from its start to the cursor. [window]
    is the table [HannWindow]. *)
Definition window_bin (window fifo : list double) (src k : Z)
    (fft : list complex_d) : option (list complex_d) :=
  do x <- Arr.get fifo src;
  do w <- Arr.get window k;
  Arr.set fft k (c_of_d (d_mul x w)).

Definition window_frame (fifo : list double) (pos : Z)
    (fft : list complex_d) : option (list complex_d) :=
  let window := HannWindow in
  do fft <- for_range pos StftSize
              (fun src => window_bin window fifo src (src - pos)) fft;
  for_range 0 pos
    (fun src => window_bin window fifo src (to_size (StftSize - pos) + src))
    fft.

(** [qpd + (qpd%2)], on [int]: the quotient moved to the even integer
    away from zero. *)
Definition qpd_even (qpd : Z) : Z := qpd + Z.rem qpd 2.

(** The wrap of a phase difference normalized from pi:
    [int qpd{double2int(tmp)}; tmp -= qpd + (qpd%2);]. *)
Definition wrap_unit (tmp : double) : double :=
  let qpd := double2int tmp in
  d_sub tmp (d_of_Z (qpd_even qpd)).

(** The frequency bin target of partial [k], from the phase measured now
    and the phase of the last update. *)
Definition bin_frequency (k : Z) (phase lp : double) : double :=
  let bin_offset := d_of_Z (k mod OversampleFactor) in
  let tmp := d_sub (d_sub phase lp) (d_mul bin_offset expected_cycles) in
  let tmp := d_mul tmp d_inv_pi in
  let tmp := wrap_unit tmp in
  let tmp := d_mul tmp (d_mul d_half (d_of_Z OversampleFactor)) in
  d_add (d_of_Z k) tmp.

(** The analyzer, bin [k]. *)
Definition analyze_bin (fft : list complex_d) (k : Z)
    (st : list double * list FrequencyBin)
  : option (list double * list FrequencyBin) :=
  let '(last, ana) := st in
  do c <- Arr.get fft k;
  let magnitude := c_abs c in
  let phase := c_arg c in
  do lp <- Arr.get last k;
  do last <- Arr.set last k phase;
  do ana <- Arr.set ana k {| Magnitude := magnitude;
                             FreqBin := bin_frequency k phase lp |};
  Some (last, ana).

Definition analyze (fft : list complex_d) (last : list double)
    (ana : list FrequencyBin) : option (list double * list FrequencyBin) :=
  for_range 0 (StftHalfSize + 1) (analyze_bin fft) (last, ana).

(** The bin remapper. [bin_limit / mPitchShiftI] divides by zero when the
    fixed-point pitch is zero. *)
Definition bin_limit : Z :=
  to_size (Z.shiftl (StftHalfSize + 1) MixerFracBits - MixerFracHalf - 1).

Definition bin_count (shiftI : Z) : option Z :=
  if decide (shiftI = 0) then None
  else Some (minz (StftHalfSize + 1) (to_size (bin_limit / shiftI + 1))).

Definition remap_index (shiftI k : Z) : Z :=
  Z.shiftr (to_size (k * shiftI + MixerFracHalf)) MixerFracBits.

Definition remap_bin (shiftI : Z) (shift : double) (ana : list FrequencyBin)
    (k : Z) (syn : list FrequencyBin) : option (list FrequencyBin) :=
  let j := remap_index shiftI k in
  do a <- Arr.get ana k;
  do d <- Arr.get syn j;
  let freq := if d_gt (Magnitude a) (Magnitude d)
              then d_mul (FreqBin a) shift else FreqBin d in
  Arr.set syn j {| Magnitude := d_add (Magnitude d) (Magnitude a);
                   FreqBin := freq |}.

Definition remap (shiftI : Z) (shift : double) (ana syn : list FrequencyBin)
  : option (list FrequencyBin) :=
  let syn := Arr.fill syn bin_zero in
  do n <- bin_count shiftI;
  for_range 0 n (remap_bin shiftI shift ana) syn.

(** The phase of a synthesis bin, advanced by its frequency and wrapped:
    [int qpd{double2int(tmp * inv_pi)}; tmp -= pi * (qpd + (qpd%2));]. *)
Definition advance_phase (sp freq : double) : double :=
  let tmp := d_add sp (d_mul freq expected_cycles) in
  let qpd := double2int (d_mul tmp d_inv_pi) in
  d_sub tmp (d_mul d_pi (d_of_Z (qpd_even qpd))).

(** The resynthesizer, bin [k]. *)
Definition synthesize_bin (syn : list FrequencyBin) (k : Z)
    (st : list double * list complex_d)
  : option (list double * list complex_d) :=
  let '(sum, fft) := st in
  do sp <- Arr.get sum k;
  do b <- Arr.get syn k;
  let tmp := advance_phase sp (FreqBin b) in
  do sum <- Arr.set sum k tmp;
  do fft <- Arr.set fft k (c_polar (Magnitude b) tmp);
  Some (sum, fft).

Definition synthesize (syn : list FrequencyBin) (sum : list double)
    (fft : list complex_d) : option (list double * list complex_d) :=
  for_range 0 (StftHalfSize + 1) (synthesize_bin syn) (sum, fft).

(** The upper half of the spectrum, by conjugate symmetry. *)
Definition mirror (fft : list complex_d) : option (list complex_d) :=
  for_range (StftHalfSize + 1) StftSize
    (fun k fft =>
       do c <- Arr.get fft (to_size (StftSize - k));
       Arr.set fft k (c_conj c)) fft.

(** Windowed overlap-add into the output accumulator. *)
Definition ola_scale : double :=
  d_div (d_div (d_of_Z 4) (d_of_Z OversampleFactor)) (d_of_Z StftSize).

Definition accumulate_bin (window : list double) (fft : list complex_d)
    (dst k : Z) (acc : list double) : option (list double) :=
  do a <- Arr.get acc dst;
  do w <- Arr.get window k;
  do c <- Arr.get fft k;
  Arr.set acc dst (d_add a (d_mul (d_mul w (real c)) ola_scale)).

Definition overlap_add (fft : list complex_d) (pos : Z) (acc : list double)
  : option (list double) :=
  let window := HannWindow in
  do acc <- for_range pos StftSize
              (fun dst => accumulate_bin window fft dst (dst - pos)) acc;
  for_range 0 pos
    (fun dst =>
       accumulate_bin window fft dst (to_size (StftSize - pos) + dst)) acc.

(** One analysis/resynthesis cycle, run on a full FIFO. *)
Definition hop (s : PshifterState) : option PshifterState :=
  let pos := mPos s in
  do fft <- window_frame (mFIFO s) pos (mFftBuffer s);
  let fft := forward_fft fft in
  do '(last, ana) <- analyze fft (mLastPhase s) (mAnalysisBuffer s);
  do syn <- remap (mPitchShiftI s) (mPitchShift s) ana (mSynthesisBuffer s);
  do '(sum, fft) <- synthesize syn (mSumPhase s) fft;
  do fft <- mirror fft;
  let fft := inverse_fft fft in
  do acc <- overlap_add fft pos (mOutputAccum s);
  do fifo <- Arr.copy_n acc pos StftStep (mFIFO s) pos;
  do acc <- Arr.fill_n acc pos StftStep d_zero;
  Some {| mOutTarget := mOutTarget s;
          mCount := mCount s;
          mPos := mPos s;
          mPitchShiftI := mPitchShiftI s;
          mPitchShift := mPitchShift s;
          mFIFO := fifo;
          mLastPhase := last;
          mSumPhase := sum;
          mOutputAccum := acc;
          mFftBuffer := fft;
          mAnalysisBuffer := ana;
          mSynthesisBuffer := syn;
          mBufferOut := mBufferOut s;
          mCurrentGains := mCurrentGains s;
          mTargetGains := mTargetGains s |}.

(** The outer loop, [for(size_t base{0u};base < samplesToDo;)]. Each pass
    but the last runs a cycle, so [fuel] bounds the number of passes. *)
Fixpoint process_loop (fuel : nat) (samplesToDo : Z)
    (samplesIn : list (list float32)) (base : Z) (s : PshifterState)
  : option PshifterState :=
  match fuel with
  | O => None
  | S fuel =>
      if decide (base < samplesToDo) then
        let todo := minz (to_size (StftStep - mCount s))
                         (to_size (samplesToDo - base)) in
        do s <- frame_chunk s samplesIn base todo;
        let base := to_size (base + todo) in
        if decide (mCount s < StftStep) then Some s
        else
          do s <- hop (advance s);
          process_loop fuel samplesToDo samplesIn base s
      else Some s
  end.

Definition process (samplesToDo : Z)
    (samplesIn samplesOut : list (list float32)) (s : PshifterState)
  : option (PshifterState * list (list float32)) :=
  do s <- process_loop (S (Z.to_nat samplesToDo)) samplesToDo samplesIn 0 s;
  do mono <- Arr.slice (mBufferOut s) 0 samplesToDo;
  let '(out, gains) :=
    MixSamples mono samplesOut (mCurrentGains s) (mTargetGains s)
               (maxz samplesToDo 512) 0 in
  Some ({| mOutTarget := mOutTarget s;
           mCount := mCount s;
           mPos := mPos s;
           mPitchShiftI := mPitchShiftI s;
           mPitchShift := mPitchShift s;
           mFIFO := mFIFO s;
           mLastPhase := mLastPhase s;
           mSumPhase := mSumPhase s;
           mOutputAccum := mOutputAccum s;
           mFftBuffer := mFftBuffer s;
           mAnalysisBuffer := mAnalysisBuffer s;
           mSynthesisBuffer := mSynthesisBuffer s;
           mBufferOut := mBufferOut s;
           mCurrentGains := gains;
           mTargetGains := mTargetGains s |}, out).

End Model.

(** ** IEEE arithmetic

    [double] is binary64, Rocq's primitive floating-point type, and [float]
    is binary32, computed with the Standard Library's [SpecFloat] at
    precision 24. Both round to nearest, ties to even. *)

Module Binary64.

Definition prec32 : Z := 24.
Definition emax32 : Z := 128.

Definition of_Z (z : Z) : float :=
  if z <? 0 then PrimFloat.opp (PrimFloat.of_uint63 (Uint63.of_Z (- z)))
  else PrimFloat.of_uint63 (Uint63.of_Z z).

Definition b32_of_Z (z : Z) : spec_float :=
  binary_normalize prec32 emax32 z 0 false.

Definition b32_of_b64 (x : float) : spec_float :=
  match Prim2SF x with
  | S754_finite s m e =>
      binary_normalize prec32 emax32 (cond_Zopp s (Z.pos m)) e s
  | y => y
  end.

#[export] Instance arith : Arith := {|
  double := float;
  float32 := spec_float;
  d_of_Z := of_Z;
  d_add := PrimFloat.add;
  d_sub := PrimFloat.sub;
  d_mul := PrimFloat.mul;
  d_div := PrimFloat.div;
  d_neg := PrimFloat.opp;
  d_gt := fun a b => PrimFloat.ltb b a;
  d_pi := 0x1.921fb54442d18p+1%float;
  d_inv_pi := 0x1.45f306dc9c883p-2%float;
  f_of_Z := b32_of_Z;
  f_mul := SFmul prec32 emax32;
  f_div := SFdiv prec32 emax32;
  f_of_d := b32_of_b64;
  d_of_f := SF2Prim
|}.

(** The integer part of a finite number, [None] for an infinity or a
    NaN. *)
Definition trunc (x : spec_float) : option Z :=
  match x with
  | S754_zero _ => Some 0
  | S754_finite s m e =>
      let v := if 0 <=? e then Z.shiftl (Z.pos m) e
               else Z.shiftr (Z.pos m) (- e) in
      Some (cond_Zopp s v)
  | _ => None
  end.

(** The nearest integer of a finite number, ties to even. *)
Definition nearest (x : spec_float) : option Z :=
  match x with
  | S754_zero _ => Some 0
  | S754_finite s m e =>
      let v :=
        if 0 <=? e then Z.shiftl (Z.pos m) e
        else
          let q := Z.shiftr (Z.pos m) (- e) in
          let r := Z.pos m - Z.shiftl q (- e) in
          let half := Z.shiftl 1 (- e - 1) in
          if (half <? r) || ((half =? r) && Z.odd q) then q + 1 else q in
      Some (cond_Zopp s v)
  | _ => None
  end.

(** A conversion whose result does not fit an [int] is undefined in C++;
    the SSE conversions give [INT_MIN] there. *)
Definition to_int (z : option Z) : Z :=
  match z with
  | Some z => if decide (- 2 ^ 31 <= z < 2 ^ 31) then z else - 2 ^ 31
  | None => - 2 ^ 31
  end.

#[export] Instance alnumeric : AlNumeric := {|
  double2int := fun x => to_int (trunc (Prim2SF x));
  fastf2u := fun x => to_uint (to_int (nearest x))
|}.

End Binary64.


(** ** Well-formed states *)

Section Shape.
Context {Ar : Arith} {Defs : MixerDefs}.

(** The lengths the array types of the fields fix. *)
Record sized (s : PshifterState) : Prop := {
  sized_FIFO : Z.of_nat (length (mFIFO s)) = StftSize;
  sized_LastPhase : Z.of_nat (length (mLastPhase s)) = StftHalfSize + 1;
  sized_SumPhase : Z.of_nat (length (mSumPhase s)) = StftHalfSize + 1;
  sized_OutputAccum : Z.of_nat (length (mOutputAccum s)) = StftSize;
  sized_FftBuffer : Z.of_nat (length (mFftBuffer s)) = StftSize;
  sized_AnalysisBuffer :
    Z.of_nat (length (mAnalysisBuffer s)) = StftHalfSize + 1;
  sized_SynthesisBuffer :
    Z.of_nat (length (mSynthesisBuffer s)) = StftHalfSize + 1;
  sized_BufferOut : Z.of_nat (length (mBufferOut s)) = BufferLineSize
}.

(** The cursor sits on a step boundary and the counter is short of a full
    step. *)
Definition cursor_ok (s : PshifterState) : Prop :=
  mPos s mod StftStep = 0 /\
  0 <= mPos s <= StftSize - StftStep /\
  0 <= mCount s < StftStep.

(** The fixed-point pitch is a non-zero [uint]. *)
Definition pitch_ok (s : PshifterState) : Prop :=
  0 < mPitchShiftI s < 2 ^ 32.

(** The range of [MixerFracBits] in which [MixerFracOne] is an [int]. *)
Definition frac_bits_ok : Prop := 0 <= MixerFracBits <= 30.

End Shape.

Section Contracts.
Context {Ar : Arith} {Co : Collaborators}.

(** Both transforms work in place: the span keeps its length. *)
Definition transforms_in_place : Prop :=
  (forall l, length (forward_fft l) = length l) /\
  (forall l, length (inverse_fft l) = length l).

End Contracts.

(** ** The remapper, bin by bin

    What the remapping loop leaves in one synthesis bin, written as a fold
    over the analysis bins that are mapped to it. *)

Section RemapSpec.
Context {Ar : Arith} {Defs : MixerDefs}.

(** The first [n] analysis bins that are mapped to [j], in scan order. *)
Definition scanned (shiftI n j : Z) : list Z :=
  filter (fun k => remap_index shiftI k = j) (seqZ 0 n).

Definition contributors (shiftI n j : Z) (ana : list FrequencyBin)
  : list FrequencyBin :=
  omap (Arr.get ana) (scanned shiftI n j).

(** One more analysis bin [a] arrives in the synthesis bin [d]. *)
Definition merge_bin (shift : double) (d a : FrequencyBin) : FrequencyBin :=
  {| Magnitude := d_add (Magnitude d) (Magnitude a);
     FreqBin := if d_gt (Magnitude a) (Magnitude d)
                then d_mul (FreqBin a) shift else FreqBin d |}.

(** The magnitudes of [bins], summed from [0.0] in the order of the
    list. *)
Definition sum_magnitudes (bins : list FrequencyBin) : double :=
  foldl d_add d_zero (map Magnitude bins).

End RemapSpec.

(** ** The analyzer, bin by bin *)

Section AnalyzerSpec.
Context {Ar : Arith} {Num : AlNumeric} {Lm : Libm}.

(** The analysis bin that the analyzer computes for bin [k] from the
    spectrum value [c] and the last phase [lp]. *)
Definition analysis_bin (k : Z) (c : complex_d) (lp : double) : FrequencyBin :=
  {| Magnitude := c_abs c; FreqBin := bin_frequency k (c_arg c) lp |}.

End AnalyzerSpec.

(** ** The framer, sample by sample

    The contract of the framer speaks of single samples: a sample leaves
    the ring buffer at cursor plus counter, the input sample takes its
    place, the counter is advanced, and a full step starts a cycle. *)

Section FramerSpec.
Context {Ar : Arith} {Num : AlNumeric} {Lm : Libm} {Co : Collaborators}
        {Defs : MixerDefs}.

(** The sample [x] is consumed as sample number [base] of the call. *)
Definition emit_sample (s : PshifterState) (base : Z) (x : float32)
  : option PshifterState :=
  let p := mPos s + mCount s in
  do y <- Arr.get (mFIFO s) p;
  do out <- Arr.set (mBufferOut s) base (f_of_d y);
  do fifo <- Arr.set (mFIFO s) p (d_of_f x);
  Some {| mOutTarget := mOutTarget s;
          mCount := mCount s + 1;
          mPos := mPos s;
          mPitchShiftI := mPitchShiftI s;
          mPitchShift := mPitchShift s;
          mFIFO := fifo;
          mLastPhase := mLastPhase s;
          mSumPhase := mSumPhase s;
          mOutputAccum := mOutputAccum s;
          mFftBuffer := mFftBuffer s;
          mAnalysisBuffer := mAnalysisBuffer s;
          mSynthesisBuffer := mSynthesisBuffer s;
          mBufferOut := out;
          mCurrentGains := mCurrentGains s;
          mTargetGains := mTargetGains s |}.

(** When the counter reaches the step it is reset, the cursor advances
    and one cycle runs. *)
Definition frame_sample (s : PshifterState) (base : Z) (x : float32)
  : option PshifterState :=
  do s <- emit_sample s base x;
  if decide (mCount s = StftStep) then hop (advance s) else Some s.

Fixpoint frame_samples (s : PshifterState) (base : Z) (xs : list float32)
  : option PshifterState :=
  match xs with
  | [] => Some s
  | x :: xs => do s <- frame_sample s base x; frame_samples s (base + 1) xs
  end.

(** The samples [xs] are consumed without a look at the counter. *)
Fixpoint emit_samples (s : PshifterState) (base : Z) (xs : list float32)
  : option PshifterState :=
  match xs with
  | [] => Some s
  | x :: xs => do s <- emit_sample s base x; emit_samples s (base + 1) xs
  end.

(** The state after the samples [xs], with the ring buffer and the output
    line written as two blocks. *)
Definition chunk_state (s : PshifterState) (base : Z) (xs : list float32)
  : option PshifterState :=
  let p := mPos s + mCount s in
  do old <- Arr.slice (mFIFO s) p (Z.of_nat (length xs));
  do out <- Arr.blit (mBufferOut s) base (map f_of_d old);
  do fifo <- Arr.blit (mFIFO s) p (map d_of_f xs);
  Some {| mOutTarget := mOutTarget s;
          mCount := mCount s + Z.of_nat (length xs);
          mPos := mPos s;
          mPitchShiftI := mPitchShiftI s;
          mPitchShift := mPitchShift s;
          mFIFO := fifo;
          mLastPhase := mLastPhase s;
          mSumPhase := mSumPhase s;
          mOutputAccum := mOutputAccum s;
          mFftBuffer := mFftBuffer s;
          mAnalysisBuffer := mAnalysisBuffer s;
          mSynthesisBuffer := mSynthesisBuffer s;
          mBufferOut := out;
          mCurrentGains := mCurrentGains s;
          mTargetGains := mTargetGains s |}.

(** The ring buffer and the output line are as long as their types say. *)
Definition framer_ok (s : PshifterState) : Prop :=
  cursor_ok s /\
  Z.of_nat (length (mFIFO s)) = StftSize /\
  Z.of_nat (length (mBufferOut s)) = BufferLineSize.

End FramerSpec.

Section ProcessSpec.
Context {Ar : Arith} {Num : AlNumeric} {Lm : Libm} {Co : Collaborators}
        {Defs : MixerDefs}.

(** [process] with the sample-by-sample framer in the place of the outer
    loop. *)
Definition process_by_sample (samplesToDo : Z)
    (samplesIn samplesOut : list (list float32)) (s : PshifterState)
  : option (PshifterState * list (list float32)) :=
  do in0 <- Arr.get samplesIn 0;
  do s <- frame_samples s 0 (take (Z.to_nat samplesToDo) in0);
  do mono <- Arr.slice (mBufferOut s) 0 samplesToDo;
  let '(out, gains) :=
    MixSamples mono samplesOut (mCurrentGains s) (mTargetGains s)
               (maxz samplesToDo 512) 0 in
  Some ({| mOutTarget := mOutTarget s;
           mCount := mCount s;
           mPos := mPos s;
           mPitchShiftI := mPitchShiftI s;
           mPitchShift := mPitchShift s;
           mFIFO := mFIFO s;
           mLastPhase := mLastPhase s;
           mSumPhase := mSumPhase s;
           mOutputAccum := mOutputAccum s;
           mFftBuffer := mFftBuffer s;
           mAnalysisBuffer := mAnalysisBuffer s;
           mSynthesisBuffer := mSynthesisBuffer s;
           mBufferOut := mBufferOut s;
           mCurrentGains := gains;
           mTargetGains := mTargetGains s |}, out).

End ProcessSpec.
(** * Rounding

    What a floating-point datum stands for, what it is to round to the
    format, and the states of the effect in binary64. *)

(** ** The value of a floating-point number *)

Module Rounding.

(** [2^e]. *)
Definition bpow (e : Z) : R :=
  if 0 <=? e then IZR (2 ^ e) else (/ IZR (2 ^ (- e)))%R.

(** The real number a finite floating-point datum stands for; an infinity
    and a NaN stand for nothing, see [SF_finite]. *)
Definition SF2R (x : spec_float) : R :=
  match x with
  | S754_finite s m e => (IZR (cond_Zopp s (Z.pos m)) * bpow e)%R
  | _ => 0%R
  end.

Definition SF_finite (x : spec_float) : Prop :=
  match x with
  | S754_zero _ | S754_finite _ _ _ => True
  | _ => False
  end.

(** The datum [binary_round_aux] builds from a mantissa and an exponent. *)
Definition SF_make (s : bool) (m e : Z) : spec_float :=
  match m with
  | Z.pos p => S754_finite s p e
  | _ => S754_zero s
  end.

(** The invariant of the right shift of [m0] by [n] bits: the quotient,
    and where the remainder lies in its interval. *)
Definition shr_inv (m0 n : Z) (r : shr_record) : Prop :=
  0 <= shr_m r /\
  exists rem, 0 <= rem < 2 ^ n /\ m0 = shr_m r * 2 ^ n + rem /\
    (shr_r r = true <-> 2 ^ n <= 2 * rem) /\
    (shr_s r = true <-> rem <> 0 /\ 2 * rem <> 2 ^ n).

End Rounding.

Import Rounding.

Definition sgn (s : bool) : R := if s then (-1)%R else 1%R.

(** [r] is [x] rounded to the format: a multiple of the unit [2^e] of the
    format at the magnitude of [x], within half a unit of [x]. *)
Definition rounds_to (prec emax : Z) (x r : R) : Prop :=
  exists e k, SpecFloat.emin prec emax <= e /\
    r = (IZR k * bpow e)%R /\
    (Rabs (r - x) <= bpow e / 2)%R /\
    (e = SpecFloat.emin prec emax \/ (bpow (e + prec - 1) <= Rabs x)%R).

(** ** Binary64 *)

Definition value (x : float) : R := SF2R (Prim2SF x).
Definition finite (x : float) : Prop := SF_finite (Prim2SF x).
Definition rnd : R -> R -> Prop := rounds_to 53 1024.

(** The integer part of a real number, towards zero. *)
Definition truncate (x : R) : Z :=
  if Rle_dec 0 x then Zfloor x else Zceil x.

(** The nearest integer, ties away from zero ([round] of <cmath>). *)
Definition round_away (x : R) : Z :=
  if Rle_dec 0 x then Zfloor (x + 1 / 2) else Zceil (x - 1 / 2).

(** [x - 2 round(x/2)]. *)
Definition fold_unit (x : R) : R :=
  (x - 2 * IZR (round_away (x / 2)))%R.

Section Deviation.
Context {Ar : Arith}.

(** The phase difference of bin [k], less the advance expected of the
    bin, normalized from pi: what the analyzer wraps. *)
Definition phase_deviation (k : Z) (phase lp : double) : double :=
  d_mul (d_sub (d_sub phase lp)
           (d_mul (d_of_Z (k mod OversampleFactor)) expected_cycles))
    d_inv_pi.

End Deviation.

(** ** The states the effect can be in *)

Section States.
Context {Ar : Arith} {Num : AlNumeric} {Lm : Libm} {Co : Collaborators}
  {Defs : MixerDefs}.

(** What the effect base class offers: a reset of any state, then
    parameter updates and calls of [process] that return, in any
    order. *)
Inductive reachable : PshifterState -> Prop :=
  | reachable_reset s :
      reachable (deviceUpdate s)
  | reachable_update s slot props target :
      reachable s -> reachable (update s slot props target)
  | reachable_process s samplesToDo samplesIn samplesOut s' out :
      reachable s ->
      process samplesToDo samplesIn samplesOut s = Some (s', out) ->
      reachable s'.

(** The fractional bits of the mixer, two at least. *)
Definition frac_bits_two : Prop := 2 <= MixerFracBits <= 30.

End States.

Section Binary64States.
Import Binary64.
Context {Lm : Libm} {Co : Collaborators} {Defs : MixerDefs}.

(** Every phase of the array is a number within [b] of zero. *)
Definition phases_within (b : R) (l : list double) : Prop :=
  forall k x, Arr.get l k = Some x -> finite x /\ (Rabs (value x) <= b)%R.

(** What rounding adds to the bound of an accumulated phase. *)
Definition phase_slack : R := (/ 524288)%R.

(** The floating pitch is the fixed-point pitch over [MixerFracOne]. *)
Definition pitch_consistent (s : PshifterState) : Prop :=
  0 <= mPitchShiftI s < 2 ^ 32 /\ finite (mPitchShift s) /\
  value (mPitchShift s) = (IZR (mPitchShiftI s) / IZR MixerFracOne)%R.

(** What every reachable state satisfies. *)
Definition phase_inv (s : PshifterState) : Prop :=
  phases_within (value d_pi) (mLastPhase s) /\
  phases_within (value d_pi + phase_slack) (mSumPhase s) /\
  pitch_consistent s.

(** [std::arg] returns a principal value: a number of magnitude [pi] at
    most. *)
Definition arg_principal : Prop :=
  forall c, finite (c_arg c) /\ (Rabs (value (c_arg c)) <= value d_pi)%R.

End Binary64States.

Section Binary64Remap.
Import Binary64.
Local Open Scope R_scope.

(** What the remapper leaves as frequency of a bin. *)
Definition frequency_ok (b : FrequencyBin) : Prop :=
  finite (FreqBin b) /\ Rabs (value (FreqBin b)) <= 2147484161.

End Binary64Remap.

(** ** The window table, the frame and the signal path

    The values [InitHannWindow] computes, the samples the windowing and
    the overlap-add loops handle, and the part of the state the signal
    passes through. *)

Section HannSpec.
Context {Ar : Arith} {Lm : Libm}.

(** The value one pass of [InitHannWindow] computes, for the index [i]. *)
Definition hann_value (i : Z) : double :=
  let scale := d_div d_pi (d_of_Z StftSize) in
  let val := d_sin (d_mul (d_add (d_of_Z i) d_half) scale) in
  d_mul val val.

(** The lower half of the table. *)
Definition hann_half : list double :=
  map hann_value (seqZ 0 StftHalfSize).

End HannSpec.

Section FrameSpec.
Context {Ar : Arith} {Lm : Libm}.

(** The sample [k] of the frame that starts at the cursor [pos] of the
    ring buffer, under the window. *)
Definition windowed_sample (fifo : list double) (pos k : Z)
  : option complex_d :=
  do x <- Arr.get fifo ((pos + k) mod StftSize);
  do w <- Arr.get HannWindow k;
  Some (c_of_d (d_mul x w)).

(** The slot [dst] of the accumulator with the sample of the frame that
    falls on it added, under the window and scaled. *)
Definition accumulated_sample (fft : list complex_d) (pos : Z)
    (acc : list double) (dst : Z) : option double :=
  let k := (dst - pos) mod StftSize in
  do a <- Arr.get acc dst;
  do w <- Arr.get HannWindow k;
  do c <- Arr.get fft k;
  Some (d_add a (d_mul (d_mul w (real c)) ola_scale)).

End FrameSpec.

Section DspSpec.
Context {Ar : Arith}.

(** The state of the signal path: every field but the output line, the
    gains and the output target. *)
Definition dsp_state (s : PshifterState) :=
  (mCount s, mPos s, mPitchShiftI s, mPitchShift s, mFIFO s, mLastPhase s,
   mSumPhase s, mOutputAccum s, mFftBuffer s, mAnalysisBuffer s,
   mSynthesisBuffer s).

End DspSpec.

(** ** What the properties in binary64 ask of libm *)

Section Binary64LibmSpec.
Import Binary64.
Context {Lm : Libm}.

(** [std::sin] returns a number of magnitude one at most. *)
Definition sin_unit : Prop :=
  forall x, finite (d_sin x) /\ (Rabs (value (d_sin x)) <= 1)%R.

(** [2^m] in binary32. *)
Definition exp2_f32 (m : Z) : float32 :=
  binary_normalize prec32 emax32 1 m false.

End Binary64LibmSpec.

(** ** Silence, in binary64 *)

Section SilenceSpec.
Import Binary64.
Context {Lm : Libm} {Co : Collaborators}.

(** The number is a zero, of either sign. *)
Definition zero_d (x : double) : Prop := exists s, Prim2SF x = S754_zero s.
Definition zero_f (y : float32) : Prop := exists s, y = S754_zero s.
Definition zero_c (c : complex_d) : Prop := zero_d (real c) /\ zero_d (imag c).

(** Every sample of the array is a zero. *)
Definition all_zero (l : list double) : Prop :=
  forall i x, Arr.get l i = Some x -> zero_d x.
Definition all_zero_c (l : list complex_d) : Prop :=
  forall i c, Arr.get l i = Some c -> zero_c c.

(** The transforms of a buffer of zeros are buffers of zeros. *)
Definition transforms_keep_silence : Prop :=
  (forall l, all_zero_c l -> all_zero_c (forward_fft l)) /\
  (forall l, all_zero_c l -> all_zero_c (inverse_fft l)).

(** [std::abs] of a zero is a zero, and [std::polar] of a magnitude that
    is a zero is a zero at every phase. *)
Definition polar_of_zero : Prop :=
  (forall c, zero_c c -> zero_d (c_abs c)) /\
  (forall m p, zero_d m -> zero_c (c_polar m p)).

(** No signal is left in the effect: the ring buffer and the output
    accumulator hold zeros. *)
Definition silent (s : PshifterState) : Prop :=
  all_zero (mFIFO s) /\ all_zero (mOutputAccum s).

End SilenceSpec.


(** ** A configuration that runs

    The model takes the constants of the mixer and the functions of libm
    and of the rest of the library as parameters, and the properties are
    proved for every choice of them. To run the model on concrete numbers
    this module fixes them: constants of the size the headers of the
    library give them, and computable stand-ins for the functions (a
    transform that leaves the buffer as it is, a mixer that leaves the
    gains as they are). *)

Module Standin.
Import Binary64.

Definition defs : MixerDefs := {|
  MixerFracBits := 16;
  BufferLineSize := 1024
|}.

Definition libm : Libm := {|
  d_sin := fun x => x;
  f_pow := fun x _ => x;
  c_abs := fun c =>
    PrimFloat.sqrt (PrimFloat.add (PrimFloat.mul (real c) (real c))
                                  (PrimFloat.mul (imag c) (imag c)));
  c_arg := fun _ => of_Z 0;
  c_polar := fun m _ => Complex m (of_Z 0)
|}.

Definition collaborators : Collaborators := {|
  forward_fft := fun l => l;
  inverse_fft := fun l => l;
  MixSamples := fun _ out cur _ _ _ => (out, cur);
  MixParams := unit;
  MixParams_Buffer := fun _ => [];
  coeffs := [];
  ComputePanGains := fun _ _ _ gains => gains
|}.

#[export] Existing Instances defs libm collaborators.

(** A state with arrays of the right lengths, and the state the effect
    starts from. *)
Definition blank : PshifterState := {|
  mOutTarget := [];
  mCount := 0;
  mPos := 0;
  mPitchShiftI := 0;
  mPitchShift := of_Z 0;
  mFIFO := replicate 1024 (of_Z 0);
  mLastPhase := replicate 513 (of_Z 0);
  mSumPhase := replicate 513 (of_Z 0);
  mOutputAccum := replicate 1024 (of_Z 0);
  mFftBuffer := replicate 1024 (Complex (of_Z 0) (of_Z 0));
  mAnalysisBuffer := replicate 513 bin_zero;
  mSynthesisBuffer := replicate 513 bin_zero;
  mBufferOut := replicate 1024 (b32_of_Z 0);
  mCurrentGains := replicate 16 (b32_of_Z 0);
  mTargetGains := replicate 16 (b32_of_Z 0)
|}.

Definition fresh : PshifterState := deviceUpdate blank.

(** A block of [n] input samples [1.0f, 2.0f, ...] on one channel, and on
    two channels. *)
Definition ramp (n : nat) : list float32 :=
  map (fun i => b32_of_Z (Z.of_nat i)) (seq 1 n).

Definition mono (n : nat) : list (list float32) := [ramp n].
Definition stereo (n : nat) : list (list float32) :=
  [ramp n; replicate n (b32_of_Z 7)].

(** The fixed-point pitch of the lowest tuning the effect is given, a
    coarse tune of -12 and a fine tune of -50: [2^(-1250/1200)] in 16
    fractional bits; and its floating form, as [update] computes it. *)
Definition low_pitchI : Z := 31835.
Definition low_pitch : double :=
  d_mul (d_of_Z low_pitchI) (d_div (d_of_Z 1) (d_of_Z MixerFracOne)).

(** An analysis buffer with three partials, of magnitudes 3, 2 and 4, in
    the bins 34, 35 and 36. *)
Definition partial (magnitude k : Z) : FrequencyBin :=
  {| Magnitude := of_Z magnitude; FreqBin := of_Z k |}.

Definition three_partials : list FrequencyBin :=
  <[36%nat := partial 4 36]>
    (<[35%nat := partial 2 35]>
       (<[34%nat := partial 3 34]> (replicate 513 bin_zero))).

(** What the remapper leaves in the synthesis bin [j]. *)
Definition remapped (shiftI : Z) (shift : double) (ana : list FrequencyBin)
    (j : Z) : option (double * double) :=
  do syn <- remap shiftI shift ana (replicate 513 bin_zero);
  do b <- Arr.get syn j;
  Some (Magnitude b, FreqBin b).

(** An analysis buffer with one partial of magnitude 1 in bin 22, as the
    analyzer leaves it after the first cycle when the spectrum value of
    the bin is a negative real number, whose phase is pi. *)
Definition one_partial : list FrequencyBin :=
  <[22%nat := {| Magnitude := of_Z 1;
                 FreqBin := bin_frequency 22 d_pi (of_Z 0) |}]>
    (replicate 513 bin_zero).

(** The accumulated phase of bin [k] after the remapper and the
    resynthesizer have run on [ana] from the reset state. The coefficient
    that [c_polar] builds does not enter the phase. *)
Definition resynthesized_phase (ana : list FrequencyBin) (k : Z)
  : option double :=
  do syn <- remap (mPitchShiftI fresh) (mPitchShift fresh) ana
              (mSynthesisBuffer fresh);
  do '(sum, _) <- synthesize syn (mSumPhase fresh) (mFftBuffer fresh);
  Arr.get sum k.

(** A second choice of libm: a sine that is one everywhere, which gives
    the rectangular window, and a power of two that is exact on whole
    exponents, as [std::pow] is. *)
Definition octaves : Libm := {|
  d_sin := fun _ => of_Z 1;
  f_pow := fun _ y => match nearest y with
                      | Some m => exp2_f32 m
                      | None => y
                      end;
  c_abs := c_abs (Libm := libm);
  c_arg := c_arg (Libm := libm);
  c_polar := c_polar (Libm := libm)
|}.

(** Tunings of one octave up and of eighteen octaves down. *)
Definition octave_up : EffectProps := {| CoarseTune := 12; FineTune := 0 |}.
Definition far_down : EffectProps := {| CoarseTune := -216; FineTune := 0 |}.

(** A slot of unit gain, and a target. *)
Definition slot : EffectSlot := {| Gain := b32_of_Z 1 |}.
Definition target : EffectTarget := {| Main := tt |}.

End Standin.


(** * Properties *)

(** ** Arrays and loops *)

Section ArrFacts.
Context {A : Type}.
Implicit Types (a : list A) (i j n off : Z) (x : A).

Lemma get_lookup a i : 0 <= i -> Arr.get a i = a !! Z.to_nat i.
Proof. intros Hi. unfold Arr.get. by rewrite decide_True. Qed.

Lemma get_Some_lt a i x : Arr.get a i = Some x -> 0 <= i < Z.of_nat (length a).
Proof.
  unfold Arr.get. case_decide; [|done].
  intros Hl. apply lookup_lt_Some in Hl. lia.
Qed.

Lemma get_is_Some a i : 0 <= i < Z.of_nat (length a) -> is_Some (Arr.get a i).
Proof.
  intros Hi. rewrite get_lookup by lia. apply lookup_lt_is_Some. lia.
Qed.

Lemma set_is_Some a i x :
  0 <= i < Z.of_nat (length a) ->
  Arr.set a i x = Some (<[Z.to_nat i := x]> a).
Proof. intros Hi. unfold Arr.set. by rewrite decide_True. Qed.

Lemma set_Some a i x a' :
  Arr.set a i x = Some a' ->
  0 <= i < Z.of_nat (length a) /\ a' = <[Z.to_nat i := x]> a.
Proof. unfold Arr.set. case_decide; [|done]. intros [= <-]. done. Qed.

Lemma set_length a i x a' : Arr.set a i x = Some a' -> length a' = length a.
Proof. intros [_ ->]%set_Some. apply length_insert. Qed.

Lemma get_set_eq a i x a' : Arr.set a i x = Some a' -> Arr.get a' i = Some x.
Proof.
  intros [Hi ->]%set_Some. rewrite get_lookup by lia.
  apply list_lookup_insert_eq. lia.
Qed.

Lemma get_set_ne a i j x a' :
  Arr.set a i x = Some a' -> i <> j -> Arr.get a' j = Arr.get a j.
Proof.
  intros [Hi ->]%set_Some Hne. unfold Arr.get. case_decide; [|done].
  apply list_lookup_insert_ne. lia.
Qed.

Lemma slice_Some a off n xs :
  Arr.slice a off n = Some xs ->
  (0 <= off /\ 0 <= n /\ off + n <= Z.of_nat (length a)) /\
  xs = take (Z.to_nat n) (drop (Z.to_nat off) a).
Proof. unfold Arr.slice. case_decide; [|done]. intros [= <-]. done. Qed.

Lemma slice_is_Some a off n :
  0 <= off -> 0 <= n -> off + n <= Z.of_nat (length a) ->
  Arr.slice a off n = Some (take (Z.to_nat n) (drop (Z.to_nat off) a)).
Proof. intros. unfold Arr.slice. by rewrite decide_True. Qed.

Lemma slice_length a off n xs :
  Arr.slice a off n = Some xs -> Z.of_nat (length xs) = n.
Proof.
  intros [(? & ? & ?) ->]%slice_Some.
  rewrite length_take, length_drop. lia.
Qed.

Lemma blit_Some a off src a' :
  Arr.blit a off src = Some a' ->
  (0 <= off /\ off + Z.of_nat (length src) <= Z.of_nat (length a)) /\
  a' = take (Z.to_nat off) a ++ src ++ drop (Z.to_nat off + length src) a.
Proof. unfold Arr.blit. case_decide; [|done]. intros [= <-]. done. Qed.

Lemma blit_is_Some a off src :
  0 <= off -> off + Z.of_nat (length src) <= Z.of_nat (length a) ->
  Arr.blit a off src
  = Some (take (Z.to_nat off) a ++ src ++ drop (Z.to_nat off + length src) a).
Proof. intros. unfold Arr.blit. by rewrite decide_True. Qed.

Lemma blit_length a off src a' :
  Arr.blit a off src = Some a' -> length a' = length a.
Proof.
  intros [(? & ?) ->]%blit_Some.
  rewrite !length_app, length_take, length_drop. lia.
Qed.

(** A blit writes its source and nothing else. *)
Lemma blit_get a off src a' i :
  Arr.blit a off src = Some a' ->
  Arr.get a' i =
    if decide (off <= i < off + Z.of_nat (length src))
    then Arr.get src (i - off) else Arr.get a i.
Proof.
  intros [(Hoff & Hlen) ->]%blit_Some. unfold Arr.get.
  destruct (decide (0 <= i)) as [Hi|Hi].
  - case_decide as Hin.
    + rewrite decide_True by lia.
      rewrite lookup_app_r by (rewrite length_take; lia).
      rewrite length_take, lookup_app_l by lia.
      f_equal. lia.
    + destruct (decide (i < off)).
      * rewrite lookup_app_l by (rewrite length_take; lia).
        rewrite lookup_take_lt by lia. done.
      * rewrite lookup_app_r by (rewrite length_take; lia).
        rewrite length_take.
        rewrite lookup_app_r by lia.
        rewrite lookup_drop. f_equal. lia.
  - rewrite decide_False by lia. done.
Qed.

Lemma fill_length a x : length (Arr.fill a x) = length a.
Proof. apply length_replicate. Qed.

Lemma fill_get a x i y : Arr.get (Arr.fill a x) i = Some y -> y = x.
Proof.
  unfold Arr.get, Arr.fill. case_decide; [|done].
  intros [-> _]%lookup_replicate. done.
Qed.

End ArrFacts.

Section LoopFacts.
Context {S : Type}.
Implicit Types (body : Z -> S -> option S) (s : S).

(** A loop whose body keeps an invariant and meets no fault runs to its
    end. *)
Lemma iter_from_total (I : Z -> S -> Prop) body n i s :
  I i s ->
  (forall j t, i <= j < i + Z.of_nat n -> I j t ->
     exists t', body j t = Some t' /\ I (j + 1) t') ->
  exists s', iter_from n i body s = Some s' /\ I (i + Z.of_nat n) s'.
Proof.
  revert i s. induction n as [|n IH]; intros i s Hi Hstep; simpl.
  - exists s. split; [done|]. by replace (i + Z.of_nat 0) with i by lia.
  - destruct (Hstep i s) as (t & -> & Ht); [lia|done|].
    destruct (IH (i + 1) t) as (s' & Hs' & HI); [done| |].
    + intros j u Hj. apply Hstep. lia.
    + exists s'. split; [done|].
      by replace (i + Z.of_nat (Datatypes.S n))
        with (i + 1 + Z.of_nat n) by lia.
Qed.

(** The invariant of a loop that has run to its end. *)
Lemma iter_from_inv (I : Z -> S -> Prop) body n i s s' :
  I i s ->
  (forall j t t', i <= j < i + Z.of_nat n -> I j t -> body j t = Some t' ->
     I (j + 1) t') ->
  iter_from n i body s = Some s' -> I (i + Z.of_nat n) s'.
Proof.
  revert i s. induction n as [|n IH]; intros i s Hi Hstep; simpl.
  - intros [= <-]. by replace (i + Z.of_nat 0) with i by lia.
  - destruct (body i s) as [t|] eqn:Hb; [|done]. intros Hrun.
    replace (i + Z.of_nat (Datatypes.S n)) with (i + 1 + Z.of_nat n) by lia.
    apply (IH (i + 1) t); [|intros j u u' Hj; apply Hstep; lia|done].
    apply (Hstep i s); [lia|done..].
Qed.

Lemma for_range_total (I : Z -> S -> Prop) body lo hi s :
  lo <= hi -> I lo s ->
  (forall j t, lo <= j < hi -> I j t ->
     exists t', body j t = Some t' /\ I (j + 1) t') ->
  exists s', for_range lo hi body s = Some s' /\ I hi s'.
Proof.
  intros Hle Hi Hstep. unfold for_range.
  destruct (iter_from_total I body (Z.to_nat (hi - lo)) lo s) as (s' & ? & ?);
    [done| |].
  - intros j t Hj. apply Hstep. lia.
  - exists s'. split; [done|].
    by replace hi with (lo + Z.of_nat (Z.to_nat (hi - lo))) by lia.
Qed.

Lemma for_range_inv (I : Z -> S -> Prop) body lo hi s s' :
  lo <= hi -> I lo s ->
  (forall j t t', lo <= j < hi -> I j t -> body j t = Some t' ->
     I (j + 1) t') ->
  for_range lo hi body s = Some s' -> I hi s'.
Proof.
  intros Hle Hi Hstep Hrun. unfold for_range in Hrun.
  replace hi with (lo + Z.of_nat (Z.to_nat (hi - lo))) by lia.
  eapply iter_from_inv; [done| |done].
  intros j t t' Hj. apply Hstep. lia.
Qed.

(** The body of a loop is all that matters of it. *)
Lemma for_range_ext body body' lo hi s :
  (forall j t, lo <= j < hi -> body j t = body' j t) ->
  for_range lo hi body s = for_range lo hi body' s.
Proof.
  unfold for_range. intros Hext.
  assert (forall n i t, lo <= i -> i + Z.of_nat n <= Z.max lo hi ->
            iter_from n i body t = iter_from n i body' t) as Hind.
  { induction n as [|n IH]; intros i t Hlo Hhi; simpl; [done|].
    rewrite Hext by lia. destruct (body' i t); [|done]. apply IH; lia. }
  apply Hind; lia.
Qed.

End LoopFacts.

(** ** The bin remapper stays inside the synthesis buffer *)

Section RemapBounds.
Context {Ar : Arith} {Defs : MixerDefs}.
Hypothesis Hbits : frac_bits_ok.

Lemma MixerFracOne_eq : MixerFracOne = 2 ^ MixerFracBits.
Proof. unfold MixerFracOne. apply Z.shiftl_1_l. Qed.

Lemma MixerFracOne_bounds : 1 <= MixerFracOne <= 2 ^ 30.
Proof.
  rewrite MixerFracOne_eq. destruct Hbits as [Hlo Hhi]. split.
  - apply (Z.pow_le_mono_r 2 0); lia.
  - apply Z.pow_le_mono_r; lia.
Qed.

Lemma MixerFracHalf_bounds : 0 <= 2 * MixerFracHalf <= MixerFracOne.
Proof.
  unfold MixerFracHalf. rewrite Z.shiftr_div_pow2 by lia.
  pose proof MixerFracOne_bounds. change (2 ^ 1) with 2.
  pose proof (Z.mul_div_le MixerFracOne 2).
  pose proof (Z.div_pos MixerFracOne 2).
  lia.
Qed.

Lemma bin_limit_eq : bin_limit = 513 * MixerFracOne - MixerFracHalf - 1.
Proof.
  unfold bin_limit, to_size, size_bits.
  rewrite Z.shiftl_mul_pow2 by apply Hbits.
  rewrite <- MixerFracOne_eq.
  pose proof MixerFracOne_bounds. pose proof MixerFracHalf_bounds.
  change (StftHalfSize + 1) with 513. change (2 ^ 64) with 18446744073709551616.
  apply Z.mod_small. lia.
Qed.

Lemma bin_count_Some shiftI :
  0 < shiftI -> bin_count shiftI
                = Some (Z.min (StftHalfSize + 1) (bin_limit / shiftI + 1)).
Proof.
  intros Hpos. unfold bin_count, minz, to_size, size_bits.
  rewrite decide_False by lia. do 2 f_equal.
  apply Z.mod_small. rewrite bin_limit_eq.
  pose proof MixerFracOne_bounds. pose proof MixerFracHalf_bounds.
  change (2 ^ 64) with 18446744073709551616.
  assert (0 <= (513 * MixerFracOne - MixerFracHalf - 1) / shiftI
          <= 513 * MixerFracOne - MixerFracHalf - 1).
  { split; [apply Z.div_pos; lia|]. apply Z.div_le_upper_bound; nia. }
  lia.
Qed.

Lemma bin_count_range shiftI n :
  bin_count shiftI = Some n -> 0 <= shiftI -> 1 <= n <= StftHalfSize + 1.
Proof.
  intros Hn Hpos. destruct (decide (shiftI = 0)) as [->|];
    [by unfold bin_count in Hn; rewrite decide_True in Hn|].
  rewrite bin_count_Some in Hn by lia. injection Hn as <-.
  pose proof MixerFracOne_bounds. pose proof MixerFracHalf_bounds.
  assert (0 <= bin_limit / shiftI).
  { apply Z.div_pos; [|lia]. rewrite bin_limit_eq. lia. }
  change (StftHalfSize + 1) with 513. lia.
Qed.

(** The scanned bins are those whose scaled index is within the limit. *)
Lemma scanned_le_limit shiftI n k :
  bin_count shiftI = Some n -> 0 <= shiftI -> 0 <= k < n ->
  k * shiftI <= bin_limit.
Proof.
  intros Hn Hpos Hk. destruct (decide (shiftI = 0)) as [->|];
    [by unfold bin_count in Hn; rewrite decide_True in Hn|].
  rewrite bin_count_Some in Hn by lia. injection Hn as <-.
  assert (k <= bin_limit / shiftI) as Hle by lia.
  pose proof (Z.mul_div_le bin_limit shiftI). nia.
Qed.

Lemma remap_index_eq shiftI k :
  0 <= k -> 0 <= shiftI -> k * shiftI <= bin_limit ->
  remap_index shiftI k = (k * shiftI + MixerFracHalf) / MixerFracOne.
Proof.
  intros Hk Hpos Hle. unfold remap_index, to_size, size_bits.
  rewrite Z.shiftr_div_pow2 by apply Hbits. rewrite <- MixerFracOne_eq.
  f_equal. apply Z.mod_small.
  rewrite bin_limit_eq in Hle. change (2 ^ 64) with 18446744073709551616.
  pose proof MixerFracOne_bounds. pose proof MixerFracHalf_bounds. nia.
Qed.

Lemma remap_index_bounds shiftI n k :
  bin_count shiftI = Some n -> 0 <= shiftI -> 0 <= k < n ->
  0 <= remap_index shiftI k <= StftHalfSize.
Proof.
  intros Hn Hpos Hk.
  pose proof (scanned_le_limit _ _ _ Hn Hpos Hk) as Hle.
  rewrite remap_index_eq by lia.
  rewrite bin_limit_eq in Hle. change StftHalfSize with 512.
  pose proof MixerFracOne_bounds. pose proof MixerFracHalf_bounds. split.
  - apply Z.div_pos; nia.
  - assert ((k * shiftI + MixerFracHalf) / MixerFracOne < 513); [|lia].
    apply Z.div_lt_upper_bound; lia.
Qed.

End RemapBounds.

(** ** The remapping loop *)

Section RemapLoop.
Context {Ar : Arith} {Defs : MixerDefs}.
Hypothesis Hbits : frac_bits_ok.

Lemma scanned_snoc shiftI n j :
  0 <= n ->
  scanned shiftI (n + 1) j
  = scanned shiftI n j
    ++ (if decide (remap_index shiftI n = j) then [n] else []).
Proof.
  intros Hn. unfold scanned.
  rewrite seqZ_app, filter_app by lia. f_equal.
Qed.

Lemma contributors_snoc shiftI n j ana a :
  0 <= n -> Arr.get ana n = Some a ->
  contributors shiftI (n + 1) j ana
  = contributors shiftI n j ana
    ++ (if decide (remap_index shiftI n = j) then [a] else []).
Proof.
  intros Hn Ha. unfold contributors. rewrite scanned_snoc by done.
  rewrite omap_app. f_equal. case_decide; simpl; [by rewrite Ha|done].
Qed.

Lemma remap_bin_merge shiftI shift ana k syn a d :
  Arr.get ana k = Some a ->
  Arr.get syn (remap_index shiftI k) = Some d ->
  remap_bin shiftI shift ana k syn
  = Arr.set syn (remap_index shiftI k) (merge_bin shift d a).
Proof. intros Ha Hd. unfold remap_bin. rewrite Ha, Hd. done. Qed.

(** The loop meets no fault, and each synthesis bin holds the fold of its
    contributors. *)
Lemma remap_spec shiftI shift ana syn :
  0 < shiftI ->
  Z.of_nat (length ana) = StftHalfSize + 1 ->
  Z.of_nat (length syn) = StftHalfSize + 1 ->
  exists n syn',
    bin_count shiftI = Some n /\
    remap shiftI shift ana syn = Some syn' /\
    length syn' = length syn /\
    forall j, 0 <= j <= StftHalfSize ->
      Arr.get syn' j
      = Some (foldl (merge_bin shift) bin_zero (contributors shiftI n j ana)).
Proof.
  intros Hpos Hana Hsyn.
  destruct (bin_count shiftI) as [n|] eqn:Hn;
    [|by rewrite bin_count_Some in Hn by done].
  pose proof (bin_count_range Hbits _ _ Hn ltac:(lia)) as Hrange.
  exists n. unfold remap. rewrite Hn.
  destruct (for_range_total
    (fun m t => length t = length syn /\
       forall j, 0 <= j <= StftHalfSize ->
         Arr.get t j
         = Some (foldl (merge_bin shift) bin_zero
                   (contributors shiftI m j ana)))
    (remap_bin shiftI shift ana) 0 n (Arr.fill syn bin_zero))
    as (syn' & Hrun & Hlen & Hbins).
  - lia.
  - split; [apply fill_length|]. intros j Hj.
    unfold contributors, scanned. simpl.
    rewrite get_lookup by lia. unfold Arr.fill.
    apply lookup_replicate_2. lia.
  - intros k t Hk [Hlen Hbins].
    destruct (get_is_Some ana k) as [a Ha]; [lia|].
    pose proof (remap_index_bounds Hbits _ _ k Hn ltac:(lia) ltac:(lia)) as Hj.
    pose proof (Hbins _ Hj) as Hd.
    rewrite (remap_bin_merge _ _ _ _ _ _ _ Ha Hd).
    rewrite set_is_Some by lia. eexists. split; [done|].
    split; [by rewrite length_insert|]. intros j' Hj'.
    rewrite (contributors_snoc _ _ _ _ a) by (done || lia).
    rewrite foldl_app. rewrite get_lookup by lia.
    case_decide as Heq.
    + subst j'. rewrite list_lookup_insert_eq by lia. done.
    + rewrite list_lookup_insert_ne by lia.
      rewrite <- get_lookup by lia. simpl. by apply Hbins.
  - exists syn'. done.
Qed.

(** The magnitude of a fold is the sum of the magnitudes. *)
Lemma merge_magnitude shift bins d :
  Magnitude (foldl (merge_bin shift) d bins)
  = foldl d_add (Magnitude d) (map Magnitude bins).
Proof.
  revert d. induction bins as [|a bins IH]; intros d; simpl; [done|].
  by rewrite IH.
Qed.

(** What the loop leaves in a synthesis bin: the sum of the magnitudes
    of its contributors, and the frequency of the last contributor whose
    magnitude exceeds the sum of the magnitudes before it. *)
Lemma remap_bin_contents shiftI shift ana syn :
  0 < shiftI ->
  Z.of_nat (length ana) = StftHalfSize + 1 ->
  Z.of_nat (length syn) = StftHalfSize + 1 ->
  exists n syn',
    bin_count shiftI = Some n /\
    remap shiftI shift ana syn = Some syn' /\
    forall j, 0 <= j <= StftHalfSize ->
      exists b,
        Arr.get syn' j = Some b /\
        Magnitude b = sum_magnitudes (contributors shiftI n j ana) /\
        FreqBin b
        = FreqBin (foldl (merge_bin shift) bin_zero
                     (contributors shiftI n j ana)).
Proof.
  intros Hpos Hana Hsyn.
  destruct (remap_spec shiftI shift ana syn Hpos Hana Hsyn)
    as (n & syn' & Hn & Hrun & _ & Hbins).
  exists n, syn'. split; [done|]. split; [done|]. intros j Hj.
  eexists. split; [by apply Hbins|]. split; [|done].
  apply merge_magnitude.
Qed.

(** A fixed-point pitch of zero stops the remapper: [bin_limit] is
    divided by it. *)
Lemma remap_zero_pitch shift ana syn : remap 0 shift ana syn = None.
Proof. done. Qed.

End RemapLoop.

(** ** The loops of one cycle *)

Ltac sizes :=
  change StftSize with 1024 in *; change StftHalfSize with 512 in *;
  change StftStep with 256 in *; change OversampleFactor with 4 in *.

Section HopLoops.
Context {Ar : Arith} {Num : AlNumeric} {Lm : Libm} {Co : Collaborators}
        {Defs : MixerDefs}.

Lemma to_size_small x : 0 <= x < 2 ^ 64 -> to_size x = x.
Proof. intros Hx. unfold to_size, size_bits. by apply Z.mod_small. Qed.

Lemma to_size_nonneg x : 0 <= to_size x < 2 ^ 64.
Proof. unfold to_size, size_bits. apply Z.mod_pos_bound. done. Qed.

Lemma HannWindow_length : Z.of_nat (length HannWindow) = StftSize.
Proof.
  unfold HannWindow, InitHannWindow.
  assert (forall (f : nat -> double) l (init : list double),
    length (foldl (fun ret i =>
                     <[(Z.to_nat (StftSize - 1) - i)%nat := f i]>
                       (<[i := f i]> ret)) init l)
    = length init) as Hfold.
  { intros f l. induction l as [|i l IH]; intros init; simpl; [done|].
    by rewrite IH, !length_insert. }
  rewrite Hfold, length_replicate. sizes. lia.
Qed.

(** *** Windowing *)

Lemma window_bin_total fifo src k fft :
  0 <= src < Z.of_nat (length fifo) -> 0 <= k < StftSize ->
  Z.of_nat (length fft) = StftSize ->
  exists fft', window_bin HannWindow fifo src k fft = Some fft' /\
               length fft' = length fft.
Proof.
  intros Hsrc Hk Hfft. unfold window_bin.
  destruct (get_is_Some fifo src) as [x ->]; [done|].
  destruct (get_is_Some HannWindow k) as [w ->];
    [by rewrite HannWindow_length|].
  rewrite set_is_Some by lia. eexists. split; [done|]. apply length_insert.
Qed.

Lemma window_frame_total fifo pos fft :
  0 <= pos <= StftSize ->
  Z.of_nat (length fifo) = StftSize -> Z.of_nat (length fft) = StftSize ->
  exists fft', window_frame fifo pos fft = Some fft' /\
               length fft' = length fft.
Proof.
  intros Hpos Hfifo Hfft. unfold window_frame. cbv zeta.
  destruct (for_range_total (fun _ t => length t = length fft)
              (fun src => window_bin HannWindow fifo src (src - pos))
              pos StftSize fft)
    as (fft1 & -> & Hlen1); [lia|done| |].
  { intros src t Hsrc Ht.
    destruct (window_bin_total fifo src (src - pos) t) as (t' & ? & ?);
      [lia|lia|lia|].
    exists t'. split; [done|congruence]. }
  destruct (for_range_total (fun _ t => length t = length fft)
              (fun src => window_bin HannWindow fifo src
                            (to_size (StftSize - pos) + src))
              0 pos fft1)
    as (fft2 & -> & Hlen2); [lia|done| |].
  { intros src t Hsrc Ht. rewrite to_size_small by (sizes; lia).
    destruct (window_bin_total fifo src (StftSize - pos + src) t)
      as (t' & ? & ?); [lia|lia|lia|].
    exists t'. split; [done|congruence]. }
  exists fft2. done.
Qed.

(** *** Overlap-add *)

Lemma accumulate_bin_total fft dst k acc :
  0 <= dst < Z.of_nat (length acc) -> 0 <= k < StftSize ->
  Z.of_nat (length fft) = StftSize ->
  exists acc', accumulate_bin HannWindow fft dst k acc = Some acc' /\
               length acc' = length acc.
Proof.
  intros Hdst Hk Hfft. unfold accumulate_bin.
  destruct (get_is_Some acc dst) as [a ->]; [done|].
  destruct (get_is_Some HannWindow k) as [w ->];
    [by rewrite HannWindow_length|].
  destruct (get_is_Some fft k) as [c ->]; [lia|].
  rewrite set_is_Some by lia. eexists. split; [done|]. apply length_insert.
Qed.

Lemma overlap_add_total fft pos acc :
  0 <= pos <= StftSize ->
  Z.of_nat (length fft) = StftSize -> Z.of_nat (length acc) = StftSize ->
  exists acc', overlap_add fft pos acc = Some acc' /\ length acc' = length acc.
Proof.
  intros Hpos Hfft Hacc. unfold overlap_add. cbv zeta.
  destruct (for_range_total (fun _ t => length t = length acc)
              (fun dst => accumulate_bin HannWindow fft dst (dst - pos))
              pos StftSize acc)
    as (acc1 & -> & Hlen1); [lia|done| |].
  { intros dst t Hdst Ht.
    destruct (accumulate_bin_total fft dst (dst - pos) t) as (t' & ? & ?);
      [lia|lia|lia|].
    exists t'. split; [done|congruence]. }
  destruct (for_range_total (fun _ t => length t = length acc)
              (fun dst => accumulate_bin HannWindow fft dst
                            (to_size (StftSize - pos) + dst))
              0 pos acc1)
    as (acc2 & -> & Hlen2); [lia|done| |].
  { intros dst t Hdst Ht. rewrite to_size_small by (sizes; lia).
    destruct (accumulate_bin_total fft dst (StftSize - pos + dst) t)
      as (t' & ? & ?); [lia|lia|lia|].
    exists t'. split; [done|congruence]. }
  exists acc2. done.
Qed.

(** *** Conjugate symmetry *)

Lemma mirror_total fft :
  Z.of_nat (length fft) = StftSize ->
  exists fft', mirror fft = Some fft' /\ length fft' = length fft.
Proof.
  intros Hfft. unfold mirror.
  destruct (for_range_total (fun _ t => length t = length fft)
    (fun k t => do c <- Arr.get t (to_size (StftSize - k));
                Arr.set t k (c_conj c))
    (StftHalfSize + 1) StftSize fft) as (fft' & -> & Hlen);
    [sizes; lia|done| |by exists fft'].
  intros k t Hk Ht. rewrite to_size_small by (sizes; lia).
  destruct (get_is_Some t (StftSize - k)) as [c ->]; [sizes; lia|].
  rewrite set_is_Some by (sizes; lia). eexists. split; [done|].
  by rewrite length_insert.
Qed.

End HopLoops.

(** ** The analyzer and the resynthesizer, bin by bin *)

Section BinLoops.
Context {Ar : Arith} {Num : AlNumeric} {Lm : Libm} {Co : Collaborators}
        {Defs : MixerDefs}.

Lemma analyze_bin_Some fft k last ana last' ana' :
  analyze_bin fft k (last, ana) = Some (last', ana') ->
  exists c lp,
    Arr.get fft k = Some c /\ Arr.get last k = Some lp /\
    Arr.set last k (c_arg c) = Some last' /\
    Arr.set ana k (analysis_bin k c lp) = Some ana'.
Proof.
  unfold analyze_bin, analysis_bin. intros Hrun.
  destruct (Arr.get fft k) as [c|]; [|done].
  destruct (Arr.get last k) as [lp|]; [|done].
  exists c, lp.
  destruct (Arr.set last k (c_arg c)) as [l|]; [|done].
  destruct (Arr.set ana k _) as [a|]; [|done].
  by injection Hrun as <- <-.
Qed.

(** After the analysis loop every bin up to [StftHalfSize] holds the
    magnitude and the frequency computed from its spectrum value, and the
    last phase of the bin is the phase just measured. *)
Lemma analyze_inv fft last ana last' ana' :
  analyze fft last ana = Some (last', ana') ->
  (length last' = length last /\ length ana' = length ana) /\
  (forall k, 0 <= k <= StftHalfSize ->
     exists c lp,
       Arr.get fft k = Some c /\ Arr.get last k = Some lp /\
       Arr.get last' k = Some (c_arg c) /\
       Arr.get ana' k = Some (analysis_bin k c lp)) /\
  (forall k, StftHalfSize < k ->
     Arr.get last' k = Arr.get last k /\ Arr.get ana' k = Arr.get ana k).
Proof.
  intros Hrun. unfold analyze in Hrun.
  pose (I := fun (m : Z) (st : list double * list FrequencyBin) =>
    (length st.1 = length last /\ length st.2 = length ana) /\
    (forall k, 0 <= k < m ->
       exists c lp,
         Arr.get fft k = Some c /\ Arr.get last k = Some lp /\
         Arr.get st.1 k = Some (c_arg c) /\
         Arr.get st.2 k = Some (analysis_bin k c lp)) /\
    (forall k, m <= k ->
       Arr.get st.1 k = Arr.get last k /\ Arr.get st.2 k = Arr.get ana k)).
  assert (I (StftHalfSize + 1) (last', ana')) as (Hlen & Hlow & Hhigh).
  { apply (for_range_inv I (analyze_bin fft) 0 (StftHalfSize + 1) (last, ana));
      [by sizes| | |exact Hrun].
    - split; [done|]. split; [intros; lia|by intros; split].
    - intros m [l a] [l' a'] Hm ((Hl & Ha) & Hlow & Hhigh) Hstep. simpl in *.
      apply analyze_bin_Some in Hstep as (c & lp & Hc & Hlp & Hsl & Hsa).
      unfold I; simpl. split; [split|split].
      + rewrite (set_length _ _ _ _ Hsl). done.
      + rewrite (set_length _ _ _ _ Hsa). done.
      + intros k Hk. destruct (decide (k = m)) as [->|Hne].
        * exists c, lp. destruct (Hhigh m) as [Hm1 _]; [lia|].
          rewrite <- Hm1, Hlp, Hc.
          rewrite (get_set_eq _ _ _ _ Hsl), (get_set_eq _ _ _ _ Hsa). done.
        * destruct (Hlow k) as (c' & lp' & ? & ? & ? & ?); [lia|].
          exists c', lp'.
          rewrite (get_set_ne _ _ _ _ _ Hsl), (get_set_ne _ _ _ _ _ Hsa) by lia.
          done.
      + intros k Hk.
        rewrite (get_set_ne _ _ _ _ _ Hsl), (get_set_ne _ _ _ _ _ Hsa) by lia.
        apply Hhigh. lia. }
  split; [done|]. split; [|intros k Hk; apply Hhigh; lia].
  intros k Hk. apply Hlow. lia.
Qed.

Lemma analyze_total fft last ana :
  StftHalfSize + 1 <= Z.of_nat (length fft) ->
  Z.of_nat (length last) = StftHalfSize + 1 ->
  Z.of_nat (length ana) = StftHalfSize + 1 ->
  is_Some (analyze fft last ana).
Proof.
  intros Hfft Hlast Hana. unfold analyze.
  destruct (for_range_total
    (fun _ (st : list double * list FrequencyBin) =>
       length st.1 = length last /\ length st.2 = length ana)
    (analyze_bin fft) 0 (StftHalfSize + 1) (last, ana)) as (st & -> & _);
    [sizes; lia|done| |done].
  intros k [l a] Hk [Hl Ha]. simpl in *. unfold analyze_bin.
  destruct (get_is_Some fft k) as [c ->]; [lia|].
  destruct (get_is_Some l k) as [lp ->]; [lia|].
  rewrite !set_is_Some by lia. eexists. split; [done|]. simpl.
  by rewrite !length_insert.
Qed.

Lemma synthesize_bin_Some syn k sum fft sum' fft' :
  synthesize_bin syn k (sum, fft) = Some (sum', fft') ->
  exists sp b,
    Arr.get sum k = Some sp /\ Arr.get syn k = Some b /\
    Arr.set sum k (advance_phase sp (FreqBin b)) = Some sum' /\
    Arr.set fft k (c_polar (Magnitude b) (advance_phase sp (FreqBin b)))
    = Some fft'.
Proof.
  unfold synthesize_bin. intros Hrun.
  destruct (Arr.get sum k) as [sp|]; [|done].
  destruct (Arr.get syn k) as [b|]; [|done].
  exists sp, b.
  destruct (Arr.set sum k _) as [l|]; [|done].
  destruct (Arr.set fft k _) as [a|]; [|done].
  by injection Hrun as <- <-.
Qed.

(** After the resynthesis loop the accumulated phase of every bin up to
    [StftHalfSize] is the wrapped sum of its old value and the advance of
    the bin's frequency. *)
Lemma synthesize_inv syn sum fft sum' fft' :
  synthesize syn sum fft = Some (sum', fft') ->
  (length sum' = length sum /\ length fft' = length fft) /\
  (forall k, 0 <= k <= StftHalfSize ->
     exists sp b,
       Arr.get sum k = Some sp /\ Arr.get syn k = Some b /\
       Arr.get sum' k = Some (advance_phase sp (FreqBin b)) /\
       Arr.get fft' k
       = Some (c_polar (Magnitude b) (advance_phase sp (FreqBin b)))) /\
  (forall k, StftHalfSize < k ->
     Arr.get sum' k = Arr.get sum k /\ Arr.get fft' k = Arr.get fft k).
Proof.
  intros Hrun. unfold synthesize in Hrun.
  pose (I := fun (m : Z) (st : list double * list complex_d) =>
    (length st.1 = length sum /\ length st.2 = length fft) /\
    (forall k, 0 <= k < m ->
       exists sp b,
         Arr.get sum k = Some sp /\ Arr.get syn k = Some b /\
         Arr.get st.1 k = Some (advance_phase sp (FreqBin b)) /\
         Arr.get st.2 k
         = Some (c_polar (Magnitude b) (advance_phase sp (FreqBin b)))) /\
    (forall k, m <= k ->
       Arr.get st.1 k = Arr.get sum k /\ Arr.get st.2 k = Arr.get fft k)).
  assert (I (StftHalfSize + 1) (sum', fft')) as (Hlen & Hlow & Hhigh).
  { apply (for_range_inv I (synthesize_bin syn) 0 (StftHalfSize + 1)
             (sum, fft));
      [by sizes| | |exact Hrun].
    - split; [done|]. split; [intros; lia|by intros; split].
    - intros m [l a] [l' a'] Hm ((Hl & Ha) & Hlow & Hhigh) Hstep. simpl in *.
      apply synthesize_bin_Some in Hstep as (sp & b & Hsp & Hb & Hsl & Hsa).
      unfold I; simpl. split; [split|split].
      + rewrite (set_length _ _ _ _ Hsl). done.
      + rewrite (set_length _ _ _ _ Hsa). done.
      + intros k Hk. destruct (decide (k = m)) as [->|Hne].
        * exists sp, b. destruct (Hhigh m) as [Hm1 _]; [lia|].
          rewrite <- Hm1, Hsp, Hb.
          rewrite (get_set_eq _ _ _ _ Hsl), (get_set_eq _ _ _ _ Hsa). done.
        * destruct (Hlow k) as (sp' & b' & ? & ? & ? & ?); [lia|].
          exists sp', b'.
          rewrite (get_set_ne _ _ _ _ _ Hsl), (get_set_ne _ _ _ _ _ Hsa) by lia.
          done.
      + intros k Hk.
        rewrite (get_set_ne _ _ _ _ _ Hsl), (get_set_ne _ _ _ _ _ Hsa) by lia.
        apply Hhigh. lia. }
  split; [done|]. split; [|intros k Hk; apply Hhigh; lia].
  intros k Hk. apply Hlow. lia.
Qed.

Lemma synthesize_total syn sum fft :
  Z.of_nat (length syn) = StftHalfSize + 1 ->
  Z.of_nat (length sum) = StftHalfSize + 1 ->
  StftHalfSize + 1 <= Z.of_nat (length fft) ->
  is_Some (synthesize syn sum fft).
Proof.
  intros Hsyn Hsum Hfft. unfold synthesize.
  destruct (for_range_total
    (fun _ (st : list double * list complex_d) =>
       length st.1 = length sum /\ length st.2 = length fft)
    (synthesize_bin syn) 0 (StftHalfSize + 1) (sum, fft)) as (st & -> & _);
    [sizes; lia|done| |done].
  intros k [l a] Hk [Hl Ha]. simpl in *. unfold synthesize_bin.
  destruct (get_is_Some l k) as [sp ->]; [lia|].
  destruct (get_is_Some syn k) as [b ->]; [lia|].
  rewrite !set_is_Some by lia. eexists. split; [done|]. simpl.
  by rewrite !length_insert.
Qed.

End BinLoops.

(** ** One cycle and the outer loop *)

(** Opening the steps of a computation that returned. *)
Ltac open_do H :=
  repeat match type of H with
    | match ?e with Some _ => _ | None => None end = Some _ =>
        let E := fresh "E" in destruct e eqn:E; [|discriminate H]
    | match ?p with (_, _) => _ end = Some _ => destruct p
    end.

(** Reading a field of a state that is written out. *)
Ltac fields :=
  cbn [mOutTarget mCount mPos mPitchShiftI mPitchShift mFIFO mLastPhase
       mSumPhase mOutputAccum mFftBuffer mAnalysisBuffer mSynthesisBuffer
       mBufferOut mCurrentGains mTargetGains] in *.

Section Process.
Context {Ar : Arith} {Num : AlNumeric} {Lm : Libm} {Co : Collaborators}
        {Defs : MixerDefs}.

(** A cycle writes the buffers of the effect and nothing else. *)
Lemma hop_fields s s' :
  hop s = Some s' ->
  mPos s' = mPos s /\ mCount s' = mCount s /\
  mPitchShiftI s' = mPitchShiftI s /\ mPitchShift s' = mPitchShift s /\
  mBufferOut s' = mBufferOut s /\ mCurrentGains s' = mCurrentGains s /\
  mTargetGains s' = mTargetGains s /\ mOutTarget s' = mOutTarget s.
Proof.
  unfold hop. intros Hrun. open_do Hrun. injection Hrun as <-. done.
Qed.

Lemma frame_chunk_fields s samplesIn base todo s' :
  frame_chunk s samplesIn base todo = Some s' ->
  mPos s' = mPos s /\ mCount s' = to_size (mCount s + todo) /\
  mPitchShiftI s' = mPitchShiftI s /\ mPitchShift s' = mPitchShift s /\
  mLastPhase s' = mLastPhase s /\ mSumPhase s' = mSumPhase s.
Proof.
  unfold frame_chunk. intros Hrun. open_do Hrun. injection Hrun as <-. done.
Qed.

(** The mask of the cursor update is a remainder. *)
Lemma advance_pos s :
  0 <= mPos s <= StftSize - StftStep ->
  mPos (advance s) = (mPos s + StftStep) mod StftSize.
Proof.
  intros Hpos. unfold advance; simpl.
  rewrite !to_size_small by (sizes; lia). sizes.
  change (1024 - 1) with (Z.ones 10). by rewrite Z.land_ones.
Qed.

Lemma step_multiples p :
  p mod 256 = 0 -> 0 <= p <= 768 ->
  ((p + 256) mod 1024) mod 256 = 0 /\ 0 <= (p + 256) mod 1024 <= 768.
Proof.
  intros Hmod Hpos.
  assert (p = 0 \/ p = 256 \/ p = 512 \/ p = 768) as Hc.
  { apply Z.mod_divide in Hmod as [q Hq]; lia. }
  destruct Hc as [-> | [-> | [-> | ->]]]; split; try reflexivity;
    cbv; split; congruence.
Qed.

Lemma advance_cursor_ok s :
  mPos s mod StftStep = 0 -> 0 <= mPos s <= StftSize - StftStep ->
  cursor_ok (advance s).
Proof.
  intros Hmod Hpos. unfold cursor_ok. rewrite advance_pos by done.
  simpl. sizes. pose proof (step_multiples (mPos s) Hmod ltac:(lia)). lia.
Qed.

(** The samples of a pass: as many as the step still lacks, or as remain
    of the input. *)
Lemma todo_bounds s samplesToDo base :
  0 <= mCount s < StftStep ->
  0 <= minz (to_size (StftStep - mCount s)) (to_size (samplesToDo - base))
    <= StftStep - mCount s.
Proof.
  intros Hcount. unfold minz.
  rewrite (to_size_small (StftStep - mCount s)) by (sizes; lia).
  pose proof (to_size_nonneg (samplesToDo - base)). lia.
Qed.

(** The outer loop keeps the cursor on a step boundary. *)
Lemma process_loop_cursor_ok fuel samplesToDo samplesIn base s s' :
  cursor_ok s ->
  process_loop fuel samplesToDo samplesIn base s = Some s' ->
  cursor_ok s'.
Proof.
  revert base s.
  induction fuel as [|fuel IH]; intros base s Hok; simpl; [done|].
  case_decide as Hbase; [|by intros [= <-]].
  destruct (frame_chunk s samplesIn base _) as [s1|] eqn:Hchunk; [|done].
  apply frame_chunk_fields in Hchunk as (Hpos1 & Hcount1 & _).
  destruct Hok as (Hmod & Hpos & Hcount).
  pose proof (todo_bounds s samplesToDo base Hcount) as Htodo.
  rewrite to_size_small in Hcount1 by (sizes; lia).
  case_decide as Hfull.
  - intros [= <-]. unfold cursor_ok. rewrite Hpos1, Hcount1. lia.
  - destruct (hop (advance s1)) as [s2|] eqn:Hhop; [|done].
    apply IH. apply hop_fields in Hhop as (Hpos2 & Hcount2 & _).
    pose proof (advance_cursor_ok s1) as Hadv.
    unfold cursor_ok in *. rewrite Hpos2, Hcount2. apply Hadv; congruence.
Qed.

(** *** No fault in a well-formed state *)

Section Total.
Hypothesis Hbits : frac_bits_ok.
Hypothesis Hfft : transforms_in_place.

Lemma hop_total s :
  sized s -> 0 <= mPos s <= StftSize - StftStep -> 0 < mPitchShiftI s ->
  exists s', hop s = Some s' /\ sized s'.
Proof.
  intros Hs Hpos HP. destruct Hs. destruct Hfft as [Hfwd Hinv]. unfold hop.
  destruct (window_frame_total (mFIFO s) (mPos s) (mFftBuffer s))
    as (fft1 & -> & Hl1); [sizes; lia|done|done|].
  destruct (analyze_total (forward_fft fft1) (mLastPhase s) (mAnalysisBuffer s))
    as [[last ana] Hana]; [rewrite Hfwd, Hl1; sizes; lia|done|done|].
  rewrite Hana. pose proof (analyze_inv _ _ _ _ _ Hana) as ((Hll & Hla) & _).
  destruct (remap_spec Hbits (mPitchShiftI s) (mPitchShift s) ana
              (mSynthesisBuffer s)) as (n & syn & _ & -> & Hlsyn & _);
    [done|lia|done|].
  destruct (synthesize_total syn (mSumPhase s) (forward_fft fft1))
    as [[sum fft2] Hsyn]; [lia|done|rewrite Hfwd, Hl1; sizes; lia|].
  rewrite Hsyn.
  pose proof (synthesize_inv _ _ _ _ _ Hsyn) as ((Hlsum & Hl2) & _).
  rewrite Hfwd in Hl2.
  destruct (mirror_total fft2) as (fft3 & -> & Hl3); [lia|].
  destruct (overlap_add_total (inverse_fft fft3) (mPos s) (mOutputAccum s))
    as (acc & -> & Hlacc); [sizes; lia|rewrite Hinv; lia|done|].
  unfold Arr.copy_n, Arr.fill_n.
  rewrite slice_is_Some by (sizes; lia).
  rewrite blit_is_Some
    by (rewrite ?length_take, ?length_drop; sizes; lia).
  rewrite decide_True by (sizes; lia).
  rewrite blit_is_Some by (rewrite ?length_replicate; sizes; lia).
  eexists. split; [done|].
  split; fields;
    rewrite ?length_app, ?length_take, ?length_drop, ?length_replicate, ?Hinv;
    sizes; lia.
Qed.

End Total.

End Process.

(** ** The framer consumes its input sample by sample *)

Section Framer.
Context {Ar : Arith} {Num : AlNumeric} {Lm : Libm} {Co : Collaborators}
        {Defs : MixerDefs}.

Lemma blit_step {A} (a : list A) (i : nat) x xs :
  (i < length a)%nat ->
  take (S i) (<[i:=x]> a) ++ xs ++ drop (S i + length xs) (<[i:=x]> a)
  = take i a ++ (x :: xs) ++ drop (i + length (x :: xs)) a.
Proof.
  intros Hi.
  rewrite (take_S_r _ _ x) by (by apply list_lookup_insert_eq).
  rewrite take_insert_ge, drop_insert_lt by lia.
  rewrite <- app_assoc. simpl. repeat f_equal. lia.
Qed.

Lemma chunk_state_nil s base :
  0 <= base <= Z.of_nat (length (mBufferOut s)) ->
  0 <= mPos s + mCount s <= Z.of_nat (length (mFIFO s)) ->
  chunk_state s base [] = Some s.
Proof.
  intros Hbase Hp. unfold chunk_state. simpl length.
  rewrite slice_is_Some by lia. simpl.
  rewrite !blit_is_Some by (simpl; lia). simpl.
  rewrite !Nat.add_0_r, !take_drop, Z.add_0_r. by destruct s.
Qed.

Lemma emit_sample_chunk s base x xs :
  0 <= base -> base + 1 + Z.of_nat (length xs)
               <= Z.of_nat (length (mBufferOut s)) ->
  0 <= mPos s + mCount s ->
  mPos s + mCount s + 1 + Z.of_nat (length xs)
    <= Z.of_nat (length (mFIFO s)) ->
  (do s1 <- emit_sample s base x; chunk_state s1 (base + 1) xs)
  = chunk_state s base (x :: xs).
Proof.
  intros Hbase Hout Hp Hfifo. unfold emit_sample.
  destruct (get_is_Some (mFIFO s) (mPos s + mCount s)) as [y Hy]; [lia|].
  rewrite Hy, !set_is_Some by lia. unfold chunk_state. fields.
  rewrite !slice_is_Some by (rewrite ?length_insert; simpl length; lia).
  rewrite !blit_is_Some
    by (rewrite ?length_insert, ?length_map, ?length_take, ?length_drop;
        simpl length; lia).
  rewrite get_lookup in Hy by lia.
  replace (Z.to_nat (mPos s + (mCount s + 1)))
    with (S (Z.to_nat (mPos s + mCount s))) by lia.
  replace (Z.to_nat (base + 1)) with (S (Z.to_nat base)) by lia.
  f_equal. f_equal; [simpl length; lia|..].
  - simpl map. apply blit_step. lia.
  - rewrite drop_insert_lt by lia.
    replace (Z.to_nat (Z.of_nat (length (x :: xs))))
      with (S (length xs)) by (simpl length; lia).
    rewrite (drop_S _ y (Z.to_nat (mPos s + mCount s))) by done.
    rewrite Nat2Z.id. simpl take. simpl map. apply blit_step. lia.
Qed.

(** A block of samples that fits the buffers is consumed one by one. *)
Lemma emit_samples_chunk xs : forall s base,
  0 <= base ->
  base + Z.of_nat (length xs) <= Z.of_nat (length (mBufferOut s)) ->
  0 <= mPos s + mCount s ->
  mPos s + mCount s + Z.of_nat (length xs) <= Z.of_nat (length (mFIFO s)) ->
  emit_samples s base xs = chunk_state s base xs.
Proof.
  induction xs as [|x xs IH]; intros s base Hbase Hout Hp Hfifo.
  - simpl in *. by rewrite chunk_state_nil by lia.
  - simpl emit_samples. simpl length in *.
    rewrite <- emit_sample_chunk by lia.
    destruct (emit_sample s base x) as [s1|] eqn:Hemit; [|done].
    unfold emit_sample in Hemit. open_do Hemit. injection Hemit as <-.
    apply IH; fields;
      rewrite ?(set_length _ _ _ _ E0), ?(set_length _ _ _ _ E1); lia.
Qed.

Lemma frame_chunk_chunk_state s samplesIn in0 base todo xs :
  Arr.get samplesIn 0 = Some in0 -> Arr.slice in0 base todo = Some xs ->
  0 <= mCount s + todo < 2 ^ 64 ->
  frame_chunk s samplesIn base todo = chunk_state s base xs.
Proof.
  intros Hin Hxs Hcount. unfold frame_chunk, chunk_state.
  rewrite (slice_length _ _ _ _ Hxs), Hin, Hxs.
  by rewrite to_size_small.
Qed.

Lemma chunk_state_fields s base xs s' :
  chunk_state s base xs = Some s' ->
  mPos s' = mPos s /\ mCount s' = mCount s + Z.of_nat (length xs) /\
  length (mFIFO s') = length (mFIFO s) /\
  length (mBufferOut s') = length (mBufferOut s).
Proof.
  unfold chunk_state. intros Hrun. open_do Hrun. injection Hrun as <-. fields.
  by rewrite (blit_length _ _ _ _ E0), (blit_length _ _ _ _ E1).
Qed.

Lemma hop_framer_lengths s s' :
  hop s = Some s' ->
  length (mFIFO s') = length (mFIFO s) /\
  length (mBufferOut s') = length (mBufferOut s).
Proof.
  unfold hop. intros Hrun. open_do Hrun. injection Hrun as <-. fields.
  split; [|done]. unfold Arr.copy_n in *.
  match goal with H : context [Arr.slice] |- _ =>
    open_do H; rename H into Hb end.
  by rewrite (blit_length _ _ _ _ Hb).
Qed.

Lemma emit_sample_count s base x s' :
  emit_sample s base x = Some s' -> mCount s' = mCount s + 1.
Proof.
  unfold emit_sample. intros Hrun. open_do Hrun. by injection Hrun as <-.
Qed.

(** Short of a full step no cycle starts. *)
Lemma frame_samples_short xs : forall s base,
  mCount s + Z.of_nat (length xs) < StftStep ->
  frame_samples s base xs = emit_samples s base xs.
Proof.
  induction xs as [|x xs IH]; intros s base Hcount; simpl; [done|].
  unfold frame_sample. simpl length in Hcount.
  destruct (emit_sample s base x) as [s1|] eqn:Hemit; [|done].
  pose proof (emit_sample_count _ _ _ _ Hemit) as Hc1.
  rewrite decide_False by lia. apply IH. lia.
Qed.

Lemma frame_samples_app xs ys : forall s base,
  frame_samples s base (xs ++ ys)
  = do s' <- frame_samples s base xs;
    frame_samples s' (base + Z.of_nat (length xs)) ys.
Proof.
  induction xs as [|x xs IH]; intros s base; simpl.
  - by rewrite Z.add_0_r.
  - destruct (frame_sample s base x) as [s1|]; [|done].
    rewrite IH. destruct (frame_samples s1 (base + 1) xs); [|done].
    f_equal. lia.
Qed.

Lemma emit_samples_app xs ys : forall s base,
  emit_samples s base (xs ++ ys)
  = do s' <- emit_samples s base xs;
    emit_samples s' (base + Z.of_nat (length xs)) ys.
Proof.
  induction xs as [|x xs IH]; intros s base; simpl.
  - by rewrite Z.add_0_r.
  - destruct (emit_sample s base x) as [s1|]; [|done].
    rewrite IH. destruct (emit_samples s1 (base + 1) xs); [|done].
    f_equal. lia.
Qed.

Lemma emit_samples_count xs : forall s base s',
  emit_samples s base xs = Some s' ->
  mCount s' = mCount s + Z.of_nat (length xs).
Proof.
  induction xs as [|x xs IH]; intros s base s'; simpl.
  - intros [= <-]. lia.
  - destruct (emit_sample s base x) as [s1|] eqn:Hemit; [|done].
    intros Hrun. rewrite (IH _ _ _ Hrun), (emit_sample_count _ _ _ _ Hemit).
    lia.
Qed.

(** The sample that fills the step starts the cycle. *)
Lemma frame_samples_full xs s base :
  xs <> [] -> mCount s + Z.of_nat (length xs) = StftStep ->
  frame_samples s base xs
  = do s1 <- emit_samples s base xs; hop (advance s1).
Proof.
  intros Hne Hcount.
  destruct (exists_last Hne) as (ys & x & ->).
  rewrite length_app in Hcount. simpl in Hcount.
  rewrite frame_samples_app, emit_samples_app.
  rewrite frame_samples_short by lia.
  destruct (emit_samples s base ys) as [s1|] eqn:Hys; [|done].
  pose proof (emit_samples_count _ _ _ _ Hys) as Hc1.
  simpl. unfold frame_sample.
  destruct (emit_sample s1 _ x) as [s2|] eqn:Hx; [|done].
  pose proof (emit_sample_count _ _ _ _ Hx) as Hc2.
  rewrite decide_True by lia. by destruct (hop (advance s2)).
Qed.

(** The outer loop is the sample-by-sample framer run on the input that
    is left. *)
Lemma process_loop_refines samplesToDo samplesIn in0 :
  Arr.get samplesIn 0 = Some in0 ->
  0 <= samplesToDo < 2 ^ 64 ->
  samplesToDo <= Z.of_nat (length in0) ->
  samplesToDo <= BufferLineSize ->
  forall fuel base s,
    framer_ok s -> 0 <= base <= samplesToDo ->
    (Z.to_nat (samplesToDo - base) < fuel)%nat ->
    process_loop fuel samplesToDo samplesIn base s
    = frame_samples s base
        (take (Z.to_nat (samplesToDo - base)) (drop (Z.to_nat base) in0)).
Proof.
  intros Hin Hn Hlen Hline.
  induction fuel as [|fuel IH]; intros base s Hok Hbase Hfuel; [lia|].
  simpl process_loop.
  destruct Hok as ((Hmod & Hpos & Hcount) & Hfifo & Hout).
  case_decide as Hlt.
  2:{ replace (Z.to_nat (samplesToDo - base)) with 0%nat by lia. done. }
  pose proof (todo_bounds s samplesToDo base Hcount) as Htodo.
  set (todo := minz (to_size (StftStep - mCount s))
                    (to_size (samplesToDo - base))) in *.
  assert (todo = Z.min (StftStep - mCount s) (samplesToDo - base)) as Htodo_eq.
  { unfold todo, minz. rewrite !to_size_small by (sizes; lia). done. }
  set (xs := take (Z.to_nat todo) (drop (Z.to_nat base) in0)).
  assert (Z.of_nat (length xs) = todo) as Hxs_len.
  { unfold xs. rewrite length_take, length_drop. lia. }
  assert (Arr.slice in0 base todo = Some xs) as Hslice.
  { apply slice_is_Some; lia. }
  assert (take (Z.to_nat (samplesToDo - base)) (drop (Z.to_nat base) in0)
          = xs ++ take (Z.to_nat (samplesToDo - (base + todo)))
                       (drop (Z.to_nat (base + todo)) in0)) as ->.
  { unfold xs.
    replace (Z.to_nat (samplesToDo - base))
      with (Z.to_nat todo + Z.to_nat (samplesToDo - (base + todo)))%nat by lia.
    rewrite <- take_take_drop, drop_drop. do 3 f_equal. lia. }
  rewrite (frame_chunk_chunk_state _ _ _ _ _ _ Hin Hslice) by (sizes; lia).
  rewrite <- emit_samples_chunk by (sizes; lia).
  rewrite frame_samples_app, Hxs_len.
  destruct (decide (mCount s + todo < StftStep)) as [Hshort|Hfull].
  - rewrite frame_samples_short by lia.
    destruct (emit_samples s base xs) as [s1|] eqn:Hemit; [|done].
    pose proof (emit_samples_count _ _ _ _ Hemit) as Hc1.
    rewrite decide_True by lia.
    replace (Z.to_nat (samplesToDo - (base + todo))) with 0%nat by lia. done.
  - rewrite frame_samples_full by (try intros ->; simpl in *; lia).
    destruct (emit_samples s base xs) as [s1|] eqn:Hemit; [|done].
    pose proof (emit_samples_count _ _ _ _ Hemit) as Hc1.
    rewrite decide_False by lia.
    destruct (hop (advance s1)) as [s2|] eqn:Hhop; [|done].
    rewrite to_size_small by lia.
    rewrite emit_samples_chunk in Hemit by (sizes; lia).
    apply chunk_state_fields in Hemit as (Hp1 & _ & Hf1 & Ho1).
    pose proof (hop_fields _ _ Hhop) as (Hp2 & Hc2 & _).
    pose proof (hop_framer_lengths _ _ Hhop) as (Hf2 & Ho2).
    apply IH; [|lia|lia].
    split; [|split].
    + pose proof (advance_cursor_ok s1) as Hadv. unfold cursor_ok in *.
      rewrite Hp2, Hc2. apply Hadv; congruence.
    + rewrite Hf2. unfold advance; fields. lia.
    + rewrite Ho2. unfold advance; fields. lia.
Qed.

End Framer.

(** ** A call on a well-formed state returns *)

Section ProcessTotal.
Context {Ar : Arith} {Num : AlNumeric} {Lm : Libm} {Co : Collaborators}
        {Defs : MixerDefs}.
Hypothesis Hbits : frac_bits_ok.
Hypothesis Hfft : transforms_in_place.

Lemma slice_get {A} (a xs : list A) off n i :
  Arr.slice a off n = Some xs -> 0 <= i < n ->
  Arr.get xs i = Arr.get a (off + i).
Proof.
  intros [(Hoff & Hn & Hlen) ->]%slice_Some Hi.
  rewrite !get_lookup by lia.
  rewrite lookup_take_lt, lookup_drop by lia. f_equal. lia.
Qed.

(** A cycle ends by moving one step of the accumulator, from the cursor
    on, into the ring buffer, and by clearing that step of the
    accumulator. *)
Lemma hop_copy_out s s' :
  hop s = Some s' ->
  exists fft acc,
    overlap_add fft (mPos s) (mOutputAccum s) = Some acc /\
    (forall i, Arr.get (mFIFO s') i
               = if decide (mPos s <= i < mPos s + StftStep)
                 then Arr.get acc i else Arr.get (mFIFO s) i) /\
    (forall i, Arr.get (mOutputAccum s') i
               = if decide (mPos s <= i < mPos s + StftStep)
                 then Some d_zero else Arr.get acc i).
Proof.
  unfold hop. intros Hrun. open_do Hrun. injection Hrun as <-. fields.
  match goal with H : overlap_add ?f _ _ = Some ?a |- _ =>
    exists f, a; split; [exact H|] end.
  match goal with H : Arr.copy_n _ _ _ _ _ = Some _ |- _ =>
    unfold Arr.copy_n in H; open_do H; rename H into Hblit end.
  match goal with H : Arr.slice _ _ _ = Some _ |- _ => rename H into Hslice end.
  match goal with H : Arr.fill_n _ _ _ _ = Some _ |- _ =>
    unfold Arr.fill_n in H; rename H into Hfill end.
  case_decide as Hstep; [|done].
  pose proof (slice_length _ _ _ _ Hslice) as Hlen.
  split; intros i.
  - rewrite (blit_get _ _ _ _ i Hblit), Hlen.
    case_decide as Hi; [|done].
    rewrite (slice_get _ _ _ _ (i - mPos s) Hslice) by lia. f_equal. lia.
  - rewrite (blit_get _ _ _ _ i Hfill), length_replicate.
    replace (Z.of_nat (Z.to_nat StftStep)) with StftStep by lia.
    case_decide as Hi; [|done].
    rewrite get_lookup by lia. apply lookup_replicate_2. lia.
Qed.

Lemma chunk_state_total s base xs :
  0 <= base ->
  base + Z.of_nat (length xs) <= Z.of_nat (length (mBufferOut s)) ->
  0 <= mPos s + mCount s ->
  mPos s + mCount s + Z.of_nat (length xs) <= Z.of_nat (length (mFIFO s)) ->
  is_Some (chunk_state s base xs).
Proof.
  intros Hbase Hout Hp Hfifo. unfold chunk_state.
  rewrite slice_is_Some by lia.
  rewrite !blit_is_Some
    by (rewrite ?length_map, ?length_take, ?length_drop; lia).
  done.
Qed.

Lemma chunk_state_sized s base xs s' :
  chunk_state s base xs = Some s' -> sized s -> sized s'.
Proof.
  unfold chunk_state. intros Hrun Hs. open_do Hrun. injection Hrun as <-.
  destruct Hs. split; fields;
    rewrite ?(blit_length _ _ _ _ E0), ?(blit_length _ _ _ _ E1); done.
Qed.

Lemma chunk_state_pitch s base xs s' :
  chunk_state s base xs = Some s' -> mPitchShiftI s' = mPitchShiftI s.
Proof.
  unfold chunk_state. intros Hrun. open_do Hrun. by injection Hrun as <-.
Qed.

(** The outer loop runs to its end within its fuel. *)
Lemma process_loop_total samplesToDo samplesIn in0 :
  Arr.get samplesIn 0 = Some in0 ->
  0 <= samplesToDo < 2 ^ 64 ->
  samplesToDo <= Z.of_nat (length in0) ->
  samplesToDo <= BufferLineSize ->
  forall fuel base s,
    sized s -> cursor_ok s -> pitch_ok s -> 0 <= base <= samplesToDo ->
    (Z.to_nat (samplesToDo - base) < fuel)%nat ->
    exists s', process_loop fuel samplesToDo samplesIn base s = Some s' /\
               sized s' /\ cursor_ok s' /\ pitch_ok s'.
Proof.
  intros Hin Hn Hlen Hline.
  induction fuel as [|fuel IH]; intros base s Hs Hok Hpitch Hbase Hfuel; [lia|].
  simpl process_loop.
  case_decide as Hlt; [|by exists s].
  destruct Hok as (Hmod & Hpos & Hcount).
  pose proof (todo_bounds s samplesToDo base Hcount) as Htodo.
  set (todo := minz (to_size (StftStep - mCount s))
                    (to_size (samplesToDo - base))) in *.
  assert (todo = Z.min (StftStep - mCount s) (samplesToDo - base)) as Htodo_eq.
  { unfold todo, minz. rewrite !to_size_small by (sizes; lia). done. }
  set (xs := take (Z.to_nat todo) (drop (Z.to_nat base) in0)).
  assert (Z.of_nat (length xs) = todo) as Hxs_len.
  { unfold xs. rewrite length_take, length_drop. lia. }
  assert (Arr.slice in0 base todo = Some xs) as Hslice.
  { apply slice_is_Some; lia. }
  rewrite (frame_chunk_chunk_state _ _ _ _ _ _ Hin Hslice) by (sizes; lia).
  pose proof (sized_FIFO _ Hs) as Hfifo.
  pose proof (sized_BufferOut _ Hs) as Hout.
  destruct (chunk_state_total s base xs) as [s1 Hs1]; [sizes; lia..|].
  rewrite Hs1.
  pose proof (chunk_state_sized _ _ _ _ Hs1 Hs) as Hsized1.
  pose proof (chunk_state_pitch _ _ _ _ Hs1) as Hpitch1.
  apply chunk_state_fields in Hs1 as (Hp1 & Hc1 & _).
  case_decide as Hshort.
  - exists s1. split; [done|]. split; [done|].
    unfold cursor_ok, pitch_ok in *. rewrite Hp1, Hpitch1. lia.
  - destruct (hop_total Hbits Hfft (advance s1)) as (s2 & Hhop & Hsized2).
    + destruct Hsized1. by split.
    + rewrite advance_pos by lia.
      pose proof (step_multiples (mPos s)). sizes. rewrite Hp1. lia.
    + unfold advance, pitch_ok in *; fields. lia.
    + rewrite Hhop. rewrite to_size_small by lia.
      pose proof (hop_fields _ _ Hhop) as (Hp2 & Hc2 & Hi2 & _).
      apply IH; [done| | |lia|lia].
      * pose proof (advance_cursor_ok s1) as Hadv. unfold cursor_ok in *.
        rewrite Hp2, Hc2. apply Hadv; [congruence|lia].
      * unfold pitch_ok in *. rewrite Hi2. unfold advance; fields. lia.
Qed.

(** [process] returns on every block the host may hand over. *)
Lemma process_total samplesToDo samplesIn samplesOut in0 s :
  Arr.get samplesIn 0 = Some in0 ->
  0 <= samplesToDo < 2 ^ 64 ->
  samplesToDo <= Z.of_nat (length in0) ->
  samplesToDo <= BufferLineSize ->
  sized s -> cursor_ok s -> pitch_ok s ->
  exists s' out,
    process samplesToDo samplesIn samplesOut s = Some (s', out) /\
    sized s' /\ cursor_ok s' /\ pitch_ok s'.
Proof.
  intros Hin Hn Hlen Hline Hs Hok Hpitch. unfold process.
  destruct (process_loop_total _ _ _ Hin Hn Hlen Hline
              (S (Z.to_nat samplesToDo)) 0 s) as (s1 & -> & Hs1 & Hok1 & Hp1);
    [done..|lia|lia|].
  rewrite slice_is_Some by (rewrite ?(sized_BufferOut _ Hs1); lia).
  destruct (MixSamples _ _ _ _ _ _) as [out gains].
  eexists _, out. split; [done|].
  split; [destruct Hs1; by split|]. done.
Qed.

End ProcessTotal.
(** * Rounding: the shift and the rounding of a mantissa *)

Section RoundingZ.
Import Rounding.

Lemma bpow_powerRZ e : bpow e = powerRZ 2 e.
Proof.
  assert (forall p, IZR (2 ^ Z.pos p) = (2 ^ Pos.to_nat p)%R) as Hpos.
  { intros p. rewrite <- (positive_nat_Z p) at 1. by rewrite <- pow_IZR. }
  unfold bpow. destruct e as [|p|p].
  - done.
  - change (0 <=? Z.pos p) with true. cbv iota. rewrite Hpos. done.
  - change (0 <=? Z.neg p) with false. cbv iota.
    change (- Z.neg p) with (Z.pos p). rewrite Hpos. done.
Qed.

Lemma bpow_pos e : (0 < bpow e)%R.
Proof. rewrite bpow_powerRZ. apply powerRZ_lt. lra. Qed.

Lemma bpow_add a b : bpow (a + b) = (bpow a * bpow b)%R.
Proof. rewrite !bpow_powerRZ. apply powerRZ_add. lra. Qed.

Lemma bpow_IZR e : 0 <= e -> bpow e = IZR (2 ^ e).
Proof. intros He. unfold bpow. by rewrite (proj2 (Z.leb_le 0 e) He). Qed.

Lemma bpow_0 : bpow 0 = 1%R.
Proof. done. Qed.

Lemma bpow_le a b : a <= b -> (bpow a <= bpow b)%R.
Proof.
  intros Hab. replace b with (a + (b - a)) by lia.
  rewrite bpow_add, (bpow_IZR (b - a)) by lia.
  assert (1 <= 2 ^ (b - a)) as H%IZR_le.
  { pose proof (Z.pow_pos_nonneg 2 (b - a)). lia. }
  pose proof (bpow_pos a). nra.
Qed.

Lemma bpow_lt a b : a < b -> (bpow a < bpow b)%R.
Proof.
  intros Hab. replace b with (a + (b - a)) by lia.
  rewrite bpow_add, (bpow_IZR (b - a)) by lia.
  assert (2 <= 2 ^ (b - a)) as H%IZR_le.
  { change 2 with (2 ^ 1) at 1. apply Z.pow_le_mono_r; lia. }
  pose proof (bpow_pos a). nra.
Qed.

Lemma bpow_le_inv a b : (bpow a <= bpow b)%R -> a <= b.
Proof.
  intros H. destruct (decide (a <= b)) as [|Hn]; [done|].
  assert (b < a) as Hlt%bpow_lt by lia. lra.
Qed.

Lemma bpow_lt_inv a b : (bpow a < bpow b)%R -> a < b.
Proof.
  intros H. destruct (decide (a < b)) as [|Hn]; [done|].
  assert (b <= a) as Hlt%bpow_le by lia. lra.
Qed.

Lemma bpow_half e : (bpow (e - 1) = bpow e / 2)%R.
Proof.
  replace e with ((e - 1) + 1) at 2 by lia. rewrite bpow_add.
  change (bpow 1) with 2%R. lra.
Qed.

(** *** Digits *)

Lemma digits2_pos_size p : digits2_pos p = Pos.size p.
Proof. induction p as [p IH|p IH|]; simpl; by rewrite ?IH. Qed.

Lemma Zdigits2_0 : Zdigits2 0 = 0.
Proof. done. Qed.

Lemma Zdigits2_upper m : 0 <= m -> m < 2 ^ Zdigits2 m.
Proof.
  intros Hm. destruct m as [|p|p]; [done| |lia]. simpl Zdigits2.
  rewrite digits2_pos_size. pose proof (Pos.size_gt p) as H.
  apply Pos2Z.pos_lt_pos in H. by rewrite Pos2Z.inj_pow in H.
Qed.

Lemma Zdigits2_lower m : 0 < m -> 2 ^ (Zdigits2 m - 1) <= m.
Proof.
  intros Hm. destruct m as [|p|p]; [lia| |lia]. simpl Zdigits2.
  rewrite digits2_pos_size. pose proof (Pos.size_le p) as H.
  apply Pos2Z.pos_le_pos in H. rewrite Pos2Z.inj_pow in H.
  replace (Z.pos (Pos.size p)) with ((Z.pos (Pos.size p) - 1) + 1) in H
    by lia.
  rewrite Z.pow_add_r in H by lia. change (2 ^ 1) with 2 in H.
  change (Z.pos p~0) with (2 * Z.pos p) in H. lia.
Qed.

Lemma Zdigits2_nonneg m : 0 <= Zdigits2 m.
Proof. destruct m; simpl; lia. Qed.

Lemma Zdigits2_pos m : 0 < m -> 0 < Zdigits2 m.
Proof. destruct m; simpl; lia. Qed.

Lemma Zdigits2_le_of_lt m k : 0 <= m -> 0 <= k -> m < 2 ^ k -> Zdigits2 m <= k.
Proof.
  intros Hm Hk Hlt. destruct (decide (m = 0)) as [->|Hne]; [done|].
  pose proof (Zdigits2_lower m ltac:(lia)) as Hlo.
  assert (2 ^ (Zdigits2 m - 1) < 2 ^ k) as H by lia.
  apply Z.pow_lt_mono_r_iff in H; lia.
Qed.

Lemma Zdigits2_pow2 k : 0 <= k -> Zdigits2 (2 ^ k) = k + 1.
Proof.
  intros Hk. assert (0 < 2 ^ k) as Hpos by (apply Z.pow_pos_nonneg; lia).
  pose proof (Zdigits2_lower _ Hpos) as Hlo.
  pose proof (Zdigits2_upper (2 ^ k) ltac:(lia)) as Hup.
  pose proof (Zdigits2_pos _ Hpos).
  apply Z.pow_le_mono_r_iff in Hlo; [|lia|lia].
  apply Z.pow_lt_mono_r_iff in Hup; lia.
Qed.

(** *** The right shift *)

Lemma shr_1_inv m0 n r :
  0 <= n -> shr_inv m0 n r -> shr_inv m0 (n + 1) (shr_1 r).
Proof.
  intros Hn (Hm & rem & Hrem & Hm0 & Hr & Hs).
  destruct r as [m r s]. simpl in *.
  assert (0 < 2 ^ n) as Hpow by (apply Z.pow_pos_nonneg; lia).
  assert (2 ^ (n + 1) = 2 * 2 ^ n) as Hpow1
    by (rewrite Z.pow_add_r by lia; change (2 ^ 1) with 2; lia).
  assert (r || s = true <-> rem <> 0) as Hrs.
  { rewrite orb_true_iff, Hr, Hs. lia. }
  assert (forall m' (b : bool), m = 2 * m' + (if b then 1 else 0) ->
            0 <= m' ->
            shr_inv m0 (n + 1) (Build_shr_record m' b (r || s))) as Hstep.
  { intros m' b -> Hm'. split; [done|]. simpl.
    exists ((if b then 2 ^ n else 0) + rem). rewrite Hpow1, Hrs.
    destruct b; repeat split; try lia; try (intros [=]);
      try (intros; exfalso; lia). }
  destruct m as [|[p|p|]|p]; try lia.
  - apply (Hstep 0 false); lia.
  - apply (Hstep (Z.pos p) true); lia.
  - apply (Hstep (Z.pos p) false); lia.
  - apply (Hstep 0 true); lia.
Qed.

Lemma iter_shr_inv m0 p : forall n r,
  0 <= n -> shr_inv m0 n r ->
  shr_inv m0 (n + Z.pos p) (SpecFloat.iter_pos shr_1 p r).
Proof.
  induction p as [p IH|p IH|]; intros n r Hn Hr; simpl.
  - replace (n + Z.pos p~1) with (((n + 1) + Z.pos p) + Z.pos p) by lia.
    apply IH; [lia|]. apply IH; [lia|]. by apply shr_1_inv.
  - replace (n + Z.pos p~0) with ((n + Z.pos p) + Z.pos p) by lia.
    apply IH; [lia|]. by apply IH.
  - by apply shr_1_inv.
Qed.

Lemma shr_inv_0 m : 0 <= m -> shr_inv m 0 (Build_shr_record m false false).
Proof.
  intros Hm. split; [done|]. exists 0. simpl. repeat split; try lia; done.
Qed.

(** Rounding to nearest, ties to even, after the shift: within half a
    unit of the shifted mantissa. *)
Lemma round_inv m0 n r :
  0 <= n -> shr_inv m0 n r ->
  let m2 := round_nearest_even (shr_m r) (loc_of_shr_record r) in
  shr_m r <= m2 <= shr_m r + 1 /\ 2 * Z.abs (m2 * 2 ^ n - m0) <= 2 ^ n /\
  (n = 0 -> m2 = m0).
Proof.
  intros Hn (Hm & rem & Hrem & Hm0 & Hr & Hs).
  destruct r as [m r s]. simpl in *.
  assert (0 < 2 ^ n) as Hpow by (apply Z.pow_pos_nonneg; lia).
  assert (n = 0 -> rem = 0) as H0.
  { intros ->. change (2 ^ 0) with 1 in Hrem. lia. }
  destruct r, s; simpl.
  - assert (2 ^ n <= 2 * rem) by (by apply Hr). split; [lia|].
    split; [|intros ->; change (2 ^ 0) with 1 in *; lia]. nia.
  - assert (2 ^ n <= 2 * rem) by (by apply Hr).
    assert (2 * rem = 2 ^ n).
    { destruct (decide (2 * rem = 2 ^ n)) as [|Hne]; [done|].
      assert (false = true) as [=]. apply Hs. lia. }
    split; [destruct (Z.even m); lia|].
    split; [|intros ->; change (2 ^ 0) with 1 in *; lia].
    destruct (Z.even m); nia.
  - assert (~ 2 ^ n <= 2 * rem) by (intros H%Hr; done). split; [lia|].
    split; [nia|]. intros H'. specialize (H0 H'). subst. lia.
  - assert (~ 2 ^ n <= 2 * rem) by (intros H%Hr; done). split; [lia|].
    split; [nia|]. intros H'. specialize (H0 H'). subst. lia.
Qed.

End RoundingZ.

Section RoundAux.
Import Rounding.
Variables prec emax : Z.
Hypothesis Hprec : 0 < prec.
Hypothesis Hemax : prec < emax.

Local Abbreviation fexp := (SpecFloat.fexp prec emax).
Local Abbreviation emin := (SpecFloat.emin prec emax).

Lemma fexp_mono a b : a <= b -> fexp a <= fexp b.
Proof. unfold SpecFloat.fexp, SpecFloat.emin. lia. Qed.

Lemma fexp_succ a : fexp (a + 1) <= fexp a + 1.
Proof. unfold SpecFloat.fexp, SpecFloat.emin. lia. Qed.

Lemma fexp_emin a : a <= emin + prec -> fexp a = emin.
Proof. unfold SpecFloat.fexp, SpecFloat.emin. lia. Qed.

Lemma fexp_ge_emin a : emin <= fexp a.
Proof. unfold SpecFloat.fexp, SpecFloat.emin. lia. Qed.

(** The shift [shr_fexp] makes of an exact mantissa. *)
Lemma shr_fexp_spec m e :
  0 <= m ->
  let n := Z.max 0 (fexp (Zdigits2 m + e) - e) in
  exists r, shr_fexp prec emax m e loc_Exact = (r, e + n) /\ shr_inv m n r.
Proof.
  intros Hm n. unfold shr_fexp, shr. simpl shr_record_of_loc.
  subst n. destruct (fexp (Zdigits2 m + e) - e) as [|p|p] eqn:Hn.
  - eexists. split; [by rewrite Z.add_0_r|]. by apply shr_inv_0.
  - eexists. split; [by rewrite Z.max_r by lia|].
    rewrite Z.max_r by lia.
    apply (iter_shr_inv m p 0 _ ltac:(lia)). by apply shr_inv_0.
  - eexists. split; [by rewrite Z.max_l, Z.add_0_r by lia|].
    rewrite Z.max_l by lia. by apply shr_inv_0.
Qed.

(** What [binary_round_aux] makes of the mantissa [mx] at the exponent
    [ex]: a datum [m3 2^e3] that is a multiple of the unit [2^e1] of the
    format at this magnitude, within half a unit of [mx 2^ex]. *)
Lemma binary_round_aux_Z s mx ex :
  0 <= mx -> ex <= emax - prec ->
  let D := Zdigits2 mx + ex in
  D < emax ->
  let n1 := Z.max 0 (fexp D - ex) in
  exists m2 m3 n2,
    binary_round_aux prec emax s mx ex loc_Exact
    = SF_make s m3 (ex + n1 + n2) /\
    0 <= m3 /\ 0 <= n2 /\ m2 = m3 * 2 ^ n2 /\
    2 * Z.abs (m2 * 2 ^ n1 - mx) <= 2 ^ n1 /\ (n1 = 0 -> m2 = mx).
Proof.
  intros Hmx Hex D HD n1.
  destruct (shr_fexp_spec mx ex Hmx) as (r1 & Hr1 & Hinv1).
  fold D in Hr1, Hinv1. fold n1 in Hr1, Hinv1.
  assert (0 <= n1) as Hn1 by lia.
  pose proof (round_inv mx n1 r1 Hn1 Hinv1) as (Hm2 & Herr & Hexact).
  set (m2 := round_nearest_even (shr_m r1) (loc_of_shr_record r1)) in *.
  destruct Hinv1 as (Hm1 & rem1 & Hrem1 & Hmx1 & _).
  assert (0 <= m2) as Hm2pos by lia.
  destruct (shr_fexp_spec m2 (ex + n1) Hm2pos) as (r3 & Hr3 & Hinv3).
  set (n2 := Z.max 0 (fexp (Zdigits2 m2 + (ex + n1)) - (ex + n1))) in *.
  assert (0 < 2 ^ n1) as Hpow1 by (apply Z.pow_pos_nonneg; lia).
  pose proof (Zdigits2_upper mx Hmx) as Hdig.
  pose proof (Zdigits2_nonneg mx) as Hdig0.
  (* the second shift is by one bit at most, and then of an even number *)
  assert (n2 = 0 \/ (n2 = 1 /\ exists k, m2 = 2 * k)) as Hn2.
  { destruct (decide (n1 = 0)) as [Hz|Hnz].
    - left. subst n2. rewrite (Hexact Hz), Hz, Z.add_0_r. fold D. lia.
    - assert (ex + n1 = fexp D) as He1 by lia.
      destruct (decide (Zdigits2 mx <= n1)) as [Hsmall|Hlarge].
      + assert (shr_m r1 = 0) as Hz1.
        { assert (2 ^ Zdigits2 mx <= 2 ^ n1)
            by (apply Z.pow_le_mono_r; lia). nia. }
        assert (Zdigits2 m2 <= 1).
        { apply Zdigits2_le_of_lt; [lia|lia|]. change (2 ^ 1) with 2. lia. }
        left. subst n2. rewrite He1.
        assert (fexp D = emin) as Hemin
          by (unfold SpecFloat.fexp, SpecFloat.emin in *; lia).
        rewrite Hemin, fexp_emin by lia. lia.
      + assert (shr_m r1 < 2 ^ (Zdigits2 mx - n1)) as Hlt1.
        { assert (2 ^ Zdigits2 mx = 2 ^ (Zdigits2 mx - n1) * 2 ^ n1) as Hsplit.
          { rewrite <- Z.pow_add_r by lia. f_equal. lia. }
          nia. }
        destruct (decide (m2 < 2 ^ (Zdigits2 mx - n1))) as [Hlt2|Hge2].
        * left. subst n2.
          assert (Zdigits2 m2 <= Zdigits2 mx - n1)
            by (apply Zdigits2_le_of_lt; lia).
          assert (fexp (Zdigits2 m2 + (ex + n1)) <= fexp D)
            by (apply fexp_mono; lia).
          lia.
        * assert (m2 = 2 ^ (Zdigits2 mx - n1)) as Hpow by lia.
          assert (Zdigits2 m2 = Zdigits2 mx - n1 + 1) as Hd2
            by (rewrite Hpow; apply Zdigits2_pow2; lia).
          assert (n2 <= 1) as Hle.
          { subst n2. rewrite Hd2.
            replace (Zdigits2 mx - n1 + 1 + (ex + n1)) with (D + 1) by lia.
            pose proof (fexp_succ D). lia. }
          destruct (decide (n2 = 0)) as [|Hne]; [by left|]. right.
          split; [lia|]. exists (2 ^ (Zdigits2 mx - n1 - 1)).
          rewrite Hpow.
          replace (Zdigits2 mx - n1) with (1 + (Zdigits2 mx - n1 - 1))
            at 1 by lia.
          rewrite Z.pow_add_r by lia. done. }
  destruct Hinv3 as (Hm3 & rem3 & Hrem3 & Hm23 & _).
  assert (rem3 = 0) as ->.
  { destruct Hn2 as [Hz|[Ho [k Hk]]]; rewrite ?Hz, ?Ho in *.
    - change (2 ^ 0) with 1 in Hrem3. lia.
    - change (2 ^ 1) with 2 in *. lia. }
  exists m2, (shr_m r3), n2. unfold binary_round_aux.
  rewrite Hr1. fold m2. rewrite Hr3.
  assert (0 <= n2) as Hn2pos by lia.
  split.
  { unfold SF_make. destruct (shr_m r3) as [|p3|p3] eqn:Hp3; [done| |lia].
    assert (ex + n1 + n2 <= emax - prec) as Hfin.
    { destruct Hn2 as [Hz|[Ho _]].
      + rewrite Hz. unfold SpecFloat.fexp, SpecFloat.emin in *. lia.
      + assert (ex + n1 + n2 = fexp (Zdigits2 m2 + (ex + n1))) as -> by lia.
        assert (Zdigits2 m2 <= Zdigits2 mx - n1 + 1).
        { apply Zdigits2_le_of_lt; [lia| |].
          - destruct (decide (n1 <= Zdigits2 mx)); [lia|].
            exfalso.
            assert (shr_m r1 = 0).
            { assert (2 ^ Zdigits2 mx <= 2 ^ n1)
                by (apply Z.pow_le_mono_r; lia). nia. }
            assert (Zdigits2 m2 <= 1).
            { apply Zdigits2_le_of_lt; [lia|lia|].
              change (2 ^ 1) with 2. lia. }
            assert (fexp D = emin)
              by (unfold SpecFloat.fexp, SpecFloat.emin in *; lia).
            subst n2. rewrite fexp_emin in Ho
              by (unfold SpecFloat.fexp, SpecFloat.emin in *; lia).
            unfold SpecFloat.fexp, SpecFloat.emin in *. lia.
          - destruct (decide (n1 <= Zdigits2 mx)) as [Hle|Hgt].
            + assert (2 ^ Zdigits2 mx = 2 ^ (Zdigits2 mx - n1) * 2 ^ n1)
                as Hsplit.
              { rewrite <- Z.pow_add_r by lia. f_equal. lia. }
              rewrite Z.pow_add_r by lia. change (2 ^ 1) with 2. nia.
            + exfalso.
              assert (shr_m r1 = 0).
              { assert (2 ^ Zdigits2 mx <= 2 ^ n1)
                  by (apply Z.pow_le_mono_r; lia). nia. }
              assert (Zdigits2 m2 <= 1).
              { apply Zdigits2_le_of_lt; [lia|lia|].
                change (2 ^ 1) with 2. lia. }
              assert (fexp D = emin)
                by (unfold SpecFloat.fexp, SpecFloat.emin in *; lia).
              subst n2. rewrite fexp_emin in Ho
                by (unfold SpecFloat.fexp, SpecFloat.emin in *; lia).
              unfold SpecFloat.fexp, SpecFloat.emin in *. lia. }
        unfold SpecFloat.fexp, SpecFloat.emin in *. lia. }
    by rewrite (proj2 (Z.leb_le _ _) Hfin). }
  split; [done|]. split; [done|]. split; [lia|]. done.
Qed.

End RoundAux.

(** * Rounding: the value that is rounded to *)

Lemma Rabs_le_inv x a : (Rabs x <= a)%R -> (- a <= x <= a)%R.
Proof. unfold Rabs. destruct (Rcase_abs x); lra. Qed.

Section RoundR.
Variables prec emax : Z.
Hypothesis Hprec : 0 < prec.
Hypothesis Hemax : prec < emax.

Local Abbreviation fexp := (SpecFloat.fexp prec emax).
Local Abbreviation emin := (SpecFloat.emin prec emax).

Lemma IZR_cond_Zopp s z : IZR (cond_Zopp s z) = (sgn s * IZR z)%R.
Proof. destruct s; simpl; rewrite ?opp_IZR; lra. Qed.

Lemma SF2R_make s m e :
  0 <= m -> SF2R (SF_make s m e) = (sgn s * (IZR m * bpow e))%R.
Proof.
  intros Hm. destruct m as [|p|p]; simpl; [lra| |lia].
  rewrite IZR_cond_Zopp. lra.
Qed.

Lemma SF_finite_make s m e : SF_finite (SF_make s m e).
Proof. by destruct m. Qed.

Lemma bpow_digits_lower m e :
  0 < m -> (bpow (Zdigits2 m + e - 1) <= IZR m * bpow e)%R.
Proof.
  intros Hm. replace (Zdigits2 m + e - 1) with ((Zdigits2 m - 1) + e) by lia.
  pose proof (Zdigits2_pos m Hm).
  rewrite bpow_add, (bpow_IZR (Zdigits2 m - 1)) by lia.
  pose proof (IZR_le _ _ (Zdigits2_lower m Hm)). pose proof (bpow_pos e). nra.
Qed.

Lemma bpow_digits_upper m e :
  0 <= m -> (IZR m * bpow e < bpow (Zdigits2 m + e))%R.
Proof.
  intros Hm. pose proof (Zdigits2_nonneg m).
  rewrite bpow_add, (bpow_IZR (Zdigits2 m)) by lia.
  pose proof (IZR_lt _ _ (Zdigits2_upper m Hm)). pose proof (bpow_pos e). nra.
Qed.

Lemma rounds_to_0 : rounds_to prec emax 0 0.
Proof.
  exists emin, 0. split; [done|]. split; [lra|].
  split; [|by left]. rewrite Rminus_diag, Rabs_R0.
  pose proof (bpow_pos emin). lra.
Qed.

Lemma binary_round_aux_R s mx ex :
  0 <= mx -> ex <= emax - prec ->
  (IZR mx * bpow ex < bpow (emax - 1))%R ->
  exists v,
    SF_finite (binary_round_aux prec emax s mx ex loc_Exact) /\
    SF2R (binary_round_aux prec emax s mx ex loc_Exact) = (sgn s * v)%R /\
    (0 <= v)%R /\ rounds_to prec emax (IZR mx * bpow ex) v.
Proof.
  intros Hmx Hex Hx.
  assert (Zdigits2 mx + ex < emax) as HD.
  { destruct (decide (mx = 0)) as [->|Hne]; [simpl; lia|].
    pose proof (bpow_digits_lower mx ex ltac:(lia)) as Hlo.
    assert (bpow (Zdigits2 mx + ex - 1) < bpow (emax - 1))%R as H by lra.
    apply bpow_lt_inv in H. lia. }
  destruct (binary_round_aux_Z prec emax Hprec Hemax s mx ex Hmx Hex HD)
    as (m2 & m3 & n2 & -> & Hm3 & Hn2 & Hm2 & Herr & Hexact).
  set (D := Zdigits2 mx + ex) in *.
  set (n1 := Z.max 0 (fexp D - ex)) in *.
  assert (0 <= n1) as Hn1 by lia.
  assert (0 < 2 ^ n1) as Hpow1 by (apply Z.pow_pos_nonneg; lia).
  assert (0 < 2 ^ n2) as Hpow2 by (apply Z.pow_pos_nonneg; lia).
  exists (IZR m3 * bpow (ex + n1 + n2))%R.
  split; [apply SF_finite_make|]. split; [by apply SF2R_make|].
  pose proof (bpow_pos (ex + n1 + n2)) as Hb3. pose proof (bpow_pos ex) as Hbx.
  split; [apply Rmult_le_pos; [by apply IZR_le|lra]|].
  assert (IZR m3 * bpow (ex + n1 + n2) = IZR m2 * bpow (ex + n1))%R as Hv.
  { rewrite (bpow_add (ex + n1) n2), (bpow_IZR n2), Hm2, mult_IZR by lia.
    lra. }
  rewrite Hv.
  destruct (decide (mx = 0)) as [Hz|Hnz].
  { assert (m2 = 0) as ->.
    { destruct (decide (n1 = 0)) as [H0|H0]; [rewrite (Hexact H0); done|].
      subst mx. assert (0 <= m2) by nia. nia. }
    subst mx. rewrite !Rmult_0_l. apply rounds_to_0. }
  exists (fexp D). destruct (decide (n1 = 0)) as [H0|H0].
  - rewrite (Hexact H0), H0, Z.add_0_r.
    assert (fexp D <= ex) as Hle by lia.
    exists (mx * 2 ^ (ex - fexp D)). split; [apply fexp_ge_emin; lia|].
    split.
    { rewrite mult_IZR, <- bpow_IZR by lia. rewrite Rmult_assoc.
      rewrite <- bpow_add. f_equal. f_equal. lia. }
    split.
    { rewrite Rminus_diag, Rabs_R0. pose proof (bpow_pos (fexp D)). lra. }
    destruct (decide (fexp D = emin)) as [|Hne]; [by left|right].
    assert (fexp D = D - prec) as ->
      by (unfold SpecFloat.fexp, SpecFloat.emin in *; lia).
    replace (D - prec + prec - 1) with (D - 1) by lia.
    pose proof (bpow_digits_lower mx ex ltac:(lia)) as Hlo. fold D in Hlo.
    rewrite Rabs_pos_eq; [done|]. apply Rmult_le_pos; [apply IZR_le; lia|lra].
  - assert (ex + n1 = fexp D) as He by lia. rewrite He.
    exists m2. split; [apply fexp_ge_emin; lia|]. split; [done|].
    split.
    { rewrite <- He, bpow_add, (bpow_IZR n1) by lia.
      replace (IZR m2 * (bpow ex * IZR (2 ^ n1)) - IZR mx * bpow ex)%R
        with (IZR (m2 * 2 ^ n1 - mx) * bpow ex)%R
        by (rewrite minus_IZR, mult_IZR; lra).
      rewrite Rabs_mult, (Rabs_pos_eq (bpow ex)) by lra.
      rewrite <- abs_IZR.
      apply IZR_le in Herr. rewrite mult_IZR in Herr. nra. }
    destruct (decide (fexp D = emin)) as [|Hne]; [by left|right].
    assert (fexp D = D - prec) as ->
      by (unfold SpecFloat.fexp, SpecFloat.emin in *; lia).
    replace (D - prec + prec - 1) with (D - 1) by lia.
    pose proof (bpow_digits_lower mx ex ltac:(lia)) as Hlo. fold D in Hlo.
    rewrite Rabs_pos_eq; [done|]. apply Rmult_le_pos; [apply IZR_le; lia|lra].
Qed.

(** *** What rounding keeps *)

(** The error of rounding, relative and absolute. *)
Lemma rounds_to_error x r :
  rounds_to prec emax x r ->
  (Rabs (r - x) <= Rabs x * bpow (- prec) + bpow (emin - 1))%R.
Proof.
  intros (e & k & He & -> & Herr & Hmag).
  pose proof (bpow_pos (emin - 1)). pose proof (Rabs_pos x).
  pose proof (bpow_pos (- prec)).
  destruct Hmag as [->|Hmag].
  - rewrite bpow_half. nra.
  - replace e with ((e + prec - 1) + (- prec) + 1) in Herr at 2 by lia.
    rewrite !bpow_add in Herr. change (bpow 1) with 2%R in Herr.
    pose proof (bpow_pos (e + prec - 1)). nra.
Qed.

(** A number of the format is kept. *)
Lemma rounds_to_exact x r j e' :
  rounds_to prec emax x r ->
  x = (IZR j * bpow e')%R -> emin <= e' -> (Rabs x < bpow (e' + prec))%R ->
  r = x.
Proof.
  intros (e & k & He & -> & Herr & Hmag) -> He' Hlt.
  assert (e <= e') as Hee.
  { destruct Hmag as [->|Hmag]; [done|].
    assert (bpow (e + prec - 1) < bpow (e' + prec))%R as H by lra.
    apply bpow_lt_inv in H. lia. }
  clear Hlt Hmag.
  assert (exists d, 0 <= d /\ e' = e + d) as (d & Hd & ->)
    by (exists (e' - e); lia).
  rewrite bpow_add, (bpow_IZR d) in * by lia.
  rewrite <- (Rmult_comm (IZR (2 ^ d))), <- Rmult_assoc, <- mult_IZR in *.
  set (j' := j * 2 ^ d) in *.
  replace (IZR k * bpow e - IZR j' * bpow e)%R
    with (IZR (k - j') * bpow e)%R in Herr by (rewrite minus_IZR; lra).
  pose proof (bpow_pos e) as Hb.
  rewrite Rabs_mult, (Rabs_pos_eq (bpow e)), <- abs_IZR in Herr by lra.
  assert (IZR (Z.abs (k - j')) < 1)%R as H by nra.
  apply lt_IZR in H. assert (k = j') as -> by lia. done.
Qed.

(** Rounding does not cross an integer, below [2^(prec-1)]. *)
Lemma rounds_to_le_Z x r g :
  rounds_to prec emax x r -> (Rabs x <= bpow (prec - 1))%R ->
  (x <= IZR g)%R -> (r <= IZR g)%R.
Proof.
  intros (e & k & He & -> & Herr & Hmag) Hx Hg.
  assert (e <= 0) as He0.
  { destruct Hmag as [->|Hmag];
      [unfold SpecFloat.emin; lia|].
    assert (bpow (e + prec - 1) <= bpow (prec - 1))%R as H by lra.
    apply bpow_le_inv in H. lia. }
  pose proof (bpow_pos e) as Hb.
  assert (IZR g = IZR (g * 2 ^ (- e)) * bpow e)%R as Hgrid.
  { rewrite mult_IZR, <- bpow_IZR, Rmult_assoc, <- bpow_add by lia.
    replace (- e + e) with 0 by lia. rewrite bpow_0. lra. }
  destruct (Rle_dec (IZR k * bpow e) (IZR g)) as [|Hn]; [done|].
  exfalso. rewrite Hgrid in Hn, Hg.
  assert (IZR (g * 2 ^ (- e)) < IZR k)%R as Hlt by nra.
  apply lt_IZR in Hlt.
  assert (IZR (g * 2 ^ (- e)) + 1 <= IZR k)%R as Hle.
  { rewrite <- plus_IZR. apply IZR_le. lia. }
  apply Rabs_le_inv in Herr. nra.
Qed.

Lemma rounds_to_opp x r :
  rounds_to prec emax x r -> rounds_to prec emax (- x) (- r).
Proof.
  intros (e & k & He & -> & Herr & Hmag). exists e, (- k).
  split; [done|]. split; [rewrite opp_IZR; lra|].
  split; [|by rewrite Rabs_Ropp].
  replace (- (IZR k * bpow e) - - x)%R with (- (IZR k * bpow e - x))%R by lra.
  by rewrite Rabs_Ropp.
Qed.

Lemma rounds_to_ge_Z x r g :
  rounds_to prec emax x r -> (Rabs x <= bpow (prec - 1))%R ->
  (IZR g <= x)%R -> (IZR g <= r)%R.
Proof.
  intros Hr Hx Hg. apply rounds_to_opp in Hr.
  pose proof (rounds_to_le_Z (- x) (- r) (- g) Hr) as H.
  rewrite Rabs_Ropp, opp_IZR in H. specialize (H Hx). lra.
Qed.

End RoundR.

(** * Binary64: the operations *)

Section Binary64Ops.

Local Abbreviation prec := 53 (only parsing).
Local Abbreviation emax := 1024 (only parsing).

Lemma iter_xO m d : Z.pos (Pos.iter xO m d) = Z.pos m * 2 ^ Z.pos d.
Proof.
  apply (Pos.iter_ind _ xO m (fun p a => Z.pos a = Z.pos m * 2 ^ Z.pos p)).
  - change (2 ^ 1) with 2. lia.
  - intros p a IH. rewrite Pos2Z.inj_succ, Z.pow_succ_r by lia.
    change (Z.pos a~0) with (2 * Z.pos a). lia.
Qed.

Lemma shl_align_spec m e e' :
  exists m', shl_align m e e' = (m', Z.min e e') /\
    Z.pos m' = Z.pos m * 2 ^ (e - Z.min e e').
Proof.
  unfold shl_align. destruct (e' - e) as [|d|d] eqn:Hd.
  - exists m. rewrite Z.min_l by lia. split; [done|].
    rewrite Z.sub_diag. change (2 ^ 0) with 1. lia.
  - exists m. rewrite Z.min_l by lia. split; [done|].
    rewrite Z.sub_diag. change (2 ^ 0) with 1. lia.
  - exists (Pos.iter xO m d). rewrite Z.min_r by lia. split; [done|].
    rewrite iter_xO. f_equal. f_equal. lia.
Qed.

Lemma shl_align_value m e e' m' e'' :
  shl_align m e e' = (m', e'') ->
  e'' = Z.min e e' /\ (IZR (Z.pos m') * bpow e'' = IZR (Z.pos m) * bpow e)%R.
Proof.
  destruct (shl_align_spec m e e') as (m1 & -> & Hm1). intros [= <- <-].
  split; [done|]. rewrite Hm1, mult_IZR, <- bpow_IZR by lia.
  rewrite Rmult_assoc, <- bpow_add. f_equal. f_equal. lia.
Qed.

Lemma value_lt_digits m e :
  0 < m -> (IZR m * bpow e < bpow 1023)%R -> Zdigits2 m + e < 1024.
Proof.
  intros Hm Hx. pose proof (bpow_digits_lower m e Hm) as Hlo.
  assert (bpow (Zdigits2 m + e - 1) < bpow 1023)%R as H by lra.
  apply bpow_lt_inv in H. lia.
Qed.

Lemma binary_round_R s m e :
  (IZR (Z.pos m) * bpow e < bpow 1023)%R ->
  exists v,
    SF_finite (binary_round prec emax s m e) /\
    SF2R (binary_round prec emax s m e) = (sgn s * v)%R /\
    (0 <= v)%R /\ rnd (IZR (Z.pos m) * bpow e) v.
Proof.
  intros Hx. unfold binary_round.
  destruct (shl_align m e _) as [mz ez] eqn:Hsh.
  apply shl_align_value in Hsh as [Hez Hval].
  pose proof (value_lt_digits (Z.pos m) e ltac:(lia) Hx) as HD.
  change (Z.pos (digits2_pos m)) with (Zdigits2 (Z.pos m)) in Hez.
  rewrite <- Hval in *.
  apply (binary_round_aux_R prec emax); try lia; [|done].
  unfold SpecFloat.fexp, SpecFloat.emin in Hez. lia.
Qed.

Lemma rnd_sgn s x v : rnd x v -> rnd (sgn s * x) (sgn s * v).
Proof.
  intros H. destruct s; simpl.
  - replace (-1 * x)%R with (- x)%R by lra.
    replace (-1 * v)%R with (- v)%R by lra. by apply rounds_to_opp.
  - by rewrite !Rmult_1_l.
Qed.

Lemma binary_normalize_R M e :
  (Rabs (IZR M * bpow e) < bpow 1023)%R ->
  SF_finite (binary_normalize prec emax M e false) /\
  rnd (IZR M * bpow e) (SF2R (binary_normalize prec emax M e false)).
Proof.
  intros Hx. pose proof (bpow_pos e) as Hb.
  destruct M as [|m|m]; simpl binary_normalize.
  - split; [done|]. simpl. rewrite Rmult_0_l. apply rounds_to_0.
  - rewrite Rabs_pos_eq in Hx
      by (apply Rmult_le_pos; [apply IZR_le; lia|lra]).
    destruct (binary_round_R false m e Hx) as (v & Hf & -> & Hv & Hr).
    split; [done|]. simpl sgn. by rewrite Rmult_1_l.
  - change (Z.neg m) with (- Z.pos m) in *. rewrite opp_IZR in *.
    replace (- IZR (Z.pos m) * bpow e)%R
      with (- (IZR (Z.pos m) * bpow e))%R in * by lra.
    rewrite Rabs_Ropp, Rabs_pos_eq in Hx
      by (apply Rmult_le_pos; [apply IZR_le; lia|lra]).
    destruct (binary_round_R true m e Hx) as (v & Hf & -> & Hv & Hr).
    split; [done|]. simpl sgn.
    replace (-1 * v)%R with (- v)%R by lra. by apply rounds_to_opp.
Qed.

(** *** The data of the format *)

Lemma valid_finite x s m e :
  Prim2SF x = S754_finite s m e ->
  SpecFloat.fexp prec emax (Zdigits2 (Z.pos m) + e) = e /\ e <= 971.
Proof.
  intros Hx. pose proof (Prim2SF_valid x) as Hv. rewrite Hx in Hv.
  simpl in Hv. unfold bounded, canonical_mantissa in Hv.
  apply andb_true_iff in Hv as [H1 H2].
  apply Z.eqb_eq in H1. apply Z.leb_le in H2. done.
Qed.

Lemma rnd_canonical s m e :
  SpecFloat.fexp prec emax (Zdigits2 (Z.pos m) + e) = e ->
  rnd (sgn s * (IZR (Z.pos m) * bpow e)) (sgn s * (IZR (Z.pos m) * bpow e)).
Proof.
  intros Hc. apply rnd_sgn. exists e, (Z.pos m).
  split; [unfold SpecFloat.fexp, SpecFloat.emin in *; lia|].
  split; [done|]. rewrite Rminus_diag, Rabs_R0.
  pose proof (bpow_pos e) as Hb. split; [lra|].
  destruct (decide (e = SpecFloat.emin prec emax)) as [|Hne]; [by left|right].
  assert (e = Zdigits2 (Z.pos m) + e - 53) as He
    by (unfold SpecFloat.fexp, SpecFloat.emin in *; lia).
  pose proof (bpow_digits_lower (Z.pos m) e ltac:(lia)) as Hlo.
  replace (e + 53 - 1) with (Zdigits2 (Z.pos m) + e - 1) by lia.
  rewrite Rabs_pos_eq; [done|]. apply Rmult_le_pos; [apply IZR_le; lia|lra].
Qed.

Lemma SF2R_finite s m e :
  SF2R (S754_finite s m e) = (sgn s * (IZR (Z.pos m) * bpow e))%R.
Proof. simpl. rewrite IZR_cond_Zopp. lra. Qed.

Lemma rnd_refl x : rnd (value x) (value x).
Proof.
  unfold value. destruct (Prim2SF x) as [s|s| |s m e] eqn:Hx;
    try apply rounds_to_0.
  rewrite SF2R_finite. apply rnd_canonical.
  by destruct (valid_finite x s m e Hx).
Qed.

Lemma rnd_refl_opp x : rnd (- value x) (- value x).
Proof. apply rounds_to_opp, rnd_refl. Qed.

(** *** The operations *)

Lemma sgn_xorb a b : sgn (xorb a b) = (sgn a * sgn b)%R.
Proof. destruct a, b; simpl; lra. Qed.

Lemma Rabs_sgn s x : Rabs (sgn s * x) = Rabs x.
Proof.
  destruct s; simpl.
  - replace (-1 * x)%R with (- x)%R by lra. apply Rabs_Ropp.
  - by rewrite Rmult_1_l.
Qed.

Lemma mul_R x y :
  finite x -> finite y -> (Rabs (value x * value y) < bpow 1023)%R ->
  finite (x * y)%float /\ rnd (value x * value y) (value (x * y)%float).
Proof.
  unfold finite, value. rewrite mul_spec. unfold SF64mul.
  change FloatOps.prec with 53. change FloatOps.emax with 1024.
  destruct (Prim2SF x) as [sx|sx| |sx mx ex] eqn:Hx; try done;
    destruct (Prim2SF y) as [sy|sy| |sy my ey] eqn:Hy; try done;
    intros _ _ Hb;
    try (change (SFmul 53 1024 _ _) with (S754_zero (xorb sx sy));
         split; [done|]; simpl SF2R; rewrite ?Rmult_0_l, ?Rmult_0_r;
         apply rounds_to_0).
  change (SFmul 53 1024 _ _)
    with (binary_round_aux 53 1024 (xorb sx sy) (Z.pos (mx * my))
            (ex + ey) loc_Exact).
  rewrite !SF2R_finite in *.
  destruct (valid_finite x _ _ _ Hx) as [Hcx Hex].
  destruct (valid_finite y _ _ _ Hy) as [Hcy Hey].
  pose proof (bpow_pos ex) as Hbx. pose proof (bpow_pos ey) as Hby.
  assert (sgn sx * (IZR (Z.pos mx) * bpow ex)
          * (sgn sy * (IZR (Z.pos my) * bpow ey))
          = sgn (xorb sx sy)
            * (IZR (Z.pos (mx * my)) * bpow (ex + ey)))%R as Hprod.
  { rewrite sgn_xorb, Pos2Z.inj_mul, mult_IZR, bpow_add. lra. }
  rewrite Hprod in *. rewrite Rabs_sgn in Hb.
  assert (0 <= IZR (Z.pos (mx * my)) * bpow (ex + ey))%R as Hpos.
  { apply Rmult_le_pos; [apply IZR_le; lia|]. pose proof (bpow_pos (ex + ey)).
    lra. }
  rewrite Rabs_pos_eq in Hb by done.
  assert (ex + ey <= 971) as Hexy.
  { destruct (decide (ex <= 0)) as [|Hpx]; [lia|].
    destruct (decide (ey <= 0)) as [|Hpy]; [lia|].
    pose proof (bpow_digits_lower (Z.pos mx) ex ltac:(lia)) as Hlx.
    pose proof (bpow_digits_lower (Z.pos my) ey ltac:(lia)) as Hly.
    assert (Zdigits2 (Z.pos mx) + ex - 1 = 52 + ex) as Hdx
      by (unfold SpecFloat.fexp, SpecFloat.emin in *; lia).
    assert (Zdigits2 (Z.pos my) + ey - 1 = 52 + ey) as Hdy
      by (unfold SpecFloat.fexp, SpecFloat.emin in *; lia).
    rewrite Hdx in Hlx. rewrite Hdy in Hly.
    assert (bpow (52 + ex + (52 + ey)) < bpow 1023)%R as H.
    { rewrite bpow_add. rewrite Pos2Z.inj_mul, mult_IZR, bpow_add in Hb.
      pose proof (bpow_pos (52 + ex)). pose proof (bpow_pos (52 + ey)). nra. }
    apply bpow_lt_inv in H. lia. }
  destruct (binary_round_aux_R prec emax ltac:(lia) ltac:(lia)
              (xorb sx sy) (Z.pos (mx * my)) (ex + ey) ltac:(lia)
              ltac:(lia) Hb) as (v & Hf & Hv & Hv0 & Hr).
  split; [done|]. rewrite Hv. by apply rnd_sgn.
Qed.

Lemma aligned_value s m e ez :
  ez <= e ->
  (IZR (cond_Zopp s (Z.pos (fst (shl_align m e ez)))) * bpow ez
   = sgn s * (IZR (Z.pos m) * bpow e))%R.
Proof.
  intros Hle. destruct (shl_align m e ez) as [m' e'] eqn:Hsh.
  apply shl_align_value in Hsh as [He' Hval]. simpl fst.
  rewrite Z.min_r in He' by lia. subst e'.
  rewrite IZR_cond_Zopp. rewrite <- Hval. lra.
Qed.

Lemma add_R x y :
  finite x -> finite y -> (Rabs (value x + value y) < bpow 1023)%R ->
  finite (x + y)%float /\ rnd (value x + value y) (value (x + y)%float).
Proof.
  intros Hfx Hfy. pose proof (rnd_refl x) as Hrx.
  pose proof (rnd_refl y) as Hry. revert Hfx Hfy Hrx Hry.
  unfold finite, value. rewrite add_spec. unfold SF64add.
  change FloatOps.prec with 53. change FloatOps.emax with 1024.
  destruct (Prim2SF x) as [sx|sx| |sx mx ex] eqn:Hx; try done;
    destruct (Prim2SF y) as [sy|sy| |sy my ey] eqn:Hy; try done;
    intros _ _ Hrx Hry Hb.
  - split; [by destruct sx, sy|]. simpl SF2R at 1 2. rewrite Rplus_0_l.
    destruct sx, sy; simpl; apply rounds_to_0.
  - simpl SFadd. split; [done|]. simpl SF2R at 1. by rewrite Rplus_0_l.
  - simpl SFadd. split; [done|]. simpl SF2R at 2. by rewrite Rplus_0_r.
  - change (SFadd 53 1024 _ _)
      with (binary_normalize 53 1024
              (cond_Zopp sx (Z.pos (fst (shl_align mx ex (Z.min ex ey))))
               + cond_Zopp sy (Z.pos (fst (shl_align my ey (Z.min ex ey)))))
              (Z.min ex ey) false).
    rewrite !SF2R_finite in *.
    set (ez := Z.min ex ey).
    rewrite <- (aligned_value sx mx ex ez), <- (aligned_value sy my ey ez)
      in * by lia.
    rewrite <- Rmult_plus_distr_r, <- plus_IZR in *.
    by apply binary_normalize_R.
Qed.

Lemma sub_R x y :
  finite x -> finite y -> (Rabs (value x - value y) < bpow 1023)%R ->
  finite (x - y)%float /\ rnd (value x - value y) (value (x - y)%float).
Proof.
  intros Hfx Hfy. pose proof (rnd_refl x) as Hrx.
  pose proof (rnd_refl_opp y) as Hry. revert Hfx Hfy Hrx Hry.
  unfold finite, value. rewrite sub_spec. unfold SF64sub.
  change FloatOps.prec with 53. change FloatOps.emax with 1024.
  destruct (Prim2SF x) as [sx|sx| |sx mx ex] eqn:Hx; try done;
    destruct (Prim2SF y) as [sy|sy| |sy my ey] eqn:Hy; try done;
    intros _ _ Hrx Hry Hb.
  - split; [by destruct sx, sy|]. simpl SF2R at 1 2. rewrite Rminus_0_r.
    destruct sx, sy; simpl; apply rounds_to_0.
  - simpl SFsub. split; [done|]. simpl SF2R at 1. rewrite Rminus_0_l.
    rewrite !SF2R_finite in *.
    replace (sgn (negb sy)) with (- sgn sy)%R by (destruct sy; simpl; lra).
    replace (- sgn sy * (IZR (Z.pos my) * bpow ey))%R
      with (- (sgn sy * (IZR (Z.pos my) * bpow ey)))%R by lra.
    done.
  - simpl SFsub. split; [done|]. simpl SF2R at 2. by rewrite Rminus_0_r.
  - change (SFsub 53 1024 _ _)
      with (binary_normalize 53 1024
              (cond_Zopp sx (Z.pos (fst (shl_align mx ex (Z.min ex ey))))
               - cond_Zopp sy (Z.pos (fst (shl_align my ey (Z.min ex ey)))))
              (Z.min ex ey) false).
    rewrite !SF2R_finite in *.
    set (ez := Z.min ex ey).
    rewrite <- (aligned_value sx mx ex ez), <- (aligned_value sy my ey ez)
      in * by lia.
    rewrite <- Rmult_minus_distr_r, <- minus_IZR in *.
    by apply binary_normalize_R.
Qed.

Lemma rnd_le_Z x r g :
  rnd x r -> (Rabs x <= bpow 52)%R -> (x <= IZR g)%R -> (r <= IZR g)%R.
Proof. apply (rounds_to_le_Z 53 1024); lia. Qed.

Lemma rnd_ge_Z x r g :
  rnd x r -> (Rabs x <= bpow 52)%R -> (IZR g <= x)%R -> (IZR g <= r)%R.
Proof. apply (rounds_to_ge_Z 53 1024); lia. Qed.

Lemma rnd_exact x r j e :
  rnd x r -> x = (IZR j * bpow e)%R -> -1074 <= e ->
  (Rabs x < bpow (e + 53))%R -> r = x.
Proof. apply (rounds_to_exact 53 1024). Qed.

End Binary64Ops.

(** * Binary64: the conversions, and the fold *)

Section Binary64Conversions.
Import Binary64.

Lemma value_opp x : value (- x)%float = (- value x)%R.
Proof.
  unfold value. rewrite opp_spec.
  destruct (Prim2SF x) as [s|s| |s m e]; simpl; try lra.
  rewrite !IZR_cond_Zopp. destruct s; simpl; lra.
Qed.

Lemma finite_opp x : finite x -> finite (- x)%float.
Proof.
  unfold finite. rewrite opp_spec. by destruct (Prim2SF x).
Qed.

Lemma of_uint63_R z :
  0 <= z < 2 ^ 53 ->
  finite (of_uint63 (Uint63.of_Z z)) /\
  value (of_uint63 (Uint63.of_Z z)) = IZR z.
Proof.
  intros Hz. unfold finite, value. rewrite of_uint63_spec.
  change FloatOps.prec with 53. change FloatOps.emax with 1024.
  rewrite Uint63.of_Z_spec.
  rewrite Z.mod_small
    by (change Uint63Axioms.wB with (2 ^ 63);
        change (2 ^ 63) with 9223372036854775808;
        change (2 ^ 53) with 9007199254740992 in Hz; lia).
  assert (Rabs (IZR z * bpow 0) < bpow 53)%R as Hb.
  { rewrite bpow_0, Rmult_1_r, Rabs_pos_eq by (apply IZR_le; lia).
    rewrite bpow_IZR by lia. apply IZR_lt. lia. }
  destruct (binary_normalize_R z 0) as [Hf Hr].
  { pose proof (bpow_lt 53 1023 ltac:(lia)). lra. }
  split; [done|].
  rewrite (rnd_exact _ _ z 0 Hr); [rewrite bpow_0; lra|done|lia|done].
Qed.

Lemma of_Z_R z :
  - 2 ^ 53 < z < 2 ^ 53 -> finite (of_Z z) /\ value (of_Z z) = IZR z.
Proof.
  intros Hz. unfold of_Z. destruct (z <? 0) eqn:Hneg.
  - apply Z.ltb_lt in Hneg.
    destruct (of_uint63_R (- z) ltac:(lia)) as [Hf Hv].
    split; [by apply finite_opp|]. rewrite value_opp, Hv, opp_IZR. lra.
  - apply Z.ltb_ge in Hneg. apply of_uint63_R. lia.
Qed.

(** *** The conversion to [int] *)

Lemma Zfloor_quot m d : 0 < d -> Zfloor (IZR m / IZR d) = m / d.
Proof.
  intros Hd. apply Zfloor_eq.
  pose proof (Z.div_mod m d ltac:(lia)) as Hdm.
  pose proof (Z.mod_pos_bound m d Hd) as [Hr0 Hr1].
  apply IZR_le in Hr0. apply IZR_lt in Hr1. apply IZR_lt in Hd.
  assert (IZR m = IZR d * IZR (m / d) + IZR (m mod d))%R as Hm
    by (rewrite <- mult_IZR, <- plus_IZR; by f_equal).
  assert (IZR m / IZR d = IZR (m / d) + IZR (m mod d) / IZR d)%R as ->
    by (rewrite Hm; field; lra).
  assert (0 <= IZR (m mod d) / IZR d < 1)%R.
  { split.
    - apply Rmult_le_pos; [done|]. apply Rlt_le, Rinv_0_lt_compat. lra.
    - apply (Rmult_lt_reg_r (IZR d)); [lra|].
      replace (IZR (m mod d) / IZR d * IZR d)%R with (IZR (m mod d))
        by (field; lra). lra. }
  lra.
Qed.

Lemma Zfloor_mantissa m e :
  Zfloor (IZR (Z.pos m) * bpow e)
  = if 0 <=? e then Z.shiftl (Z.pos m) e else Z.shiftr (Z.pos m) (- e).
Proof.
  destruct (0 <=? e) eqn:He.
  - apply Z.leb_le in He. rewrite bpow_IZR, <- mult_IZR by done.
    rewrite ZfloorZ. by rewrite Z.shiftl_mul_pow2.
  - apply Z.leb_gt in He. unfold bpow.
    rewrite (proj2 (Z.leb_gt 0 e) He).
    rewrite Z.shiftr_div_pow2 by lia.
    apply (Zfloor_quot (Z.pos m) (2 ^ (- e))).
    apply Z.pow_pos_nonneg; lia.
Qed.

Lemma trunc_R x :
  finite x -> trunc (Prim2SF x) = Some (truncate (value x)).
Proof.
  unfold finite, value, truncate.
  destruct (Prim2SF x) as [s|s| |s m e]; try done; intros _; simpl trunc.
  - simpl SF2R. destruct (Rle_dec 0 0) as [_|Hn]; [|lra].
    change 0%R with (IZR 0). by rewrite ZfloorZ.
  - rewrite SF2R_finite. f_equal. rewrite <- Zfloor_mantissa.
    pose proof (bpow_pos e) as Hb.
    assert (0 < IZR (Z.pos m) * bpow e)%R as Hpos.
    { apply Rmult_lt_0_compat; [apply IZR_lt; lia|done]. }
    destruct s; simpl sgn; simpl cond_Zopp.
    + destruct (Rle_dec 0 (-1 * (IZR (Z.pos m) * bpow e))) as [Hn|_]; [lra|].
      replace (-1 * (IZR (Z.pos m) * bpow e))%R
        with (- (IZR (Z.pos m) * bpow e))%R by lra.
      by rewrite ZceilN.
    + rewrite Rmult_1_l. by destruct (Rle_dec 0 _) as [_|Hn]; [|lra].
Qed.

Lemma truncate_bounds x :
  (Rabs (IZR (truncate x)) <= Rabs x)%R /\
  (Rabs (x - IZR (truncate x)) < 1)%R.
Proof.
  unfold truncate. destruct (Rle_dec 0 x) as [Hpos|Hneg].
  - pose proof (Zfloor_bound x) as Hq.
    assert (0 <= Zfloor x) as Hq0 by (apply Zfloor_lub; simpl; lra).
    apply IZR_le in Hq0. split; [rewrite !Rabs_pos_eq by lra; lra|].
    apply Rabs_def1; lra.
  - pose proof (Zceil_bound x) as Hq.
    assert (Zceil x <= 0) as Hq0.
    { unfold Zceil. pose proof (Zfloor_lub 0 (- x) ltac:(simpl; lra)). lia. }
    apply IZR_le in Hq0. split; [rewrite !Rabs_left1 by lra; lra|].
    apply Rabs_def1; lra.
Qed.

Lemma to_int_small z : - 2 ^ 31 <= z < 2 ^ 31 -> to_int (Some z) = z.
Proof. intros Hz. unfold to_int. by rewrite decide_True. Qed.

Lemma double2int_R x :
  finite x -> (Rabs (value x) < 2147483648)%R ->
  double2int (AlNumeric := alnumeric) x = truncate (value x).
Proof.
  intros Hf Hx. simpl. rewrite trunc_R by done. apply to_int_small.
  destruct (truncate_bounds (value x)) as [Hle _].
  assert (Rabs (IZR (truncate (value x))) < 2147483648)%R as Hlt by lra.
  apply Rabs_def2 in Hlt as [H1 H2]. apply lt_IZR in H1.
  assert (IZR (-2147483648) < IZR (truncate (value x)))%R as H3 by lra.
  apply lt_IZR in H3. change (2 ^ 31) with 2147483648. lia.
Qed.

End Binary64Conversions.

(** *** The fold *)

Section Fold.
Local Open Scope R_scope.

(** [qpd + (qpd%2)] of a quotient that is not negative. *)
Lemma qpd_even_nonneg x :
  0 <= x ->
  IZR (qpd_even (Zfloor x)) = 2 * IZR (Zfloor (x / 2 + 1 / 2)) /\
  -1 <= x - IZR (qpd_even (Zfloor x)) < 1.
Proof.
  intros Hx. pose proof (Zfloor_bound x) as Hq.
  assert (0 <= Zfloor x)%Z as Hq0 by (apply Zfloor_lub; simpl; lra).
  unfold qpd_even. rewrite Z.rem_mod_nonneg by lia.
  destruct (Z.mod_pos_bound (Zfloor x) 2 ltac:(lia)) as [Hm0 Hm2].
  pose proof (Z.div_mod (Zfloor x) 2 ltac:(lia)) as Hdiv.
  set (q := Zfloor x) in *. set (m := (q / 2)%Z) in *.
  assert ((q mod 2 = 0 \/ q mod 2 = 1)%Z) as [Hr|Hr] by lia; rewrite Hr.
  - assert (q = 2 * m)%Z as Hqm by lia.
    rewrite Hqm in Hq. rewrite mult_IZR in Hq.
    rewrite (Zfloor_eq m) by lra.
    rewrite Hqm. rewrite Z.add_0_r, mult_IZR. lra.
  - assert (q = 2 * m + 1)%Z as Hqm by lia.
    rewrite Hqm in Hq. rewrite plus_IZR, mult_IZR in Hq.
    rewrite (Zfloor_eq (m + 1)) by (rewrite plus_IZR; lra).
    replace (q + 1)%Z with (2 * (m + 1))%Z by lia.
    rewrite mult_IZR, plus_IZR. lra.
Qed.

Lemma qpd_even_opp q : qpd_even (- q) = (- qpd_even q)%Z.
Proof. unfold qpd_even. rewrite Z.rem_opp_l by lia. lia. Qed.

(** The integer the code takes off, [qpd + (qpd%2)] of the integer part
    of [x], is [2 round(x/2)], and the difference lands in [[-1, 1]]. *)
Lemma qpd_even_truncate x :
  IZR (qpd_even (truncate x)) = 2 * IZR (round_away (x / 2)) /\
  -1 <= x - IZR (qpd_even (truncate x)) <= 1.
Proof.
  unfold truncate, round_away. destruct (Rle_dec 0 x) as [Hpos|Hneg].
  - destruct (Rle_dec 0 (x / 2)) as [_|Hn]; [|lra].
    destruct (qpd_even_nonneg x Hpos) as [-> Hrange]. lra.
  - assert (0 <= - x) as Hpos by lra.
    unfold Zceil. destruct (Rle_dec 0 (x / 2)) as [Hn|_]; [lra|].
    rewrite qpd_even_opp, !opp_IZR.
    destruct (qpd_even_nonneg (- x) Hpos) as [Heq Hrange].
    replace (- (x / 2 - 1 / 2)) with (- x / 2 + 1 / 2) by lra. lra.
Qed.

Lemma fold_unit_truncate x : fold_unit x = x - IZR (qpd_even (truncate x)).
Proof. unfold fold_unit. destruct (qpd_even_truncate x) as [-> _]. lra. Qed.

(** The fold of the contract lands in [[-1, 1]] for every real number. *)
Lemma fold_unit_range x : -1 <= fold_unit x <= 1.
Proof. rewrite fold_unit_truncate. apply qpd_even_truncate. Qed.

End Fold.

(** * Binary64: bounds, and the wrap of the analyzer *)

Section Binary64Bounds.
Local Open Scope R_scope.

Lemma rnd_bound_Z x r g :
  rnd x r -> Rabs x <= IZR g -> (g <= 2 ^ 52)%Z -> Rabs r <= IZR g.
Proof.
  intros Hr Hx Hg.
  assert (Rabs x <= bpow 52) as Hx52.
  { rewrite bpow_IZR by lia. apply IZR_le in Hg. lra. }
  apply Rabs_le_inv in Hx. apply Rabs_le. split.
  - rewrite <- opp_IZR. apply (rnd_ge_Z x r (- g)%Z Hr Hx52).
    rewrite opp_IZR. lra.
  - apply (rnd_le_Z x r g Hr Hx52). lra.
Qed.

Lemma rnd_between_Z x r lo hi :
  rnd x r -> IZR lo <= x <= IZR hi ->
  (- 2 ^ 52 <= lo)%Z -> (hi <= 2 ^ 52)%Z -> IZR lo <= r <= IZR hi.
Proof.
  intros Hr [Hlo Hhi] Hl Hh.
  assert (Rabs x <= bpow 52) as Hx52.
  { rewrite bpow_IZR by lia.
    apply IZR_le in Hl, Hh. rewrite opp_IZR in Hl. apply Rabs_le. lra. }
  split.
  - by apply (rnd_ge_Z x r lo Hr Hx52).
  - by apply (rnd_le_Z x r hi Hr Hx52).
Qed.

Lemma bpow_1023_large g : (g <= 2 ^ 52)%Z -> IZR g < bpow 1023.
Proof.
  intros Hg. apply IZR_le in Hg. rewrite <- bpow_IZR in Hg by lia.
  pose proof (bpow_lt 52 1023 ltac:(lia)). lra.
Qed.

(** The error of one rounding: the unit roundoff [2^-53] of the
    magnitude, and [2^-100] to cover the underflow. *)
Lemma rnd_error x r :
  rnd x r ->
  Rabs (r - x) <= Rabs x * / 9007199254740992
                  + / 1267650600228229401496703205376.
Proof.
  intros Hr. pose proof (rounds_to_error 53 1024 x r Hr) as H.
  assert (bpow (- (53)) = / 9007199254740992) as Hu by done.
  assert (bpow (SpecFloat.emin 53 1024 - 1) <= bpow (- (100))) as He
    by (apply bpow_le; unfold SpecFloat.emin; lia).
  assert (bpow (- (100)) = / 1267650600228229401496703205376) as He' by done.
  rewrite Hu in H. lra.
Qed.

Lemma mul_bound x y g :
  finite x -> finite y -> Rabs (value x * value y) <= IZR g ->
  (g <= 2 ^ 52)%Z ->
  finite (x * y)%float /\ rnd (value x * value y) (value (x * y)%float) /\
  Rabs (value (x * y)%float) <= IZR g.
Proof.
  intros Hx Hy Hb Hg. pose proof (bpow_1023_large g Hg).
  destruct (mul_R x y Hx Hy) as [Hf Hr]; [lra|].
  split; [done|]. split; [done|]. by apply (rnd_bound_Z _ _ _ Hr).
Qed.

Lemma add_bound x y g :
  finite x -> finite y -> Rabs (value x + value y) <= IZR g ->
  (g <= 2 ^ 52)%Z ->
  finite (x + y)%float /\ rnd (value x + value y) (value (x + y)%float) /\
  Rabs (value (x + y)%float) <= IZR g.
Proof.
  intros Hx Hy Hb Hg. pose proof (bpow_1023_large g Hg).
  destruct (add_R x y Hx Hy) as [Hf Hr]; [lra|].
  split; [done|]. split; [done|]. by apply (rnd_bound_Z _ _ _ Hr).
Qed.

Lemma sub_bound x y g :
  finite x -> finite y -> Rabs (value x - value y) <= IZR g ->
  (g <= 2 ^ 52)%Z ->
  finite (x - y)%float /\ rnd (value x - value y) (value (x - y)%float) /\
  Rabs (value (x - y)%float) <= IZR g.
Proof.
  intros Hx Hy Hb Hg. pose proof (bpow_1023_large g Hg).
  destruct (sub_R x y Hx Hy) as [Hf Hr]; [lra|].
  split; [done|]. split; [done|]. by apply (rnd_bound_Z _ _ _ Hr).
Qed.

(** A number of the format as a multiple of a power of two. *)
Lemma value_grid x :
  finite x ->
  exists j e, value x = IZR j * bpow e /\ (-1074 <= e)%Z /\
    Rabs (value x) < bpow (e + 53).
Proof.
  unfold finite, value. destruct (Prim2SF x) as [s|s| |s m e] eqn:Hx;
    try done; intros _.
  - exists 0%Z, 0%Z. simpl. rewrite Rabs_R0. split; [lra|]. split; [lia|].
    apply bpow_pos.
  - destruct (valid_finite x s m e Hx) as [Hc He].
    exists (cond_Zopp s (Z.pos m)), e. split; [done|].
    split; [unfold SpecFloat.fexp, SpecFloat.emin in Hc; lia|].
    rewrite SF2R_finite, Rabs_sgn.
    pose proof (bpow_pos e) as Hb.
    rewrite Rabs_pos_eq by (apply Rmult_le_pos; [apply IZR_le; lia|lra]).
    pose proof (bpow_digits_upper (Z.pos m) e ltac:(lia)) as Hup.
    assert (bpow (Zdigits2 (Z.pos m) + e) <= bpow (e + 53)) as Hle.
    { apply bpow_le. unfold SpecFloat.fexp, SpecFloat.emin in Hc. lia. }
    lra.
Qed.

End Binary64Bounds.

Section Binary64Model.
Import Binary64.
Local Open Scope R_scope.

Lemma value_pi :
  value (d_pi (Arith := arith)) = 7074237752028440 / 2251799813685248.
Proof.
  unfold value.
  assert (Prim2SF (d_pi (Arith := arith))
          = S754_finite false 7074237752028440 (-51)) as ->
    by (vm_compute; reflexivity).
  rewrite SF2R_finite. simpl sgn.
  change (bpow (-51)) with (/ 2251799813685248). lra.
Qed.

Lemma value_inv_pi :
  value (d_inv_pi (Arith := arith)) = 5734161139222659 / 18014398509481984.
Proof.
  unfold value.
  assert (Prim2SF (d_inv_pi (Arith := arith))
          = S754_finite false 5734161139222659 (-54)) as ->
    by (vm_compute; reflexivity).
  rewrite SF2R_finite. simpl sgn.
  change (bpow (-54)) with (/ 18014398509481984). lra.
Qed.

Lemma value_expected_cycles :
  value (expected_cycles (Ar := arith))
  = 7074237752028440 / 4503599627370496.
Proof.
  unfold value.
  assert (Prim2SF (expected_cycles (Ar := arith))
          = S754_finite false 7074237752028440 (-52)) as ->
    by (vm_compute; reflexivity).
  rewrite SF2R_finite. simpl sgn.
  change (bpow (-52)) with (/ 4503599627370496). lra.
Qed.

Lemma value_half_oversample :
  value (d_mul (d_half (Ar := arith)) (d_of_Z OversampleFactor)) = 2.
Proof.
  unfold value.
  assert (Prim2SF (d_mul (d_half (Ar := arith)) (d_of_Z OversampleFactor))
          = S754_finite false 4503599627370496 (-51)) as ->
    by (vm_compute; reflexivity).
  rewrite SF2R_finite. simpl sgn.
  change (bpow (-51)) with (/ 2251799813685248). lra.
Qed.

Lemma finite_pi : finite (d_pi (Arith := arith)).
Proof. by vm_compute. Qed.
Lemma finite_inv_pi : finite (d_inv_pi (Arith := arith)).
Proof. by vm_compute. Qed.
Lemma finite_expected_cycles : finite (expected_cycles (Ar := arith)).
Proof. by vm_compute. Qed.
Lemma finite_half_oversample :
  finite (d_mul (d_half (Ar := arith)) (d_of_Z OversampleFactor)).
Proof. by vm_compute. Qed.

(** *** The wrap of the analyzer *)

Lemma fold_le_abs x : Rabs (x - IZR (qpd_even (truncate x))) <= Rabs x.
Proof.
  destruct (decide (truncate x = 0%Z)) as [Hz|Hnz].
  - rewrite Hz. change (qpd_even 0) with 0%Z. rewrite Rminus_0_r. lra.
  - destruct (truncate_bounds x) as [Hle _].
    destruct (qpd_even_truncate x) as [_ Hrange].
    assert (1 <= Rabs (IZR (truncate x))).
    { rewrite <- abs_IZR. apply IZR_le. lia. }
    assert (Rabs (x - IZR (qpd_even (truncate x))) <= 1)
      by (apply Rabs_le; lra).
    lra.
Qed.

Lemma qpd_even_bound x : Rabs (IZR (qpd_even (truncate x))) <= Rabs x + 1.
Proof.
  destruct (qpd_even_truncate x) as [_ Hrange].
  unfold Rabs. repeat destruct (Rcase_abs _); lra.
Qed.

(** The wrap of the analyzer is exact in binary64: it is the fold of the
    contract, wherever the quotient fits an [int]. *)
Lemma wrap_unit_R x :
  finite x -> Rabs (value x) < 2147483648 ->
  finite (wrap_unit (Num := alnumeric) x) /\
  value (wrap_unit (Num := alnumeric) x) = fold_unit (value x).
Proof.
  intros Hf Hx. unfold wrap_unit. rewrite double2int_R by done.
  set (m := qpd_even (truncate (value x))).
  pose proof (qpd_even_bound (value x)) as Hm. fold m in Hm.
  assert (- 2 ^ 53 < m < 2 ^ 53)%Z as Hmz.
  { rewrite <- abs_IZR in Hm.
    assert (IZR (Z.abs m) < IZR 2147483650) as H%lt_IZR by lra.
    change (2 ^ 53)%Z with 9007199254740992%Z. lia. }
  destruct (of_Z_R m Hmz) as [Hfm Hvm].
  change (@d_sub arith) with PrimFloat.sub.
  change (@d_of_Z arith) with of_Z.
  pose proof (fold_le_abs (value x)) as Hle. fold m in Hle.
  destruct (qpd_even_truncate (value x)) as [_ Hrange]. fold m in Hrange.
  destruct (sub_R x (of_Z m) Hf Hfm) as [Hfr Hr].
  { rewrite Hvm. pose proof (bpow_1023_large 1 ltac:(lia)).
    assert (Rabs (value x - IZR m) <= 1) by (apply Rabs_le; lra). lra. }
  split; [done|]. rewrite fold_unit_truncate. fold m. rewrite Hvm in Hr.
  destruct (value_grid x Hf) as (j & e & Hj & He & Hlt).
  destruct (decide (0 <= e)%Z) as [Hpos|Hneg].
  - apply (rnd_exact _ _ (j * 2 ^ e - m) 0 Hr).
    + rewrite Hj, bpow_0, minus_IZR, mult_IZR, <- bpow_IZR by done. lra.
    + lia.
    + assert (Rabs (value x - IZR m) <= 1) by (apply Rabs_le; lra).
      pose proof (bpow_lt 0 (0 + 53) ltac:(lia)). rewrite bpow_0 in *. lra.
  - apply (rnd_exact _ _ (j - m * 2 ^ (- e)) e Hr).
    + rewrite Hj, minus_IZR, mult_IZR, <- bpow_IZR by lia.
      rewrite Rmult_minus_distr_r, Rmult_assoc, <- bpow_add.
      replace (- e + e)%Z with 0%Z by lia. rewrite bpow_0. lra.
    + lia.
    + lra.
Qed.

End Binary64Model.

(** * Binary64: the analyzer and the resynthesizer *)

Ltac unabs :=
  repeat match goal with
         | H : (Rabs _ <= _)%R |- _ => apply Rabs_le_inv in H
         end.

Section Binary64Analyzer.
Import Binary64.
Local Open Scope R_scope.

Lemma phase_deviation_R k phase lp :
  (0 <= k)%Z ->
  finite phase -> Rabs (value phase) <= 4 ->
  finite lp -> Rabs (value lp) <= 4 ->
  finite (phase_deviation k phase lp) /\
  Rabs (value (phase_deviation k phase lp)) <= 7 /\
  Rabs (value (phase_deviation k phase lp) * value (d_pi (Arith := arith))
        - (value phase - value lp
           - IZR (k mod OversampleFactor)
             * (2 * value (d_pi (Arith := arith)) / IZR OversampleFactor)))
  <= / 140737488355328.
Proof.
  intros Hk Hfp Hp Hfl Hl. unfold phase_deviation.
  change (@d_sub arith) with PrimFloat.sub.
  change (@d_mul arith) with PrimFloat.mul.
  change (@d_of_Z arith) with of_Z.
  change OversampleFactor with 4%Z.
  destruct (Z.mod_pos_bound k 4 ltac:(lia)) as [Hm0 Hm4].
  destruct (of_Z_R (k mod 4)) as [Hfo Hvo];
    [change (2 ^ 53)%Z with 9007199254740992%Z; lia|].
  assert (0 <= IZR (k mod 4) <= 3) as Hoff
    by (split; apply IZR_le; lia).
  assert (Rabs (value phase - value lp) <= 8) as Ha1
    by (unabs; apply Rabs_le; lra).
  destruct (sub_bound phase lp 8 Hfp Hfl Ha1 ltac:(lia))
    as (Hf1 & Hr1 & Hb1).
  assert (Rabs (value (of_Z (k mod 4))
                * value (expected_cycles (Ar := arith))) <= 6) as Ha2
    by (rewrite Hvo, value_expected_cycles; apply Rabs_le; lra).
  destruct (mul_bound (of_Z (k mod 4)) (expected_cycles (Ar := arith)) 6
              Hfo finite_expected_cycles Ha2 ltac:(lia))
    as (Hf2 & Hr2 & Hb2).
  set (t1 := (phase - lp)%float) in *.
  set (r2 := (of_Z (k mod 4) * expected_cycles (Ar := arith))%float) in *.
  assert (Rabs (value t1 - value r2) <= 14) as Ha3
    by (unabs; apply Rabs_le; lra).
  destruct (sub_bound t1 r2 14 Hf1 Hf2 Ha3 ltac:(lia)) as (Hf3 & Hr3 & Hb3).
  set (t2 := (t1 - r2)%float) in *.
  assert (Rabs (value t2 * value (d_inv_pi (Arith := arith))) <= 7) as Ha4
    by (rewrite value_inv_pi; unabs; apply Rabs_le; lra).
  destruct (mul_bound t2 (d_inv_pi (Arith := arith)) 7 Hf3 finite_inv_pi
              Ha4 ltac:(lia)) as (Hf4 & Hr4 & Hb4).
  split; [done|]. split; [done|].
  apply rnd_error in Hr1, Hr2, Hr3, Hr4.
  rewrite Hvo, value_expected_cycles in Hr2, Ha2.
  rewrite value_inv_pi in Hr4, Ha4. rewrite value_pi.
  assert (Rabs (value t1 - (value phase - value lp))
          <= 8 * / 9007199254740992
             + / 1267650600228229401496703205376) as He1 by lra.
  assert (Rabs (value r2
                - IZR (k mod 4) * (7074237752028440 / 4503599627370496))
          <= 6 * / 9007199254740992
             + / 1267650600228229401496703205376) as He2 by lra.
  assert (Rabs (value t2 - (value t1 - value r2))
          <= 14 * / 9007199254740992
             + / 1267650600228229401496703205376) as He3 by lra.
  assert (Rabs (value (t2 * d_inv_pi (Arith := arith))%float
                - value t2 * (5734161139222659 / 18014398509481984))
          <= 7 * / 9007199254740992
             + / 1267650600228229401496703205376) as He4 by lra.
  clear Hr1 Hr2 Hr3 Hr4 Ha1 Ha2 Ha3 Ha4 Hb1 Hb2 Hb4 Hp Hl.
  unabs. apply Rabs_le. lra.
Qed.

(** The frequency the analyzer stores, in binary64: [k] plus twice the
    fold of the deviation, rounded once, within two bins of [k]. *)
Lemma bin_frequency_R k (phase lp : @double arith) :
  (0 <= k <= 2 ^ 30)%Z ->
  finite phase -> Rabs (value phase) <= 4 ->
  finite lp -> Rabs (value lp) <= 4 ->
  finite (bin_frequency (Num := alnumeric) k phase lp) /\
  rnd (IZR k + 2 * fold_unit (value (phase_deviation k phase lp)))
    (value (bin_frequency (Num := alnumeric) k phase lp)) /\
  IZR k - 2 <= value (bin_frequency (Num := alnumeric) k phase lp)
  <= IZR k + 2.
Proof.
  intros Hk Hfp Hp Hfl Hl.
  destruct (phase_deviation_R k phase lp ltac:(lia) Hfp Hp Hfl Hl)
    as (Hfx & Hbx & _).
  change (bin_frequency (Num := alnumeric) k phase lp)
    with (@d_add arith (@d_of_Z arith k)
            (@d_mul arith
               (wrap_unit (Num := alnumeric)
                  (phase_deviation (Ar := arith) k phase lp))
               (@d_mul arith (d_half (Ar := arith))
                  (@d_of_Z arith OversampleFactor)))).
  set (x := phase_deviation k phase lp) in *.
  destruct (wrap_unit_R x Hfx ltac:(lra)) as [Hfw Hvw].
  pose proof (fold_unit_range (value x)) as Hfold. rewrite <- Hvw in Hfold.
  set (w := wrap_unit (Num := alnumeric) x) in *.
  set (two := d_mul (d_half (Ar := arith)) (d_of_Z OversampleFactor)).
  change (@d_add arith) with PrimFloat.add.
  change (@d_mul arith w two) with (w * two)%float.
  change (@d_of_Z arith) with of_Z.
  destruct (mul_R w two Hfw finite_half_oversample) as [Hf2 Hr2].
  { unfold two. rewrite value_half_oversample.
    pose proof (bpow_1023_large 2 ltac:(lia)).
    assert (Rabs (value w * 2) <= 2) by (apply Rabs_le; lra). lra. }
  unfold two in Hr2. rewrite value_half_oversample in Hr2. fold two in Hr2.
  assert (value (w * two)%float = value w * 2) as Hv2.
  { destruct (value_grid w Hfw) as (j & e & Hj & He & Hlt).
    apply (rnd_exact _ _ j (e + 1) Hr2).
    - rewrite Hj, bpow_add. change (bpow 1) with 2. lra.
    - lia.
    - replace (e + 1 + 53)%Z with ((e + 53) + 1)%Z by lia.
      rewrite bpow_add. change (bpow 1) with 2.
      rewrite Rabs_mult, (Rabs_pos_eq 2) by lra. lra. }
  destruct (of_Z_R k) as [Hfk Hvk];
    [change (2 ^ 53)%Z with 9007199254740992%Z;
     change (2 ^ 30)%Z with 1073741824%Z in Hk; lia|].
  assert (0 <= IZR k <= 1073741824) as Hkr
    by (split; apply IZR_le; change (2 ^ 30)%Z with 1073741824%Z in Hk; lia).
  destruct (add_R (of_Z k) (w * two)%float Hfk Hf2) as [Hf3 Hr3].
  { rewrite Hvk, Hv2. pose proof (bpow_1023_large 1073741826 ltac:(lia)).
    assert (Rabs (IZR k + value w * 2) <= 1073741826)
      by (apply Rabs_le; lra). lra. }
  rewrite Hvk, Hv2 in Hr3. split; [done|].
  replace (IZR k + 2 * fold_unit (value x)) with (IZR k + value w * 2)
    by (rewrite Hvw; lra).
  split; [done|].
  replace (IZR k - 2) with (IZR (k - 2)) by (rewrite minus_IZR; lra).
  replace (IZR k + 2) with (IZR (k + 2)) by (rewrite plus_IZR; lra).
  apply (rnd_between_Z _ _ _ _ Hr3).
  - rewrite minus_IZR, plus_IZR. lra.
  - change (2 ^ 52)%Z with 4503599627370496%Z. lia.
  - change (2 ^ 52)%Z with 4503599627370496%Z.
    change (2 ^ 30)%Z with 1073741824%Z in Hk. lia.
Qed.

(** *** The wrap of the resynthesizer *)

(** The accumulated phase after the wrap, in binary64: within [2^-19]
    of the interval of the code's pi. *)
Lemma advance_phase_R sp freq :
  finite sp -> Rabs (value sp) <= 4 ->
  finite freq -> Rabs (value freq) <= 2147484161 ->
  finite (advance_phase (Num := alnumeric) sp freq) /\
  Rabs (value (advance_phase (Num := alnumeric) sp freq))
  <= value (d_pi (Arith := arith)) + / 524288.
Proof.
  intros Hfs Hs Hff Hf. unfold advance_phase.
  change (@d_sub arith) with PrimFloat.sub.
  change (@d_mul arith) with PrimFloat.mul.
  change (@d_add arith) with PrimFloat.add.
  change (@d_of_Z arith) with of_Z.
  destruct (mul_bound freq (expected_cycles (Ar := arith)) 3373260233
              Hff finite_expected_cycles) as (Hf1 & _ & Hb1);
    [rewrite value_expected_cycles; unabs; apply Rabs_le; lra|lia|].
  destruct (add_bound sp _ 3373260237 Hfs Hf1) as (Hf2 & _ & Hb2);
    [unabs; apply Rabs_le; lra|lia|].
  set (tmp := (sp + freq * expected_cycles (Ar := arith))%float) in *.
  destruct (mul_bound tmp (d_inv_pi (Arith := arith)) 1073742083
              Hf2 finite_inv_pi) as (Hf3 & Hr3 & Hb3);
    [rewrite value_inv_pi; unabs; apply Rabs_le; lra|lia|].
  rewrite double2int_R by (done || lra).
  set (y := (tmp * d_inv_pi (Arith := arith))%float) in *.
  set (m := qpd_even (truncate (value y))).
  pose proof (qpd_even_bound (value y)) as Hm. fold m in Hm.
  destruct (qpd_even_truncate (value y)) as [_ Hfold]. fold m in Hfold.
  assert (- 2 ^ 53 < m < 2 ^ 53)%Z as Hmz.
  { rewrite <- abs_IZR in Hm.
    assert (IZR (Z.abs m) < IZR 1073742085) as H%lt_IZR by lra.
    change (2 ^ 53)%Z with 9007199254740992%Z. lia. }
  destruct (of_Z_R m Hmz) as [Hfm Hvm].
  destruct (mul_bound (d_pi (Arith := arith)) (of_Z m) 4294968336
              finite_pi Hfm) as (Hf4 & Hr4 & Hb4);
    [rewrite value_pi, Hvm; unabs; apply Rabs_le; lra|lia|].
  apply rnd_error in Hr3, Hr4.
  rewrite value_inv_pi in Hr3. rewrite value_pi, Hvm in Hr4.
  set (pm := (d_pi (Arith := arith) * of_Z m)%float) in *.
  rewrite value_pi.
  (* the errors of the two products *)
  assert (Rabs (value tmp * (5734161139222659 / 18014398509481984))
          <= 1073742083) as Ha by (unabs; apply Rabs_le; lra).
  assert (Rabs (7074237752028440 / 2251799813685248 * IZR m)
          <= 4294968336) as Hpm by (unabs; apply Rabs_le; lra).
  assert (Rabs (value y
                - value tmp * (5734161139222659 / 18014398509481984))
          <= 1073742083 * / 9007199254740992
             + / 1267650600228229401496703205376) as He1 by lra.
  assert (Rabs (value pm - 7074237752028440 / 2251799813685248 * IZR m)
          <= 4294968336 * / 9007199254740992
             + / 1267650600228229401496703205376) as He2 by lra.
  clear Hr3 Hr4 Ha Hpm Hb1 Hb3 Hb4 Hm.
  assert (Rabs (value tmp - value pm)
          <= 7074237752028440 / 2251799813685248 + / 1048576) as Hd.
  { unabs. apply Rabs_le. lra. }
  destruct (sub_R tmp pm Hf2 Hf4) as [Hf5 Hr5].
  { pose proof (bpow_1023_large 4 ltac:(lia)). lra. }
  split; [done|]. apply rnd_error in Hr5.
  assert (Rabs (value (tmp - pm)%float - (value tmp - value pm))
          <= (7074237752028440 / 2251799813685248 + / 1048576)
             * / 9007199254740992
             + / 1267650600228229401496703205376) as He3 by lra.
  clear Hr5 He1 He2 Hfold Hb2. unabs. apply Rabs_le. lra.
Qed.

End Binary64Analyzer.

(** * Binary64: the states of the effect *)

Section Binary64Pitch.
Import Binary64.
Context {Defs : MixerDefs}.
Local Open Scope R_scope.

Lemma inv_pow2 (n : nat) :
  (n <= 30)%nat ->
  Prim2SF (PrimFloat.div (of_Z 1) (of_Z (2 ^ Z.of_nat n)))
  = S754_finite false 4503599627370496 (- 52 - Z.of_nat n).
Proof.
  intros Hn.
  do 31 (destruct n as [|n]; [vm_compute; reflexivity|]). lia.
Qed.

Lemma bpow_inv e : bpow (- e) = / bpow e.
Proof.
  pose proof (bpow_pos e) as Hpos. pose proof (bpow_add (- e) e) as H.
  replace (- e + e)%Z with 0%Z in H by lia. rewrite bpow_0 in H.
  apply Rmult_eq_reg_r with (bpow e); [|lra]. rewrite <- H. field. lra.
Qed.

(** The floating form of a fixed-point pitch is exact. *)
Lemma pitch_value P :
  frac_bits_ok -> (0 <= P < 2 ^ 32)%Z ->
  finite (d_mul (d_of_Z P) (d_div (d_of_Z 1) (d_of_Z MixerFracOne))) /\
  value (d_mul (d_of_Z P) (d_div (d_of_Z 1) (d_of_Z MixerFracOne)))
  = IZR P / IZR MixerFracOne.
Proof.
  intros Hbits HP. rewrite MixerFracOne_eq.
  change (@d_mul arith) with PrimFloat.mul.
  change (@d_div arith) with PrimFloat.div.
  change (@d_of_Z arith) with of_Z.
  set (B := MixerFracBits) in *.
  assert (0 <= B <= 30)%Z as HB by exact Hbits.
  assert (B = Z.of_nat (Z.to_nat B)) as HBn by lia.
  pose proof (inv_pow2 (Z.to_nat B) ltac:(lia)) as Hinv.
  rewrite <- HBn in Hinv.
  set (inv := PrimFloat.div (of_Z 1) (of_Z (2 ^ B))) in *.
  assert (finite inv) as Hfi by (unfold finite; by rewrite Hinv).
  assert (value inv = bpow (- B)) as Hvi.
  { unfold value. rewrite Hinv, SF2R_finite. simpl sgn.
    replace (- 52 - B)%Z with (- (52) + (- B))%Z by lia.
    rewrite bpow_add. change (bpow (- (52))) with (/ 4503599627370496).
    lra. }
  change (2 ^ 32)%Z with 4294967296%Z in HP.
  destruct (of_Z_R P) as [HfP HvP];
    [change (2 ^ 53)%Z with 9007199254740992%Z; lia|].
  assert (0 <= IZR P < 4294967296) as HPr
    by (split; [apply IZR_le|apply IZR_lt]; lia).
  pose proof (bpow_pos (- B)) as Hb.
  assert (bpow (- B) <= 1) as Hb1.
  { rewrite <- bpow_0. apply bpow_le. lia. }
  destruct (mul_R (of_Z P) inv HfP Hfi) as [Hf Hr].
  { rewrite HvP, Hvi. pose proof (bpow_1023_large 4294967296 ltac:(lia)).
    rewrite Rabs_pos_eq by nra. nra. }
  split; [done|]. rewrite HvP, Hvi in Hr.
  rewrite (rnd_exact _ _ P (- B) Hr).
  - rewrite bpow_inv, bpow_IZR by lia. done.
  - done.
  - lia.
  - replace (- B + 53)%Z with (- B + 21 + 32)%Z by lia.
    rewrite bpow_add. change (bpow 32) with 4294967296.
    assert (bpow (- B) <= bpow (- B + 21)) by (apply bpow_le; lia).
    rewrite Rabs_pos_eq by nra. nra.
Qed.

End Binary64Pitch.

Section Binary64Phase.
Import Binary64.
Context {Lm : Libm} {Co : Collaborators} {Defs : MixerDefs}.
Hypothesis Hbits : frac_bits_two.
Hypothesis Harg : arg_principal.
Local Open Scope R_scope.

Lemma frac_bits_two_ok : frac_bits_ok.
Proof. unfold frac_bits_ok, frac_bits_two in *. lia. Qed.

Lemma MixerFracOne_four : (4 <= MixerFracOne <= 2 ^ 30)%Z.
Proof.
  pose proof (MixerFracOne_bounds frac_bits_two_ok). split; [|lia].
  rewrite MixerFracOne_eq. destruct Hbits as [Hlo _].
  apply (Z.pow_le_mono_r 2 2); lia.
Qed.

Lemma value_pi_bounds : 3 <= value (d_pi (Arith := arith)) <= 4 - / 524288.
Proof. rewrite value_pi. lra. Qed.

(** A scanned bin, scaled by the pitch, stays below [2^31 + 513]. *)
Lemma scaled_frequency_bound shiftI n k f :
  bin_count shiftI = Some n -> (0 <= shiftI < 2 ^ 32)%Z -> (0 <= k < n)%Z ->
  IZR k - 2 <= f <= IZR k + 2 ->
  Rabs (f * (IZR shiftI / IZR MixerFracOne)) <= 2147484161.
Proof.
  intros Hn HP Hk Hf.
  pose proof (scanned_le_limit frac_bits_two_ok _ _ _ Hn ltac:(lia) Hk) as Hle.
  rewrite (bin_limit_eq frac_bits_two_ok) in Hle.
  pose proof MixerFracOne_four as Hone.
  pose proof (MixerFracHalf_bounds frac_bits_two_ok) as Hhalf.
  assert ((k + 2) * shiftI <= (513 + 2 ^ 31) * MixerFracOne)%Z as Hz.
  { change (2 ^ 32)%Z with 4294967296%Z in HP.
    change (2 ^ 31)%Z with 2147483648%Z. lia. }
  apply IZR_le in Hz. rewrite !mult_IZR, !plus_IZR in Hz.
  change (2 ^ 31)%Z with 2147483648%Z in Hz.
  assert (0 <= IZR k) as Hk0 by (apply IZR_le; lia).
  assert (0 <= IZR shiftI) as Hp0 by (apply IZR_le; lia).
  assert (4 <= IZR MixerFracOne) as Ho4 by (apply IZR_le; lia).
  set (o := IZR MixerFracOne) in *. set (p := IZR shiftI) in *.
  set (kk := IZR k) in *.
  assert (p / o * o = p) as Hdiv by (field; lra).
  set (r := p / o) in *.
  assert (0 <= r) as Hr0 by nra.
  assert ((kk + 2) * r <= 513 + 2147483648) as Hbound by nra.
  apply Rabs_le. split; nra.
Qed.



Lemma remap_freq_bound shiftI (shift : @double arith) ana syn syn' :
  remap shiftI shift ana syn = Some syn' ->
  (0 <= shiftI < 2 ^ 32)%Z -> finite shift ->
  value shift = IZR shiftI / IZR MixerFracOne ->
  (forall k a, (0 <= k <= StftHalfSize)%Z -> Arr.get ana k = Some a ->
     finite (FreqBin a) /\ IZR k - 2 <= value (FreqBin a) <= IZR k + 2) ->
  forall j b, Arr.get syn' j = Some b -> frequency_ok b.
Proof.
  intros Hrun HP Hfs Hvs Hana. unfold remap in Hrun.
  destruct (bin_count shiftI) as [n|] eqn:Hn; [|done].
  pose proof (bin_count_range frac_bits_two_ok _ _ Hn ltac:(lia)) as Hnr.
  apply (for_range_inv
    (fun (_ : Z) (t : list (@FrequencyBin arith)) =>
       forall j b, Arr.get t j = Some b -> frequency_ok b)
    (remap_bin (Ar := arith) shiftI shift ana)
    0%Z n (Arr.fill syn bin_zero) syn'); [lia| | |exact Hrun].
  - intros j b ->%fill_get. split; [by vm_compute|].
    assert (value (FreqBin (bin_zero (Ar := arith))) = 0) as ->
      by (vm_compute; reflexivity).
    rewrite Rabs_R0. lra.
  - intros k t t' Hk HI Hstep j b Hb. unfold remap_bin in Hstep.
    destruct (Arr.get ana k) as [a|] eqn:Ha; [|done].
    destruct (Arr.get t (remap_index shiftI k)) as [d|] eqn:Hd; [|done].
    destruct (decide (j = remap_index shiftI k)) as [->|Hne].
    + rewrite (get_set_eq _ _ _ _ Hstep) in Hb. injection Hb as <-.
      unfold frequency_ok. cbn [FreqBin].
      destruct (PrimFloat.ltb (Magnitude d) (Magnitude a)).
      * destruct (Hana k a ltac:(lia) Ha) as [Hfa Hva].
        pose proof (scaled_frequency_bound shiftI n k _ Hn HP ltac:(lia) Hva)
          as Hb.
        rewrite <- Hvs in Hb.
        destruct (mul_bound (FreqBin a) shift 2147484161 Hfa Hfs Hb
                    ltac:(lia)) as (Hf & _ & Hbound).
        exact (conj Hf Hbound).
      * by apply (HI _ _ Hd).
    + rewrite (get_set_ne _ _ _ _ _ Hstep) in Hb by done.
      by apply (HI _ _ Hb).
Qed.

(** The analyzer leaves principal values in the last phases and
    frequencies within two bins of their index. *)
Lemma analyze_phase_inv fft last ana last' ana' :
  analyze fft last ana = Some (last', ana') ->
  phases_within (value d_pi) last ->
  phases_within (value d_pi) last' /\
  (forall k a, (0 <= k <= StftHalfSize)%Z -> Arr.get ana' k = Some a ->
     finite (FreqBin a) /\ IZR k - 2 <= value (FreqBin a) <= IZR k + 2).
Proof.
  intros Hrun Hlast. pose proof value_pi_bounds as Hpi.
  destruct (analyze_inv _ _ _ _ _ Hrun) as (_ & Hlow & Hhigh). split.
  - intros k x Hx. destruct (decide (0 <= k <= StftHalfSize)%Z) as [Hk|Hk].
    + destruct (Hlow k Hk) as (c & lp & _ & _ & Hl & _).
      rewrite Hl in Hx. injection Hx as <-. apply Harg.
    + pose proof (get_Some_lt _ _ _ Hx) as Hk0.
      destruct (Hhigh k ltac:(lia)) as [Hl _]. rewrite Hl in Hx.
      by apply (Hlast k).
  - intros k a Hk Ha.
    destruct (Hlow k Hk) as (c & lp & _ & Hlp & _ & Hbin).
    rewrite Hbin in Ha. injection Ha as <-. cbn [FreqBin analysis_bin].
    destruct (Harg c) as [Hfc Hvc]. destruct (Hlast k lp Hlp) as [Hfl Hvl].
    destruct (bin_frequency_R k (c_arg c) lp) as (Hf & _ & Hv);
      [change StftHalfSize with 512%Z in Hk;
       change (2 ^ 30)%Z with 1073741824%Z; lia|done|lra|done|lra|].
    done.
Qed.

(** A cycle keeps the phases within their bounds. *)
Lemma hop_phase_inv s s' : hop s = Some s' -> phase_inv s -> phase_inv s'.
Proof.
  unfold hop. intros Hrun (Hlast & Hsum & Hpitch & Hfshift & Hshift).
  pose proof value_pi_bounds as Hpi.
  open_do Hrun. injection Hrun as <-.
  match goal with H : analyze _ _ _ = Some _ |- _ =>
    destruct (analyze_phase_inv _ _ _ _ _ H Hlast) as [Hlast' Hana] end.
  match goal with H : remap _ _ _ _ = Some _ |- _ =>
    pose proof (remap_freq_bound _ _ _ _ _ H Hpitch Hfshift Hshift Hana)
      as Hsyn end.
  match goal with H : synthesize _ _ _ = Some _ |- _ =>
    destruct (synthesize_inv _ _ _ _ _ H) as (_ & Hlow & Hhigh) end.
  unfold phase_inv, pitch_consistent. fields.
  split; [done|]. split; [|done].
  intros k x Hx. destruct (decide (0 <= k <= StftHalfSize)%Z) as [Hk|Hk].
  - destruct (Hlow k Hk) as (sp & b & Hsp & Hb & Hs & _).
    rewrite Hs in Hx. injection Hx as <-.
    destruct (Hsum k sp Hsp) as [Hfsp Hvsp].
    destruct (Hsyn k b Hb) as [Hfb Hvb]. unfold phase_slack in *.
    apply advance_phase_R; [done|lra|done|done].
  - pose proof (get_Some_lt _ _ _ Hx) as Hk0.
    destruct (Hhigh k ltac:(lia)) as [Hs _]. rewrite Hs in Hx.
    by apply (Hsum k).
Qed.

Lemma process_loop_phase_inv fuel samplesToDo samplesIn base s s' :
  process_loop fuel samplesToDo samplesIn base s = Some s' ->
  phase_inv s -> phase_inv s'.
Proof.
  revert base s. induction fuel as [|fuel IH]; intros base s; simpl; [done|].
  case_decide; [|by intros [= <-]].
  destruct (frame_chunk s samplesIn base _) as [s1|] eqn:Hchunk; [|done].
  apply frame_chunk_fields in Hchunk as (_ & _ & Hi & Hf & Hl & Hs).
  intros Hrun Hinv.
  assert (phase_inv s1) as Hinv1.
  { unfold phase_inv, pitch_consistent in *. by rewrite Hi, Hf, Hl, Hs. }
  case_decide; [by injection Hrun as <-|].
  destruct (hop (advance s1)) as [s2|] eqn:Hhop; [|done].
  apply (IH _ _ Hrun). by apply (hop_phase_inv _ _ Hhop).
Qed.

Lemma zeros_within b (l : list (@double arith)) :
  0 <= b -> phases_within b (Arr.fill l d_zero).
Proof.
  intros Hb k x ->%fill_get. split; [by vm_compute|].
  assert (value (d_zero (Ar := arith)) = 0) as ->
    by (vm_compute; reflexivity).
  rewrite Rabs_R0. lra.
Qed.

(** Every state the effect can be in has its phases within their bounds
    and its two forms of the pitch in agreement. *)
Lemma reachable_phase_inv s : reachable s -> phase_inv s.
Proof.
  pose proof MixerFracOne_four as Hone. pose proof value_pi_bounds as Hpi.
  assert (IZR MixerFracOne <> 0) as Hone0.
  { apply not_0_IZR. lia. }
  induction 1 as [s|s slot props target _ IH
                 |s samplesToDo samplesIn samplesOut s' out _ IH Hrun].
  - unfold phase_inv, pitch_consistent, deviceUpdate. fields.
    split; [|split; [|split; [|split]]].
    + apply zeros_within. lra.
    + apply zeros_within. unfold phase_slack. lra.
    + unfold to_uint. apply Z.mod_pos_bound. lia.
    + by vm_compute.
    + unfold to_uint. rewrite Z.mod_small
        by (change (2 ^ 32)%Z with 4294967296%Z;
            change (2 ^ 30)%Z with 1073741824%Z in Hone; lia).
      assert (value (d_one (Ar := arith)) = 1) as ->
        by (unfold value;
            assert (Prim2SF (d_one (Ar := arith))
                    = S754_finite false 4503599627370496 (-52)) as ->
              by (vm_compute; reflexivity);
            rewrite SF2R_finite; simpl sgn;
            change (bpow (-52)) with (/ 4503599627370496); lra).
      by field.
  - destruct IH as (Hlast & Hsum & _).
    unfold phase_inv, pitch_consistent, update. fields.
    split; [exact Hlast|]. split; [exact Hsum|].
    split; [unfold to_uint; apply Z.mod_pos_bound; lia|].
    apply (pitch_value _ frac_bits_two_ok).
    unfold to_uint. apply Z.mod_pos_bound. lia.
  - unfold process in Hrun. open_do Hrun. injection Hrun as <- <-.
    match goal with H : process_loop _ _ _ _ _ = Some _ |- _ =>
      apply process_loop_phase_inv in H; [|exact IH]; exact H end.
Qed.

End Binary64Phase.

(** * Binary64: the conversion of the pitch *)

Section Binary64Nearest.
Import Binary64.
Local Open Scope R_scope.

(** [fastf2u] of a binary32 number: the nearest integer, within a half. *)
Lemma nearest_R x :
  SF_finite x ->
  exists z, nearest x = Some z /\ Rabs (IZR z - SF2R x) <= 1 / 2 /\
    (0 <= SF2R x -> (0 <= z)%Z).
Proof.
  destruct x as [s|s| |s m e]; try done; intros _.
  - exists 0%Z. split; [done|]. simpl. rewrite Rminus_0_r, Rabs_R0.
    split; [lra|lia].
  - simpl nearest. rewrite SF2R_finite. eexists. split; [done|].
    set (v := if (0 <=? e)%Z then _ else _).
    pose proof (bpow_pos e) as Hb.
    assert (0 < IZR (Z.pos m) * bpow e) as Hpos.
    { apply Rmult_lt_0_compat; [apply IZR_lt; lia|done]. }
    assert (Rabs (IZR v - IZR (Z.pos m) * bpow e) <= 1 / 2 /\ (0 <= v)%Z)
      as [Hv Hv0].
    { subst v. destruct (0 <=? e)%Z eqn:He.
      - apply Z.leb_le in He. rewrite Z.shiftl_mul_pow2 by done.
        rewrite mult_IZR, <- bpow_IZR by done.
        rewrite Rminus_diag, Rabs_R0. split; [lra|].
        pose proof (Z.pow_pos_nonneg 2 e). lia.
      - apply Z.leb_gt in He.
        rewrite Z.shiftr_div_pow2, !Z.shiftl_mul_pow2 by lia.
        set (k := (- e)%Z) in *. assert (0 < k)%Z as Hk by lia.
        assert (0 < 2 ^ k)%Z as Hpk by (apply Z.pow_pos_nonneg; lia).
        assert (2 ^ k = 2 * 2 ^ (k - 1))%Z as Hhalf.
        { replace k with (1 + (k - 1))%Z at 1 by lia.
          rewrite Z.pow_add_r by lia. done. }
        pose proof (Z.div_mod (Z.pos m) (2 ^ k) ltac:(lia)) as Hdm.
        pose proof (Z.mod_pos_bound (Z.pos m) (2 ^ k) Hpk) as Hr.
        set (q := (Z.pos m / 2 ^ k)%Z) in *.
        set (r := (Z.pos m mod 2 ^ k)%Z) in *.
        assert (0 <= q)%Z as Hq by (apply Z.div_pos; lia).
        replace (Z.pos m - q * 2 ^ k)%Z with r by lia.
        assert (bpow e = / IZR (2 ^ k)) as ->.
        { replace e with (- k)%Z by lia. rewrite bpow_inv, bpow_IZR by lia.
          done. }
        assert (0 < IZR (2 ^ k)) as Hpkr by (apply IZR_lt; lia).
        assert (IZR (Z.pos m) * / IZR (2 ^ k)
                = IZR q + IZR r / IZR (2 ^ k)) as ->.
        { rewrite Hdm at 1. rewrite plus_IZR, mult_IZR. field. lra. }
        assert (IZR (2 ^ k) = 2 * IZR (2 ^ (k - 1))) as Hhr
          by (rewrite Hhalf at 1; by rewrite mult_IZR).
        assert (0 <= IZR r) as Hr0 by (apply IZR_le; lia).
        assert (IZR r < IZR (2 ^ k)) as Hr1 by (apply IZR_lt; lia).
        assert (IZR r / IZR (2 ^ k) * IZR (2 ^ k) = IZR r) as Hfrac
          by (field; lra).
        set (f := IZR r / IZR (2 ^ k)) in *.
        rewrite !Z.mul_1_l.
        destruct ((2 ^ (k - 1) <? r)%Z || _) eqn:Hup.
        + assert (2 ^ (k - 1) <= r)%Z as Hge.
          { apply orb_true_iff in Hup as [H|H].
            - apply Z.ltb_lt in H. lia.
            - apply andb_true_iff in H as [H _]. apply Z.eqb_eq in H. lia. }
          apply IZR_le in Hge. split; [|lia].
          rewrite plus_IZR. apply Rabs_le. split; nra.
        + assert (r <= 2 ^ (k - 1))%Z as Hle.
          { apply orb_false_iff in Hup as [H _]. apply Z.ltb_ge in H. lia. }
          apply IZR_le in Hle. split; [|lia]. apply Rabs_le. split; nra. }
    destruct s; simpl sgn; simpl cond_Zopp.
    + split; [|intros; lra]. rewrite opp_IZR.
      replace (- IZR v - -1 * (IZR (Z.pos m) * bpow e))
        with (- (IZR v - IZR (Z.pos m) * bpow e)) by lra.
      by rewrite Rabs_Ropp.
    + rewrite Rmult_1_l. split; [done|]. intros _. done.
Qed.

End Binary64Nearest.

(** ** The window table *)

Section HannTable.
Context {Ar : Arith} {Lm : Libm}.

(** Passes [0] to [n] of a loop that writes [f i] to the slots [i] and
    [m - i] of an array of [m + 1] slots. *)
Lemma mirrored_fill {A} (f : nat -> A) (z : A) (m n : nat) :
  (2 * n <= S m)%nat ->
  foldl (fun ret i => <[(m - i)%nat := f i]> (<[i := f i]> ret))
        (replicate (S m) z) (seq 0 n)
  = map f (seq 0 n) ++ replicate (S m - 2 * n) z
    ++ reverse (map f (seq 0 n)).
Proof.
  induction n as [|n IH]; intros Hn.
  - simpl. by rewrite app_nil_r.
  - rewrite seq_S, foldl_app, IH by lia. cbn [foldl Nat.add].
    rewrite map_app, reverse_app. cbn [map reverse app].
    set (pre := map f (seq 0 n)).
    assert (length pre = n) as Hlen
      by (unfold pre; by rewrite length_map, length_seq).
    set (r := (S m - 2 * S n)%nat).
    replace (S m - 2 * n)%nat with (S (r + 1)) by lia.
    rewrite replicate_S, replicate_add. cbn [replicate].
    replace (m - n)%nat
      with (length pre + S (length (replicate r z) + 0))%nat
      by (rewrite length_replicate; lia).
    replace n with (length pre + 0)%nat at 2 by lia.
    assert (forall (x y : A) l, <[0%nat := x]> (y :: l) = x :: l) as Hins0
      by done.
    assert (forall k (x y : A) l, <[S k := x]> (y :: l) = y :: <[k := x]> l)
      as HinsS by done.
    rewrite !insert_app_r, <- !app_assoc. f_equal.
    cbn [app]. rewrite Hins0, HinsS. f_equal.
    rewrite <- (app_assoc (replicate r z)), insert_app_r. done.
Qed.


(** [InitHannWindow] writes every slot of the table: the lower half holds
    the values of the passes in order, and the upper half holds them in
    reverse order. *)
Lemma HannWindow_halves : HannWindow = hann_half ++ reverse hann_half.
Proof.
  unfold HannWindow, InitHannWindow, hann_half. cbv zeta.
  etrans;
    [exact (mirrored_fill (fun i => hann_value (Z.of_nat i)) d_zero
              1023 512 ltac:(lia))|].
  change (S 1023 - 2 * 512)%nat with 0%nat. cbn [replicate app].
  assert (map (fun i => hann_value (Z.of_nat i)) (seq 0 512)
          = map hann_value (seqZ 0 StftHalfSize)) as ->; [|done].
  unfold seqZ. rewrite <- list_fmap_compose. done.
Qed.

Lemma hann_half_lookup i :
  0 <= i < StftHalfSize ->
  hann_half !! Z.to_nat i = Some (hann_value i).
Proof.
  intros Hi. unfold hann_half. rewrite list_lookup_fmap.
  rewrite lookup_seqZ_lt by lia. simpl. f_equal. f_equal. lia.
Qed.

Lemma hann_half_length : length hann_half = 512%nat.
Proof. unfold hann_half. by rewrite length_map, length_seqZ. Qed.

(** The slot [k] of the table holds the value of the pass [k] or
    [StftSize - 1 - k], whichever is in the lower half. *)
Lemma HannWindow_get k :
  0 <= k < StftSize ->
  Arr.get HannWindow k = Some (hann_value (Z.min k (StftSize - 1 - k))).
Proof.
  intros Hk. rewrite get_lookup by lia. rewrite HannWindow_halves.
  pose proof hann_half_length as Hlen. sizes.
  destruct (decide (k < 512)) as [Hlow|Hhigh].
  - rewrite lookup_app_l by lia. rewrite hann_half_lookup by (sizes; lia).
    f_equal. f_equal. lia.
  - rewrite lookup_app_r by lia. rewrite reverse_lookup by lia.
    replace (length hann_half - S (Z.to_nat k - length hann_half))%nat
      with (Z.to_nat (1024 - 1 - k)) by lia.
    rewrite hann_half_lookup by (sizes; lia). f_equal. f_equal. lia.
Qed.

Lemma HannWindow_is_Some k :
  0 <= k < StftSize -> is_Some (Arr.get HannWindow k).
Proof. intros Hk. by rewrite HannWindow_get. Qed.

End HannTable.

(** ** The frame under the window *)

Section FrameLoops.
Context {Ar : Arith} {Num : AlNumeric} {Lm : Libm} {Co : Collaborators}
        {Defs : MixerDefs}.

(** The two windowing loops read the ring buffer as one frame that starts
    at the cursor and wraps at the end of the buffer, and they write every
    slot of the FFT buffer. *)
Lemma window_frame_spec fifo pos fft :
  0 <= pos <= StftSize ->
  Z.of_nat (length fifo) = StftSize -> Z.of_nat (length fft) = StftSize ->
  exists fft',
    window_frame fifo pos fft = Some fft' /\ length fft' = length fft /\
    forall k, 0 <= k < StftSize ->
      Arr.get fft' k = windowed_sample fifo pos k.
Proof.
  intros Hpos Hfifo Hfft. unfold window_frame. cbv zeta.
  pose (I := fun (n : Z) (t : list complex_d) =>
    length t = length fft /\
    forall k, 0 <= k < n -> Arr.get t k = windowed_sample fifo pos k).
  assert (forall n src t, 0 <= n < StftSize -> 0 <= src < StftSize ->
            (pos + n) mod StftSize = src -> I n t ->
            exists t', window_bin HannWindow fifo src n t = Some t' /\
                       I (n + 1) t') as Hstep.
  { intros n src t Hn Hsrc Hmod [Hlen Hlow]. unfold window_bin.
    destruct (get_is_Some fifo src) as [x Hx]; [lia|].
    destruct (get_is_Some HannWindow n) as [w Hw];
      [by rewrite HannWindow_length|].
    rewrite Hx, Hw, set_is_Some by lia. eexists. split; [done|].
    split; [by rewrite length_insert|]. intros k Hk.
    rewrite get_lookup by lia.
    destruct (decide (k = n)) as [->|Hne].
    - rewrite list_lookup_insert_eq by lia.
      unfold windowed_sample. by rewrite Hmod, Hx, Hw.
    - rewrite list_lookup_insert_ne by lia.
      rewrite <- get_lookup by lia. apply Hlow. lia. }
  destruct (for_range_total (fun src t => I (src - pos) t)
              (fun src => window_bin HannWindow fifo src (src - pos))
              pos StftSize fft) as (fft1 & -> & HI1); [lia| | |].
  { split; [done|]. intros k Hk. lia. }
  { intros src t Hsrc HI.
    destruct (Hstep (src - pos) src t) as (t' & ? & ?); [lia|lia| |done|].
    - replace (pos + (src - pos)) with src by lia. apply Z.mod_small. lia.
    - exists t'. split; [done|].
      by replace (src + 1 - pos) with (src - pos + 1) by lia. }
  destruct (for_range_total (fun src t => I (StftSize - pos + src) t)
              (fun src => window_bin HannWindow fifo src
                            (to_size (StftSize - pos) + src))
              0 pos fft1) as (fft2 & -> & HI2); [lia| | |].
  { by rewrite Z.add_0_r. }
  { intros src t Hsrc HI. rewrite to_size_small by (sizes; lia).
    destruct (Hstep (StftSize - pos + src) src t) as (t' & ? & ?);
      [lia|lia| |done|].
    - replace (pos + (StftSize - pos + src)) with (src + 1 * StftSize) by lia.
      rewrite Z.mod_add by (by sizes). apply Z.mod_small. lia.
    - exists t'. split; [done|].
      by replace (StftSize - pos + (src + 1))
        with (StftSize - pos + src + 1) by lia. }
  exists fft2. split; [done|]. destruct HI2 as [Hlen Hall].
  split; [done|]. intros k Hk. apply Hall. lia.
Qed.

(** The two overlap-add loops add the frame, under the window and
    scaled, to the accumulator, with the first sample of the frame on the
    slot of the cursor; every slot of the accumulator gets one sample. *)
Lemma overlap_add_spec fft pos acc :
  0 <= pos <= StftSize ->
  Z.of_nat (length fft) = StftSize -> Z.of_nat (length acc) = StftSize ->
  exists acc',
    overlap_add fft pos acc = Some acc' /\ length acc' = length acc /\
    forall dst, 0 <= dst < StftSize ->
      Arr.get acc' dst = accumulated_sample fft pos acc dst.
Proof.
  intros Hpos Hfft Hacc. unfold overlap_add. cbv zeta.
  pose (I := fun (D : Z -> Prop) (t : list double) =>
    length t = length acc /\
    forall dst, 0 <= dst < StftSize ->
      (D dst -> Arr.get t dst = accumulated_sample fft pos acc dst) /\
      (~ D dst -> Arr.get t dst = Arr.get acc dst)).
  assert (forall (D D' : Z -> Prop) dst k t,
            0 <= dst < StftSize -> (dst - pos) mod StftSize = k ->
            ~ D dst -> (forall d, D' d <-> D d \/ d = dst) -> I D t ->
            exists t', accumulate_bin HannWindow fft dst k t = Some t' /\
                       I D' t') as Hstep.
  { intros D D' dst k t Hdst Hmod Hnew HD' [Hlen Hall].
    pose proof (Z.mod_pos_bound (dst - pos) StftSize ltac:(by sizes)) as Hk.
    rewrite Hmod in Hk. unfold accumulate_bin.
    destruct (Hall dst Hdst) as [_ Hold]. rewrite (Hold Hnew).
    destruct (get_is_Some acc dst) as [a Ha]; [lia|].
    destruct (get_is_Some HannWindow k) as [w Hw];
      [by rewrite HannWindow_length|].
    destruct (get_is_Some fft k) as [c Hc]; [lia|].
    rewrite Ha, Hw, Hc, set_is_Some by lia. eexists. split; [done|].
    split; [by rewrite length_insert|]. intros d Hd.
    rewrite get_lookup by lia. rewrite HD'.
    destruct (decide (d = dst)) as [->|Hne].
    - rewrite list_lookup_insert_eq by lia. split; [|tauto]. intros _.
      unfold accumulated_sample. cbv zeta. by rewrite Hmod, Ha, Hw, Hc.
    - rewrite list_lookup_insert_ne by lia. rewrite <- get_lookup by lia.
      destruct (Hall d Hd) as [Hin Hout]. split; [|tauto].
      intros [HDd|]; [by apply Hin|done]. }
  destruct (for_range_total (fun m t => I (fun d => pos <= d < m) t)
              (fun dst => accumulate_bin HannWindow fft dst (dst - pos))
              pos StftSize acc) as (acc1 & -> & HI1); [lia| | |].
  { split; [done|]. intros dst Hdst. split; [lia|done]. }
  { intros dst t Hdst HI.
    apply (Hstep (fun d => pos <= d < dst)); [lia| |lia| |done].
    - apply Z.mod_small. lia.
    - intros d. lia. }
  destruct (for_range_total
              (fun m t => I (fun d => pos <= d < StftSize \/ d < m) t)
              (fun dst => accumulate_bin HannWindow fft dst
                            (to_size (StftSize - pos) + dst))
              0 pos acc1) as (acc2 & -> & HI2); [lia| | |].
  { destruct HI1 as [Hlen Hall]. split; [done|]. intros dst Hdst.
    destruct (Hall dst Hdst) as [Hin Hout]. split.
    - intros Hd. apply Hin. lia.
    - intros Hd. apply Hout. lia. }
  { intros dst t Hdst HI. rewrite to_size_small by (sizes; lia).
    apply (Hstep (fun d => pos <= d < StftSize \/ d < dst));
      [lia| |lia| |done].
    - replace (dst - pos) with (StftSize - pos + dst + -1 * StftSize) by lia.
      rewrite Z.mod_add by (by sizes). apply Z.mod_small. lia.
    - intros d. lia. }
  exists acc2. split; [done|]. destruct HI2 as [Hlen Hall].
  split; [done|]. intros dst Hdst. apply Hall; [done|]. lia.
Qed.

End FrameLoops.

(** ** The mirrored spectrum *)

Section Spectrum.
Context {Ar : Arith} {Num : AlNumeric} {Lm : Libm} {Co : Collaborators}
        {Defs : MixerDefs}.

(** The mirroring loop leaves the bins up to [StftHalfSize] as they are
    and writes to every bin above the conjugate of the bin as far below
    [StftSize] as the bin is above zero. *)
Lemma mirror_spec fft :
  Z.of_nat (length fft) = StftSize ->
  exists fft',
    mirror fft = Some fft' /\ length fft' = length fft /\
    (forall k, 0 <= k <= StftHalfSize -> Arr.get fft' k = Arr.get fft k) /\
    (forall k, StftHalfSize < k < StftSize ->
       Arr.get fft' k = c_conj <$> Arr.get fft (StftSize - k)).
Proof.
  intros Hfft. unfold mirror.
  destruct (for_range_total
    (fun m t => length t = length fft /\
       (forall k, 0 <= k <= StftHalfSize \/ m <= k ->
          Arr.get t k = Arr.get fft k) /\
       (forall k, StftHalfSize < k < m ->
          Arr.get t k = c_conj <$> Arr.get fft (StftSize - k)))
    (fun k t => do c <- Arr.get t (to_size (StftSize - k));
                Arr.set t k (c_conj c))
    (StftHalfSize + 1) StftSize fft) as (fft' & -> & Hlen & Hlow & Hhigh).
  - by sizes.
  - split; [done|]. split; [done|]. intros k Hk. lia.
  - intros m t Hm (Hlen & Hlow & Hhigh).
    rewrite to_size_small by (sizes; lia).
    destruct (get_is_Some t (StftSize - m)) as [c Hc]; [sizes; lia|].
    rewrite Hc, set_is_Some by (sizes; lia). eexists. split; [done|].
    split; [by rewrite length_insert|]. split.
    + intros k Hk. unfold Arr.get. case_decide; [|done].
      rewrite list_lookup_insert_ne by (sizes; lia).
      rewrite <- !get_lookup by lia. apply Hlow. lia.
    + intros k Hk. rewrite get_lookup by (sizes; lia).
      destruct (decide (k = m)) as [->|Hne].
      * rewrite list_lookup_insert_eq by (sizes; lia).
        rewrite <- (Hlow (StftSize - m)) by (sizes; lia). by rewrite Hc.
      * rewrite list_lookup_insert_ne by (sizes; lia).
        rewrite <- get_lookup by (sizes; lia). apply Hhigh. lia.
  - exists fft'. split; [done|]. split; [done|]. split.
    + intros k Hk. apply Hlow. lia.
    + intros k Hk. apply Hhigh. lia.
Qed.

End Spectrum.

(** ** Blocks of samples *)

Section Blocks.
Context {Ar : Arith} {Num : AlNumeric} {Lm : Libm} {Co : Collaborators}
        {Defs : MixerDefs}.

(** What one pass of the framer needs and what it leaves. *)
Lemma frame_chunk_Some s samplesIn base todo s' :
  frame_chunk s samplesIn base todo = Some s' ->
  exists old in0 new,
    Arr.slice (mFIFO s) (mPos s + mCount s) todo = Some old /\
    Arr.blit (mBufferOut s) base (map f_of_d old) = Some (mBufferOut s') /\
    Arr.get samplesIn 0 = Some in0 /\
    Arr.slice in0 base todo = Some new /\
    Arr.blit (mFIFO s) (mPos s + mCount s) (map d_of_f new)
    = Some (mFIFO s') /\
    mOutTarget s' = mOutTarget s /\ mTargetGains s' = mTargetGains s /\
    mCurrentGains s' = mCurrentGains s /\ mOutputAccum s' = mOutputAccum s.
Proof.
  unfold frame_chunk. intros Hrun. open_do Hrun. injection Hrun as <-.
  fields. eexists _, _, _. done.
Qed.

(** The positions of the output line that one pass writes. *)
Lemma frame_chunk_out s samplesIn base todo s' :
  frame_chunk s samplesIn base todo = Some s' -> 0 <= todo ->
  (0 <= base /\ base + todo <= Z.of_nat (length (mBufferOut s))) /\
  length (mBufferOut s') = length (mBufferOut s) /\
  forall i,
    Arr.get (mBufferOut s') i
    = if decide (base <= i < base + todo)
      then f_of_d <$> Arr.get (mFIFO s) (mPos s + mCount s + (i - base))
      else Arr.get (mBufferOut s) i.
Proof.
  intros (old & in0 & new & Hold & Hout & _)%frame_chunk_Some Htodo.
  pose proof (slice_length _ _ _ _ Hold) as Hlen.
  pose proof (blit_Some _ _ _ _ Hout) as [Hfit _].
  rewrite length_map, Hlen in Hfit.
  split; [done|]. split; [by apply (blit_length _ _ _ _ Hout)|]. intros i.
  rewrite (blit_get _ _ _ _ i Hout), length_map, Hlen.
  case_decide as Hi; [|done].
  rewrite get_lookup, list_lookup_fmap, <- get_lookup by lia.
  by rewrite (slice_get _ _ _ _ (i - base) Hold) by lia.
Qed.

(** The step and the ring as remainders. *)
Lemma block_counters c m :
  0 <= c < 256 -> 0 <= m ->
  let todo := Z.min (256 - c) m in
  (c + todo < 256 -> todo = m /\ (c + m) mod 256 = c + m /\
                     (c + m) / 256 = 0) /\
  (~ c + todo < 256 ->
   c + todo = 256 /\ (c + m) mod 256 = (m - todo) mod 256 /\
   (c + m) / 256 = 1 + (m - todo) / 256).
Proof.
  intros Hc Hm todo. unfold todo. split; intros Hfull.
  - split; [lia|]. split; [apply Z.mod_small; lia|apply Z.div_small; lia].
  - split; [lia|]. replace (c + m) with (m - Z.min (256 - c) m + 1 * 256)
      by lia.
    rewrite Z.mod_add, Z.div_add by lia. lia.
Qed.

(** The outer loop from the sample [base] on: it returns only if the
    first input line and the output line hold [samplesToDo] samples; it
    leaves the counter and the cursor where the number of consumed
    samples puts them, and it writes the output line from [base] to
    [samplesToDo] and nowhere else. *)
Lemma process_loop_block fuel samplesToDo samplesIn : forall base s s',
  process_loop fuel samplesToDo samplesIn base s = Some s' ->
  cursor_ok s -> 0 <= base <= samplesToDo -> samplesToDo < 2 ^ 64 ->
  (base < samplesToDo ->
   (exists in0, Arr.get samplesIn 0 = Some in0 /\
                samplesToDo <= Z.of_nat (length in0)) /\
   samplesToDo <= Z.of_nat (length (mBufferOut s))) /\
  mCount s' = (mCount s + (samplesToDo - base)) mod StftStep /\
  mPos s'
  = (mPos s + StftStep * ((mCount s + (samplesToDo - base)) / StftStep))
    mod StftSize /\
  length (mBufferOut s') = length (mBufferOut s) /\
  (forall i, i < base \/ samplesToDo <= i ->
     Arr.get (mBufferOut s') i = Arr.get (mBufferOut s) i) /\
  (forall i, base <= i < base + Z.min (StftStep - mCount s)
                                      (samplesToDo - base) ->
     Arr.get (mBufferOut s') i
     = f_of_d <$> Arr.get (mFIFO s) (mPos s + mCount s + (i - base))).
Proof.
  induction fuel as [|fuel IH]; intros base s s' Hrun Hok Hbase Hn;
    [done|].
  simpl in Hrun. destruct Hok as (Hmod & Hpos & Hcount).
  case_decide as Hlt.
  2:{ injection Hrun as <-. replace (samplesToDo - base) with 0 by lia.
      rewrite Z.add_0_r, Z.div_small, Z.mod_small by done.
      rewrite Z.mul_0_r, Z.add_0_r, Z.mod_small by (sizes; lia).
      split; [lia|]. repeat split; try done. intros i Hi. sizes. lia. }
  pose proof (todo_bounds s samplesToDo base Hcount) as Htodo.
  set (todo := minz (to_size (StftStep - mCount s))
                    (to_size (samplesToDo - base))) in *.
  assert (todo = Z.min (StftStep - mCount s) (samplesToDo - base)) as Htodo_eq.
  { unfold todo, minz. rewrite !to_size_small by (sizes; lia). done. }
  destruct (frame_chunk s samplesIn base todo) as [s1|] eqn:Hchunk; [|done].
  pose proof (frame_chunk_fields _ _ _ _ _ Hchunk) as (Hp1 & Hc1 & _).
  rewrite to_size_small in Hc1 by (sizes; lia).
  pose proof (frame_chunk_out _ _ _ _ _ Hchunk ltac:(lia))
    as (Hfit & Hlen1 & Hout1).
  pose proof (frame_chunk_Some _ _ _ _ _ Hchunk)
    as (_ & in0 & new & _ & _ & Hin0 & Hnew & _).
  pose proof (slice_Some _ _ _ _ Hnew) as [(_ & _ & Hfit0) _].
  pose proof (block_counters (mCount s) (samplesToDo - base))
    as Hctr.
  sizes. rewrite <- Htodo_eq in *. cbv zeta in Hctr.
  destruct Hctr as [Hshort Hfull]; [lia|lia|].
  case_decide as Hcase.
  - injection Hrun as <-. rewrite Hc1 in Hcase.
    destruct (Hshort Hcase) as (Hall & Hm & Hd).
    rewrite Hm, Hd, Z.mul_0_r, Z.add_0_r, Z.mod_small by lia.
    split; [intros _; split; [exists in0; split; [done|lia]|lia]|].
    split; [lia|]. split; [done|]. split; [done|]. split.
    + intros i Hi. rewrite Hout1. rewrite decide_False by lia. done.
    + intros i Hi. rewrite Hout1. rewrite decide_True by lia. done.
  - rewrite Hc1 in Hcase. destruct (Hfull Hcase) as (Hall & Hm & Hd).
    destruct (hop (advance s1)) as [s2|] eqn:Hhop; [|done].
    pose proof (hop_fields _ _ Hhop) as (Hp2 & Hc2 & _ & _ & Ho2 & _).
    rewrite to_size_small in Hrun by lia.
    assert (cursor_ok s2) as Hok2.
    { pose proof (advance_cursor_ok s1) as Hadv. unfold cursor_ok in *.
      rewrite Hp2, Hc2. apply Hadv; sizes; rewrite Hp1; done. }
    rewrite advance_pos in Hp2 by (sizes; lia).
    change (mCount (advance s1)) with 0 in Hc2.
    change (mBufferOut (advance s1)) with (mBufferOut s1) in Ho2.
    apply IH in Hrun as (Hrest & Hcs & Hps & Hls & Hkeep & _);
      [|done|lia|done].
    rewrite Hc2, Hp2, Hp1, Ho2 in *. sizes.
    split; [|split; [|split; [|split; [|split]]]].
    + intros _. split; [exists in0; split; [done|]|].
      * destruct (decide (base + todo < samplesToDo)) as [Hmore|Hend].
        -- destruct (Hrest Hmore) as [(in0' & Hin0' & Hl) _].
           rewrite Hin0 in Hin0'. by injection Hin0' as <-.
        -- lia.
      * destruct (decide (base + todo < samplesToDo)) as [Hmore|Hend].
        -- destruct (Hrest Hmore) as [_ Hl]. lia.
        -- lia.
    + rewrite Hcs, Hm. f_equal. lia.
    + rewrite Hps, Hd.
      replace (samplesToDo - (base + todo)) with (samplesToDo - base - todo)
        by lia.
      rewrite Z.add_0_l, Z.add_mod_idemp_l by lia. f_equal. lia.
    + lia.
    + intros i Hi. rewrite Hkeep by lia. rewrite Hout1.
      rewrite decide_False by lia. done.
    + intros i Hi. rewrite Hkeep by lia. rewrite Hout1.
      rewrite decide_True by lia. done.
Qed.

(** The outer loop writes neither the pitch nor the gains nor the output
    target. *)
Lemma process_loop_parameters fuel samplesToDo samplesIn : forall base s s',
  process_loop fuel samplesToDo samplesIn base s = Some s' ->
  mPitchShiftI s' = mPitchShiftI s /\ mPitchShift s' = mPitchShift s /\
  mTargetGains s' = mTargetGains s /\ mCurrentGains s' = mCurrentGains s /\
  mOutTarget s' = mOutTarget s.
Proof.
  induction fuel as [|fuel IH]; intros base s s' Hrun; [done|].
  simpl in Hrun. case_decide; [|by injection Hrun as <-].
  destruct (frame_chunk s samplesIn base _) as [s1|] eqn:Hchunk; [|done].
  pose proof (frame_chunk_fields _ _ _ _ _ Hchunk) as (_ & _ & Hi & Hf & _).
  pose proof (frame_chunk_Some _ _ _ _ _ Hchunk)
    as (_ & _ & _ & _ & _ & _ & _ & _ & Ht & Hg & Hc & _).
  case_decide; [injection Hrun as <-; done|].
  destruct (hop (advance s1)) as [s2|] eqn:Hhop; [|done].
  pose proof (hop_fields _ _ Hhop)
    as (_ & _ & Hi2 & Hf2 & _ & Hc2 & Hg2 & Ht2).
  apply IH in Hrun as (-> & -> & -> & -> & ->).
  rewrite Hi2, Hf2, Hc2, Hg2, Ht2. unfold advance; fields. done.
Qed.

End Blocks.

(** ** A block in two calls *)

Section Split.
Context {Ar : Arith} {Num : AlNumeric} {Lm : Libm} {Co : Collaborators}
        {Defs : MixerDefs}.

(** A cycle reads and writes the signal path only. *)
Lemma hop_dsp s t :
  dsp_state s = dsp_state t -> dsp_state <$> hop s = dsp_state <$> hop t.
Proof.
  destruct s, t. unfold dsp_state. fields.
  intros [= -> -> -> -> -> -> -> -> -> -> ->].
  unfold hop. fields.
  repeat (case_match; try done).
Qed.

Lemma advance_dsp s t :
  dsp_state s = dsp_state t -> dsp_state (advance s) = dsp_state (advance t).
Proof.
  destruct s, t. unfold dsp_state, advance. fields.
  by intros [= -> -> -> -> -> -> -> -> -> -> ->].
Qed.

(** The position of the output line a sample is sent to does not enter
    the signal path. *)
Lemma emit_sample_dsp s t base base' x s' t' :
  dsp_state s = dsp_state t ->
  emit_sample s base x = Some s' -> emit_sample t base' x = Some t' ->
  dsp_state s' = dsp_state t'.
Proof.
  destruct s, t. unfold dsp_state, emit_sample. fields.
  intros [= -> -> -> -> -> -> -> -> -> -> ->] Hs Ht.
  open_do Hs. open_do Ht. injection Hs as <-. injection Ht as <-. fields.
  congruence.
Qed.

Lemma frame_sample_dsp s t base base' x s' t' :
  dsp_state s = dsp_state t ->
  frame_sample s base x = Some s' -> frame_sample t base' x = Some t' ->
  dsp_state s' = dsp_state t'.
Proof.
  intros Heq Hs Ht. unfold frame_sample in *.
  destruct (emit_sample s base x) as [s1|] eqn:Hs1; [|done].
  destruct (emit_sample t base' x) as [t1|] eqn:Ht1; [|done].
  pose proof (emit_sample_dsp _ _ _ _ _ _ _ Heq Hs1 Ht1) as Heq1.
  assert (mCount s1 = mCount t1) as Hc by (by injection Heq1).
  rewrite Hc in Hs. case_decide.
  - pose proof (hop_dsp _ _ (advance_dsp _ _ Heq1)) as Hhop.
    rewrite Hs, Ht in Hhop. simpl in Hhop. by apply (inj Some) in Hhop.
  - congruence.
Qed.

Lemma frame_samples_dsp xs : forall s t base base' s' t',
  dsp_state s = dsp_state t ->
  frame_samples s base xs = Some s' -> frame_samples t base' xs = Some t' ->
  dsp_state s' = dsp_state t'.
Proof.
  induction xs as [|x xs IH]; intros s t base base' s' t' Heq; simpl.
  - congruence.
  - destruct (frame_sample s base x) as [s1|] eqn:Hs1; [|done].
    destruct (frame_sample t base' x) as [t1|] eqn:Ht1; [|done].
    apply IH. by apply (frame_sample_dsp _ _ _ _ _ _ _ Heq Hs1 Ht1).
Qed.

(** The outer loop keeps the lengths of the ring buffer and of the output
    line. *)
Lemma process_loop_lengths fuel samplesToDo samplesIn : forall base s s',
  process_loop fuel samplesToDo samplesIn base s = Some s' ->
  length (mFIFO s') = length (mFIFO s) /\
  length (mBufferOut s') = length (mBufferOut s).
Proof.
  induction fuel as [|fuel IH]; intros base s s' Hrun; [done|].
  simpl in Hrun. case_decide; [|by injection Hrun as <-].
  destruct (frame_chunk s samplesIn base _) as [s1|] eqn:Hchunk; [|done].
  pose proof (frame_chunk_Some _ _ _ _ _ Hchunk)
    as (old & in0 & new & _ & Hb1 & _ & _ & Hb2 & _).
  apply blit_length in Hb1, Hb2.
  case_decide; [injection Hrun as <-; done|].
  destruct (hop (advance s1)) as [s2|] eqn:Hhop; [|done].
  apply hop_framer_lengths in Hhop as [Hf2 Ho2].
  destruct (IH _ _ _ Hrun) as [Hf Ho].
  rewrite Hf, Ho, Hf2, Ho2. unfold advance; fields. done.
Qed.

Lemma process_loop_framer_ok fuel samplesToDo samplesIn base s s' :
  process_loop fuel samplesToDo samplesIn base s = Some s' ->
  framer_ok s -> framer_ok s'.
Proof.
  intros Hrun (Hcur & Hfifo & Hout).
  destruct (process_loop_lengths _ _ _ _ _ _ Hrun) as [Hf Ho].
  split; [by apply (process_loop_cursor_ok _ _ _ _ _ _ Hcur Hrun)|].
  rewrite Hf, Ho. done.
Qed.

(** What [process] adds to its outer loop: the mixing, which writes the
    current gains. *)
Lemma process_Some samplesToDo samplesIn samplesOut s s' out :
  process samplesToDo samplesIn samplesOut s = Some (s', out) ->
  exists u,
    process_loop (S (Z.to_nat samplesToDo)) samplesToDo samplesIn 0 s
    = Some u /\
    dsp_state s' = dsp_state u /\ mBufferOut s' = mBufferOut u /\
    mTargetGains s' = mTargetGains u /\ mOutTarget s' = mOutTarget u /\
    out = (MixSamples (take (Z.to_nat samplesToDo) (mBufferOut u)) samplesOut
             (mCurrentGains u) (mTargetGains u) (maxz samplesToDo 512) 0).1 /\
    mCurrentGains s'
    = (MixSamples (take (Z.to_nat samplesToDo) (mBufferOut u)) samplesOut
         (mCurrentGains u) (mTargetGains u) (maxz samplesToDo 512) 0).2.
Proof.
  unfold process. intros Hrun.
  destruct (process_loop _ _ _ _ _) as [u|]; [|done].
  destruct (Arr.slice _ _ _) as [mono|] eqn:Hmono; [|done].
  apply slice_Some in Hmono as [_ ->]. rewrite drop_0 in Hrun.
  destruct (MixSamples _ _ _ _ _ _) as [o g] eqn:Hmix.
  injection Hrun as <- <-. exists u. fields. rewrite Hmix. done.
Qed.

(** A block handed over in two calls leaves the signal path as the
    block handed over in one call does. *)
Lemma process_split_dsp samplesIn samplesIn' in0 out1 out2 out3 n1 n2
    s s1 o1 s2 o2 s12 o12 :
  framer_ok s ->
  Arr.get samplesIn 0 = Some in0 ->
  Arr.get samplesIn' 0 = Some (drop (Z.to_nat n1) in0) ->
  0 <= n1 -> 0 <= n2 -> n1 + n2 < 2 ^ 64 ->
  process n1 samplesIn out1 s = Some (s1, o1) ->
  process n2 samplesIn' out2 s1 = Some (s2, o2) ->
  process (n1 + n2) samplesIn out3 s = Some (s12, o12) ->
  dsp_state s2 = dsp_state s12.
Proof.
  intros Hok Hin Hin' Hn1 Hn2 Hn H1 H2 H12.
  apply process_Some in H1 as (u1 & Hl1 & Hd1 & Hb1 & _).
  apply process_Some in H2 as (u2 & Hl2 & Hd2 & _).
  apply process_Some in H12 as (u12 & Hl12 & Hd12 & _).
  rewrite Hd2, Hd12. clear Hd2 Hd12 s2 s12 o1 o2 o12.
  pose proof Hok as (Hcur & Hfifo & Hout).
  assert (n1 + n2 <= Z.of_nat (length in0) /\ n1 + n2 <= BufferLineSize)
    as [Hfit Hline].
  { destruct (decide (0 < n1 + n2)) as [Hpos|]; [|lia].
    destruct (process_loop_block _ _ _ _ _ _ Hl12 Hcur ltac:(lia) Hn)
      as [Hb _].
    destruct (Hb Hpos) as [(in0' & Hin0' & Hlen) Hlo].
    rewrite Hin in Hin0'. injection Hin0' as <-. lia. }
  pose proof (process_loop_framer_ok _ _ _ _ _ _ Hl1 Hok) as Hok1.
  assert (framer_ok s1) as Hok1'.
  { destruct Hok1 as (Hc & Hf & Ho). unfold framer_ok, cursor_ok in *.
    assert (mCount s1 = mCount u1 /\ mPos s1 = mPos u1 /\
            mFIFO s1 = mFIFO u1) as (-> & -> & ->)
      by (by injection Hd1). by rewrite Hb1. }
  rewrite (process_loop_refines n1 samplesIn in0) in Hl1
    by (done || lia).
  rewrite (process_loop_refines n2 samplesIn' (drop (Z.to_nat n1) in0))
    in Hl2 by (rewrite ?length_drop; done || lia).
  rewrite (process_loop_refines (n1 + n2) samplesIn in0) in Hl12
    by (done || lia).
  rewrite !Z.sub_0_r, !drop_0 in *.
  replace (Z.to_nat (n1 + n2)) with (Z.to_nat n1 + Z.to_nat n2)%nat
    in Hl12 by lia.
  rewrite <- take_take_drop, frame_samples_app, Hl1 in Hl12.
  by apply (frame_samples_dsp _ _ _ _ _ _ _ Hd1 Hl2 Hl12).
Qed.

End Split.

(** ** A fixed-point pitch of zero *)

Section ZeroPitch.
Context {Ar : Arith} {Num : AlNumeric} {Lm : Libm} {Co : Collaborators}
        {Defs : MixerDefs}.

(** A cycle at a fixed-point pitch of zero divides by zero. *)
Lemma hop_zero_pitch s : mPitchShiftI s = 0 -> hop s = None.
Proof.
  intros Hzero. unfold hop. rewrite Hzero.
  destruct (window_frame _ _ _); [|done].
  destruct (analyze _ _ _) as [[last ana]|]; [|done]. done.
Qed.

(** So does the outer loop, when the block fills the step. *)
Lemma process_loop_zero_pitch fuel samplesToDo samplesIn s :
  cursor_ok s -> mPitchShiftI s = 0 ->
  StftStep - mCount s <= samplesToDo < 2 ^ 64 ->
  process_loop fuel samplesToDo samplesIn 0 s = None.
Proof.
  intros (_ & _ & Hcount) Hzero Hn. destruct fuel as [|fuel]; [done|].
  simpl. rewrite decide_True by lia.
  assert (minz (to_size (StftStep - mCount s)) (to_size (samplesToDo - 0))
          = StftStep - mCount s) as ->.
  { unfold minz. rewrite !to_size_small by (sizes; lia). lia. }
  destruct (frame_chunk s samplesIn 0 _) as [s1|] eqn:Hchunk; [|done].
  apply frame_chunk_fields in Hchunk as (_ & Hc1 & Hi1 & _).
  rewrite to_size_small in Hc1 by (sizes; lia).
  rewrite decide_False by lia.
  rewrite hop_zero_pitch; [done|]. unfold advance; fields. congruence.
Qed.

End ZeroPitch.

(** ** The reset state *)

Section Reset.
Context {Ar : Arith} {Num : AlNumeric} {Lm : Libm} {Co : Collaborators}
        {Defs : MixerDefs}.

Lemma fill_fill {A} (a : list A) x : Arr.fill (Arr.fill a x) x = Arr.fill a x.
Proof. unfold Arr.fill. by rewrite length_replicate. Qed.

Lemma deviceUpdate_twice s : deviceUpdate (deviceUpdate s) = deviceUpdate s.
Proof. unfold deviceUpdate. fields. by rewrite !fill_fill. Qed.

Lemma deviceUpdate_sized s : sized s -> sized (deviceUpdate s).
Proof.
  intros []. unfold deviceUpdate. split; fields; by rewrite ?fill_length.
Qed.

Lemma deviceUpdate_cursor_ok s : cursor_ok (deviceUpdate s).
Proof.
  unfold cursor_ok, deviceUpdate. fields.
  rewrite to_size_small by (sizes; lia). sizes. split; [done|lia].
Qed.

Lemma deviceUpdate_pitch_ok s : frac_bits_ok -> pitch_ok (deviceUpdate s).
Proof.
  intros Hbits. unfold pitch_ok, deviceUpdate. fields.
  pose proof (MixerFracOne_bounds Hbits).
  change (2 ^ 32) with 4294967296. change (2 ^ 30) with 1073741824 in *.
  unfold to_uint. change (2 ^ 32) with 4294967296.
  rewrite Z.mod_small by lia. lia.
Qed.

End Reset.

(** ** The order of the destinations *)

Section RemapOrder.
Context {Ar : Arith} {Defs : MixerDefs}.
Hypothesis Hbits : frac_bits_ok.

(** The destination of an analysis bin, for every bin of the buffer: the
    sum does not wrap. *)
Lemma remap_index_div shiftI k :
  0 <= k <= StftHalfSize -> 0 <= shiftI < 2 ^ 32 ->
  remap_index shiftI k = (k * shiftI + MixerFracHalf) / MixerFracOne.
Proof.
  intros Hk Hshift. unfold remap_index, to_size, size_bits.
  rewrite Z.shiftr_div_pow2 by apply Hbits. rewrite <- MixerFracOne_eq.
  f_equal. apply Z.mod_small.
  pose proof (MixerFracOne_bounds Hbits).
  pose proof (MixerFracHalf_bounds Hbits).
  sizes. change (2 ^ 64) with 18446744073709551616.
  change (2 ^ 32) with 4294967296 in *. change (2 ^ 30) with 1073741824 in *.
  nia.
Qed.

Lemma remap_index_mono shiftI k k' :
  0 <= shiftI < 2 ^ 32 -> 0 <= k <= k' -> k' <= StftHalfSize ->
  remap_index shiftI k <= remap_index shiftI k'.
Proof.
  intros Hshift Hk Hk'. rewrite !remap_index_div by lia.
  pose proof (MixerFracOne_bounds Hbits).
  apply Z.div_le_mono; [lia|nia].
Qed.

Lemma remap_index_strict shiftI k k' :
  MixerFracOne <= shiftI < 2 ^ 32 -> 0 <= k < k' -> k' <= StftHalfSize ->
  remap_index shiftI k < remap_index shiftI k'.
Proof.
  intros Hshift Hk Hk'. pose proof (MixerFracOne_bounds Hbits) as Hone.
  rewrite !remap_index_div by lia.
  apply Z.lt_le_trans
    with ((k * shiftI + MixerFracHalf + 1 * MixerFracOne) / MixerFracOne).
  - rewrite Z.div_add by lia. lia.
  - apply Z.div_le_mono; [lia|nia].
Qed.

Lemma remap_index_zero shiftI :
  0 <= shiftI < 2 ^ 32 -> remap_index shiftI 0 = 0.
Proof.
  intros Hshift. rewrite remap_index_div by (sizes; lia).
  pose proof (MixerFracOne_bounds Hbits).
  pose proof (MixerFracHalf_bounds Hbits).
  rewrite Z.mul_0_l, Z.add_0_l.
  apply Z.div_small. destruct (decide (MixerFracOne = 1)) as [Heq|]; [|lia].
  unfold MixerFracHalf. rewrite Heq. change (Z.shiftr 1 1) with 0. lia.
Qed.

Lemma remap_index_unity k :
  0 <= k <= StftHalfSize -> remap_index MixerFracOne k = k.
Proof.
  intros Hk. pose proof (MixerFracOne_bounds Hbits) as Hone.
  rewrite remap_index_div by (change (2 ^ 32) with 4294967296; lia).
  rewrite Z.add_comm, Z.div_add by lia.
  rewrite Z.div_small; [lia|].
  pose proof (MixerFracHalf_bounds Hbits).
  destruct (decide (MixerFracOne = 1)) as [Heq|]; [|lia].
  unfold MixerFracHalf. rewrite Heq. change (Z.shiftr 1 1) with 0. lia.
Qed.

(** The scan stops at the first bin whose destination is beyond the
    synthesis buffer. *)
Lemma bin_count_tight shiftI n k :
  0 < shiftI < 2 ^ 32 -> bin_count shiftI = Some n ->
  0 <= k <= StftHalfSize ->
  k < n <-> remap_index shiftI k <= StftHalfSize.
Proof.
  intros Hshift Hn Hk. split.
  - intros Hlt. apply (remap_index_bounds Hbits shiftI n k Hn); lia.
  - intros Hj. rewrite remap_index_div in Hj by lia.
    rewrite bin_count_Some in Hn by (done || lia). injection Hn as <-.
    pose proof (MixerFracOne_bounds Hbits) as Hone.
    assert (k * shiftI + MixerFracHalf < 513 * MixerFracOne) as Hlt.
    { destruct (decide (k * shiftI + MixerFracHalf < 513 * MixerFracOne));
        [done|].
      assert (513 <= (k * shiftI + MixerFracHalf) / MixerFracOne);
        [|sizes; lia].
      apply Z.div_le_lower_bound; lia. }
    assert (k <= bin_limit / shiftI); [|sizes; lia].
    apply Z.div_le_lower_bound; [lia|]. rewrite (bin_limit_eq Hbits). lia.
Qed.

(** At a pitch of one or below every analysis bin is scanned. *)
Lemma bin_count_all shiftI :
  0 < shiftI <= MixerFracOne -> bin_count shiftI = Some (StftHalfSize + 1).
Proof.
  intros Hshift. pose proof (MixerFracOne_bounds Hbits) as Hone.
  pose proof (MixerFracHalf_bounds Hbits) as Hhalf.
  rewrite bin_count_Some by (done || lia). f_equal.
  assert (512 <= bin_limit / shiftI); [|sizes; lia].
  apply Z.div_le_lower_bound; [lia|]. rewrite (bin_limit_eq Hbits).
  destruct (decide (MixerFracOne = 1)) as [Heq|]; [|nia].
  unfold MixerFracHalf. rewrite Heq. change (Z.shiftr 1 1) with 0. lia.
Qed.

Lemma scanned_elem shiftI n j k :
  k ∈ scanned shiftI n j <-> (0 <= k < n /\ remap_index shiftI k = j).
Proof.
  unfold scanned. rewrite list_elem_of_filter, elem_of_seqZ. tauto.
Qed.

(** At a pitch of one or above no two analysis bins share a
    destination. *)
Lemma scanned_pitch_up shiftI j n :
  MixerFracOne <= shiftI < 2 ^ 32 -> 0 <= n <= StftHalfSize + 1 ->
  (length (scanned shiftI n j) <= 1)%nat.
Proof.
  intros Hshift [Hn0 Hn]. revert Hn. pattern n.
  apply natlike_ind; [|clear n Hn0|done].
  - intros _. unfold scanned. simpl. lia.
  - intros n Hn0 IH Hn. unfold Z.succ in *. rewrite scanned_snoc by done.
    rewrite length_app. case_decide as Hj; [|simpl; lia].
    destruct (scanned shiftI n j) as [|k l] eqn:Hs; [simpl; lia|].
    assert (k ∈ scanned shiftI n j) as Hk by (rewrite Hs; left).
    apply scanned_elem in Hk as [Hk Hkj].
    pose proof (remap_index_strict shiftI k n Hshift). lia.
Qed.

(** Where every scanned bin is its own destination, a synthesis bin has
    the analysis bin of its index as only contributor. *)
Lemma scanned_identity shiftI j n :
  0 <= n -> (forall k, 0 <= k < n -> remap_index shiftI k = k) ->
  scanned shiftI n j = if decide (0 <= j < n) then [j] else [].
Proof.
  intros Hn0. pattern n. apply natlike_ind; [|clear n Hn0|done].
  - intros _. unfold scanned. simpl. by rewrite decide_False by lia.
  - intros n Hn0 IH Hid. unfold Z.succ in *. rewrite scanned_snoc by done.
    rewrite IH by (intros k Hk; apply Hid; lia).
    rewrite Hid by lia.
    destruct (decide (n = j)) as [->|Hne].
    + rewrite decide_False, decide_True by lia. done.
    + destruct (decide (0 <= j < n)).
      * rewrite decide_True by lia. by rewrite app_nil_r.
      * rewrite decide_False by lia. done.
Qed.

End RemapOrder.

(** * Binary64: silence *)

Section Zeros.
Import Binary64.

Lemma zero_d_finite x : zero_d x -> finite x.
Proof. intros [s Hs]. unfold finite. by rewrite Hs. Qed.

Lemma zero_d_zero : zero_d (d_zero (Ar := arith)).
Proof. exists false. vm_compute. reflexivity. Qed.

Lemma zero_d_mul_l x y : zero_d x -> finite y -> zero_d (d_mul x y).
Proof.
  intros [s Hs]. unfold finite, zero_d.
  change (@d_mul arith) with PrimFloat.mul. rewrite mul_spec, Hs.
  destruct (Prim2SF y) as [sy|sy| |sy my ey]; try done; intros _;
    by eexists.
Qed.

Lemma zero_d_mul_r x y : finite x -> zero_d y -> zero_d (d_mul x y).
Proof.
  intros Hf [s Hs]. revert Hf. unfold finite, zero_d.
  change (@d_mul arith) with PrimFloat.mul. rewrite mul_spec, Hs.
  destruct (Prim2SF x) as [sx|sx| |sx mx ex]; try done; intros _;
    by eexists.
Qed.

Lemma zero_d_add x y : zero_d x -> zero_d y -> zero_d (d_add x y).
Proof.
  intros [sx Hx] [sy Hy]. unfold zero_d.
  change (@d_add arith) with PrimFloat.add. rewrite add_spec, Hx, Hy.
  destruct sx, sy; by eexists.
Qed.

Lemma zero_d_neg x : zero_d x -> zero_d (d_neg x).
Proof.
  intros [s Hs]. unfold zero_d.
  change (@d_neg arith) with PrimFloat.opp. rewrite opp_spec, Hs.
  by eexists.
Qed.

Lemma zero_f_of_d x : zero_d x -> zero_f (f_of_d x).
Proof.
  intros [s Hs]. exists s. change (@f_of_d arith) with b32_of_b64.
  unfold b32_of_b64. by rewrite Hs.
Qed.

Lemma zero_d_of_f y : zero_f y -> zero_d (d_of_f y).
Proof.
  intros [s ->]. exists s. change (@d_of_f arith) with SF2Prim.
  by apply Prim2SF_SF2Prim.
Qed.

Lemma zero_c_conj c : zero_c c -> zero_c (c_conj c).
Proof. intros [Hr Hi]. split; [done|]. by apply zero_d_neg. Qed.

Lemma finite_ola_scale : finite (ola_scale (Ar := arith)).
Proof. by vm_compute. Qed.

Lemma get_replicate {A} (x : A) n i y :
  Arr.get (replicate n x) i = Some y -> y = x.
Proof.
  unfold Arr.get. case_decide; [|done]. by intros [-> _]%lookup_replicate.
Qed.

End Zeros.

Section WindowFinite.
Import Binary64.
Context {Lm : Libm}.
Local Open Scope R_scope.

(** With a sine of magnitude one at most, the values of the window table
    are numbers in [[0, 1]]. *)
Lemma HannWindow_range :
  sin_unit ->
  forall k w, Arr.get HannWindow k = Some w ->
    finite w /\ 0 <= value w <= 1.
Proof.
  intros Hsin k w Hw. pose proof (get_Some_lt _ _ _ Hw) as Hk.
  rewrite HannWindow_length in Hk.
  rewrite HannWindow_get in Hw by (sizes; lia).
  apply (inj Some) in Hw. subst w. unfold hann_value. cbv zeta.
  set (val := d_sin _). destruct (Hsin (d_mul
    (d_add (d_of_Z (Z.min k (StftSize - 1 - k))) d_half)
    (d_div d_pi (d_of_Z StftSize)))) as [Hf Hv].
  fold val in Hf, Hv. apply Rabs_le_inv in Hv.
  change (@d_mul arith val val) with (val * val)%float.
  destruct (mul_R val val Hf Hf) as [Hfw Hr].
  { pose proof (bpow_1023_large 1 ltac:(lia)).
    assert (Rabs (value val * value val) <= 1)
      by (apply Rabs_le; nra). lra. }
  split; [done|].
  apply (rnd_between_Z _ _ 0 1 Hr); [nra|lia|lia].
Qed.

End WindowFinite.

Section Silence.
Import Binary64.
Context {Lm : Libm} {Co : Collaborators} {Defs : MixerDefs}.
Hypothesis Hbits : frac_bits_ok.
Hypothesis Hplace : transforms_in_place.
Hypothesis Hfft : transforms_keep_silence.
Hypothesis Hzero : polar_of_zero.
Hypothesis Hsin : sin_unit.

(** The sum of magnitudes that are zeros is a zero. *)
Lemma sum_magnitudes_zero (bins : list (@FrequencyBin arith)) :
  (forall b, b ∈ bins -> zero_d (Magnitude b)) ->
  zero_d (sum_magnitudes bins).
Proof.
  unfold sum_magnitudes.
  assert (forall (acc : @double arith), zero_d acc ->
            (forall b, b ∈ bins -> zero_d (Magnitude b)) ->
            zero_d (foldl d_add acc (map Magnitude bins))) as Hind.
  { induction bins as [|b bins IH]; intros acc Hacc Hall; simpl; [done|].
    apply IH.
    - apply zero_d_add; [done|]. apply Hall. by left.
    - intros b' Hb'. apply Hall. by right. }
  apply Hind. apply zero_d_zero.
Qed.

(** A cycle on a silent state leaves a silent state. *)
Lemma hop_silent s :
  sized s -> 0 <= mPos s <= StftSize - StftStep ->
  0 < mPitchShiftI s -> silent s ->
  exists s', hop s = Some s' /\ sized s' /\ silent s'.
Proof.
  intros Hs Hpos HP [Hfifo Hacc]. destruct Hs.
  destruct Hfft as [Hfwd Hinv]. destruct Hzero as [Habs Hpolar].
  destruct Hplace as [Hlf Hli].
  unfold hop.
  destruct (window_frame_spec (mFIFO s) (mPos s) (mFftBuffer s))
    as (fft1 & -> & Hl1 & Hw); [sizes; lia|done|done|].
  assert (all_zero_c fft1) as Hz1.
  { intros k c Hc. pose proof (get_Some_lt _ _ _ Hc) as Hk.
    rewrite Hw in Hc by lia. unfold windowed_sample in Hc.
    destruct (Arr.get (mFIFO s) _) as [x|] eqn:Hx; [|done].
    destruct (Arr.get HannWindow k) as [w|] eqn:Hwk; [|done].
    apply (inj Some) in Hc. subst c.
    destruct (HannWindow_range Hsin _ _ Hwk) as [Hfw _].
    split; [|apply zero_d_zero].
    apply zero_d_mul_l; [by apply (Hfifo _ _ Hx)|done]. }
  cbv zeta. set (fft1' := forward_fft fft1).
  assert (all_zero_c fft1') as Hz1' by (by apply Hfwd).
  assert (length fft1' = length (mFftBuffer s)) as Hl1'
    by (unfold fft1'; by rewrite Hlf).
  destruct (analyze_total fft1' (mLastPhase s) (mAnalysisBuffer s))
    as [[last ana] Hana]; [sizes; lia|done|done|].
  rewrite Hana.
  destruct (analyze_inv _ _ _ _ _ Hana) as ((Hll & Hla) & Hlow & _).
  assert (forall k a, Arr.get ana k = Some a -> zero_d (Magnitude a))
    as Hmag.
  { intros k a Ha. pose proof (get_Some_lt _ _ _ Ha) as Hk.
    destruct (Hlow k) as (c & lp & Hc & _ & _ & Hbin); [lia|].
    rewrite Hbin in Ha. apply (inj Some) in Ha. subst a.
    apply Habs. by apply (Hz1' _ _ Hc). }
  destruct (remap_spec Hbits (mPitchShiftI s) (mPitchShift s) ana
              (mSynthesisBuffer s)) as (n & syn & _ & -> & Hlsyn & Hbins);
    [done|lia|done|].
  assert (forall j b, Arr.get syn j = Some b -> zero_d (Magnitude b))
    as Hsmag.
  { intros j b Hb. pose proof (get_Some_lt _ _ _ Hb) as Hj.
    rewrite Hbins in Hb by (sizes; lia). apply (inj Some) in Hb. subst b.
    rewrite merge_magnitude. apply sum_magnitudes_zero.
    intros a Ha. unfold contributors in Ha.
    apply list_elem_of_omap in Ha as (k & _ & Ha). by apply (Hmag k). }
  destruct (synthesize_total syn (mSumPhase s) fft1') as [[sum fft2] Hsy];
    [lia|done|sizes; lia|].
  rewrite Hsy.
  destruct (synthesize_inv _ _ _ _ _ Hsy) as ((Hlsum & Hl2) & Hslow & Hshigh).
  assert (all_zero_c fft2) as Hz2.
  { intros k c Hc. pose proof (get_Some_lt _ _ _ Hc) as Hk.
    destruct (decide (k <= StftHalfSize)).
    - destruct (Hslow k) as (sp & b & _ & Hb & _ & Hf); [lia|].
      rewrite Hf in Hc. apply (inj Some) in Hc. subst c.
      apply Hpolar. by apply (Hsmag _ _ Hb).
    - destruct (Hshigh k) as [_ Hf]; [lia|]. rewrite Hf in Hc.
      by apply (Hz1' _ _ Hc). }
  destruct (mirror_spec fft2)
    as (fft3 & -> & Hl3 & Hmlow & Hmhigh); [lia|].
  assert (all_zero_c fft3) as Hz3.
  { intros k c Hc. pose proof (get_Some_lt _ _ _ Hc) as Hk.
    destruct (decide (k <= StftHalfSize)).
    - rewrite Hmlow in Hc by lia. by apply (Hz2 _ _ Hc).
    - rewrite Hmhigh in Hc by (sizes; lia).
      destruct (Arr.get fft2 (StftSize - k)) as [c'|] eqn:Hc'; [|done].
      simpl in Hc. apply (inj Some) in Hc. subst c.
      apply zero_c_conj. by apply (Hz2 _ _ Hc'). }
  set (fft3' := inverse_fft fft3).
  assert (all_zero_c fft3') as Hz3' by (by apply Hinv).
  assert (length fft3' = length fft3) as Hl3'
    by (unfold fft3'; by rewrite Hli).
  destruct (overlap_add_spec fft3' (mPos s) (mOutputAccum s))
    as (acc & -> & Hlacc & Hacc'); [sizes; lia|lia|done|].
  assert (all_zero acc) as Hacc0.
  { intros d x Hx. pose proof (get_Some_lt _ _ _ Hx) as Hd.
    rewrite Hacc' in Hx by (sizes; lia). unfold accumulated_sample in Hx.
    cbv zeta in Hx.
    destruct (Arr.get (mOutputAccum s) d) as [a|] eqn:Ha; [|done].
    destruct (Arr.get HannWindow _) as [w|] eqn:Hwk; [|done].
    destruct (Arr.get fft3' _) as [c|] eqn:Hc; [|done].
    apply (inj Some) in Hx. subst x.
    destruct (HannWindow_range Hsin _ _ Hwk) as [Hfw _].
    apply zero_d_add; [by apply (Hacc _ _ Ha)|].
    apply zero_d_mul_l; [|apply finite_ola_scale].
    apply zero_d_mul_r; [done|]. by apply (Hz3' _ _ Hc). }
  unfold Arr.copy_n, Arr.fill_n.
  destruct (Arr.slice acc (mPos s) StftStep) as [xs|] eqn:Hxs;
    [|by rewrite slice_is_Some in Hxs by (sizes; lia)].
  pose proof (slice_length _ _ _ _ Hxs) as Hlxs.
  destruct (Arr.blit (mFIFO s) (mPos s) xs) as [fifo|] eqn:Hblit;
    [|by rewrite blit_is_Some in Hblit by (sizes; lia)].
  rewrite decide_True by (by sizes).
  destruct (Arr.blit acc (mPos s) _) as [acc1|] eqn:Hclear;
    [|by rewrite blit_is_Some in Hclear
        by (rewrite ?length_replicate; sizes; lia)].
  eexists. split; [done|]. split.
  - split; fields;
      rewrite ?(blit_length _ _ _ _ Hblit), ?(blit_length _ _ _ _ Hclear),
        ?length_replicate; unfold fft3'; rewrite ?Hli; sizes; lia.
  - split; fields.
    + intros i x Hx. rewrite (blit_get _ _ _ _ i Hblit) in Hx.
      case_decide; [|by apply (Hfifo i)].
      rewrite (slice_get _ _ _ _ _ Hxs) in Hx by lia.
      by apply (Hacc0 _ _ Hx).
    + intros i x Hx. rewrite (blit_get _ _ _ _ i Hclear) in Hx.
      case_decide; [|by apply (Hacc0 i)].
      apply get_replicate in Hx as ->. apply zero_d_zero.
Qed.

(** A pass of the framer over zeros keeps the state silent and sends
    zeros to the output line. *)
Lemma chunk_state_silent s base (xs : list (@float32 arith)) s' :
  chunk_state s base xs = Some s' -> silent s ->
  (forall x, x ∈ xs -> zero_f x) ->
  silent s' /\
  forall i x, Arr.get (mBufferOut s') i = Some x ->
    if decide (base <= i < base + Z.of_nat (length xs)) then zero_f x
    else Arr.get (mBufferOut s) i = Some x.
Proof.
  unfold chunk_state. intros Hrun [Hfifo Hacc] Hxs.
  destruct (Arr.slice (mFIFO s) _ _) as [old|] eqn:Hold; [|done].
  destruct (Arr.blit (mBufferOut s) _ _) as [out|] eqn:Hout; [|done].
  destruct (Arr.blit (mFIFO s) _ _) as [fifo|] eqn:Hblit; [|done].
  injection Hrun as <-. unfold silent. fields.
  pose proof (slice_length _ _ _ _ Hold) as Hlen. split; [split; [|done]|].
  - intros i x Hx. rewrite (blit_get _ _ _ _ i Hblit) in Hx.
    case_decide; [|by apply (Hfifo i)].
    rewrite get_lookup, list_lookup_fmap in Hx by lia.
    destruct (xs !! _) as [y|] eqn:Hy; [|done].
    apply (inj Some) in Hx. subst x.
    apply zero_d_of_f, Hxs. by apply list_elem_of_lookup_2 in Hy.
  - intros i x Hx. rewrite (blit_get _ _ _ _ i Hout) in Hx.
    rewrite length_map, Hlen in Hx. case_decide; [|done].
    rewrite get_lookup, list_lookup_fmap, <- get_lookup in Hx by lia.
    rewrite (slice_get _ _ _ _ _ Hold) in Hx by lia.
    destruct (Arr.get (mFIFO s) _) as [y|] eqn:Hy; [|done].
    apply (inj Some) in Hx. subst x. apply zero_f_of_d.
    by apply (Hfifo _ _ Hy).
Qed.

(** The outer loop on a silent state and a block of zeros. *)
Lemma process_loop_silent samplesToDo
    (samplesIn : list (list (@float32 arith)))
    (in0 : list (@float32 arith)) :
  Arr.get samplesIn 0 = Some in0 ->
  0 <= samplesToDo < 2 ^ 64 ->
  samplesToDo <= Z.of_nat (length in0) ->
  samplesToDo <= BufferLineSize ->
  (forall i x, 0 <= i < samplesToDo -> Arr.get in0 i = Some x -> zero_f x) ->
  forall fuel base s,
    sized s -> cursor_ok s -> pitch_ok s -> silent s ->
    0 <= base <= samplesToDo ->
    (Z.to_nat (samplesToDo - base) < fuel)%nat ->
    (forall i x, 0 <= i < base -> Arr.get (mBufferOut s) i = Some x ->
       zero_f x) ->
    exists s', process_loop fuel samplesToDo samplesIn base s = Some s' /\
               sized s' /\ cursor_ok s' /\ pitch_ok s' /\ silent s' /\
               forall i x, 0 <= i < samplesToDo ->
                 Arr.get (mBufferOut s') i = Some x -> zero_f x.
Proof.
  intros Hin Hn Hlen Hline Hquiet.
  induction fuel as [|fuel IH];
    intros base s Hs Hok Hpitch Hsil Hbase Hfuel Hout; [lia|].
  simpl process_loop.
  case_decide as Hlt.
  2:{ exists s. repeat (split; [done|]). intros i x Hi. apply Hout. lia. }
  destruct Hok as (Hmod & Hpos & Hcount).
  pose proof (todo_bounds s samplesToDo base Hcount) as Htodo.
  set (todo := minz (to_size (StftStep - mCount s))
                    (to_size (samplesToDo - base))) in *.
  assert (todo = Z.min (StftStep - mCount s) (samplesToDo - base)) as Htodo_eq.
  { unfold todo, minz. rewrite !to_size_small by (sizes; lia). done. }
  set (xs := take (Z.to_nat todo) (drop (Z.to_nat base) in0)).
  assert (Z.of_nat (length xs) = todo) as Hxs_len.
  { unfold xs. rewrite length_take, length_drop. lia. }
  assert (Arr.slice in0 base todo = Some xs) as Hslice.
  { apply slice_is_Some; lia. }
  assert (forall x, x ∈ xs -> zero_f x) as Hxs0.
  { intros x [k Hk]%list_elem_of_lookup_1.
    pose proof (lookup_lt_Some _ _ _ Hk) as Hklt.
    apply (Hquiet (base + Z.of_nat k)); [lia|].
    rewrite <- (slice_get _ _ _ _ (Z.of_nat k) Hslice) by lia.
    rewrite get_lookup by lia. by rewrite Nat2Z.id. }
  rewrite (frame_chunk_chunk_state _ _ _ _ _ _ Hin Hslice) by (sizes; lia).
  pose proof (sized_FIFO _ Hs) as Hfifo.
  pose proof (sized_BufferOut _ Hs) as Hbo.
  destruct (chunk_state_total s base xs) as [s1 Hs1]; [sizes; lia..|].
  rewrite Hs1.
  pose proof (chunk_state_sized _ _ _ _ Hs1 Hs) as Hsized1.
  pose proof (chunk_state_pitch _ _ _ _ Hs1) as Hpitch1.
  destruct (chunk_state_silent _ _ _ _ Hs1 Hsil Hxs0) as [Hsil1 Hout1].
  apply chunk_state_fields in Hs1 as (Hp1 & Hc1 & _).
  assert (forall i x, 0 <= i < base + todo ->
            Arr.get (mBufferOut s1) i = Some x -> zero_f x) as Hout1'.
  { intros i x Hi Hx. specialize (Hout1 i x Hx). rewrite Hxs_len in Hout1.
    case_decide; [done|]. apply (Hout i); [lia|done]. }
  case_decide as Hshort.
  - exists s1. split; [done|]. split; [done|].
    split; [unfold cursor_ok; rewrite Hp1; lia|].
    split; [unfold pitch_ok in *; by rewrite Hpitch1|]. split; [done|].
    intros i x Hi. apply Hout1'. lia.
  - destruct (hop_silent (advance s1)) as (s2 & Hhop & Hsized2 & Hsil2).
    + destruct Hsized1. by split.
    + rewrite advance_pos by lia.
      pose proof (step_multiples (mPos s)). sizes. rewrite Hp1. lia.
    + unfold advance, pitch_ok in *; fields. lia.
    + exact Hsil1.
    + rewrite Hhop. rewrite to_size_small by lia.
      pose proof (hop_fields _ _ Hhop) as (Hp2 & Hc2 & Hi2 & _ & Ho2 & _).
      apply IH; [done| | |done|lia|lia|].
      * pose proof (advance_cursor_ok s1) as Hadv. unfold cursor_ok in *.
        rewrite Hp2, Hc2. apply Hadv; [congruence|lia].
      * unfold pitch_ok in *. rewrite Hi2. unfold advance; fields. lia.
      * rewrite Ho2. exact Hout1'.
Qed.

Lemma deviceUpdate_silent s : silent (deviceUpdate s).
Proof.
  unfold silent, deviceUpdate. fields.
  split; intros i x Hx; apply fill_get in Hx as ->; apply zero_d_zero.
Qed.

End Silence.


(** * The claims *)

Section Claims.
Context {Ar : Arith} {Num : AlNumeric} {Lm : Libm} {Co : Collaborators}
        {Defs : MixerDefs}.

(** C1. For every value of the fixed-point pitch, every analysis bin [k]
    the bin remapper scans is mapped to a destination [j] with
    [0 <= j <= StftHalfSize]; and for every value but zero the number of
    scanned bins is defined and the remapping loop meets no access out of
    bounds: it returns. *)
Theorem remap_destination_in_bounds shiftI shift ana syn :
  frac_bits_ok -> 0 <= shiftI < 2 ^ 32 ->
  Z.of_nat (length ana) = StftHalfSize + 1 ->
  Z.of_nat (length syn) = StftHalfSize + 1 ->
  (forall n k, bin_count shiftI = Some n -> 0 <= k < n ->
     0 <= remap_index shiftI k <= StftHalfSize) /\
  (shiftI <> 0 ->
   is_Some (bin_count shiftI) /\ is_Some (remap shiftI shift ana syn)).
Proof.
  intros Hbits Hshift Hana Hsyn. split.
  - intros n k Hn Hk. apply (remap_index_bounds Hbits shiftI n k Hn); lia.
  - intros Hne.
    destruct (remap_spec Hbits shiftI shift ana syn)
      as (n & syn' & Hn & Hrun & _); [lia|done|done|].
    by rewrite Hn, Hrun.
Qed.

(** C6. The parameter update leaves the ring buffer, the spectral
    buffer, both phase memories, the output accumulator, the analysis and
    synthesis bins, the cursor, the counter, the current gains and the
    output line as they were: it writes the two pitch fields, the output
    target and the target gains and nothing else. *)
Theorem update_frame s slot props target :
  let s' := update s slot props target in
  mFIFO s' = mFIFO s /\ mFftBuffer s' = mFftBuffer s /\
  mLastPhase s' = mLastPhase s /\ mSumPhase s' = mSumPhase s /\
  mOutputAccum s' = mOutputAccum s /\
  mAnalysisBuffer s' = mAnalysisBuffer s /\
  mSynthesisBuffer s' = mSynthesisBuffer s /\
  mPos s' = mPos s /\ mCount s' = mCount s /\
  mCurrentGains s' = mCurrentGains s /\ mBufferOut s' = mBufferOut s.
Proof. unfold update. fields. repeat split. Qed.

(** C7. After a reset every buffer is zero throughout, at its old
    length; the counter is 0, the cursor is [StftSize - StftStep], the
    pitch is one in both of its forms, and all gains are zero. *)
Theorem deviceUpdate_resets s :
  frac_bits_ok ->
  let s' := deviceUpdate s in
  mFIFO s' = replicate (length (mFIFO s)) d_zero /\
  mLastPhase s' = replicate (length (mLastPhase s)) d_zero /\
  mSumPhase s' = replicate (length (mSumPhase s)) d_zero /\
  mOutputAccum s' = replicate (length (mOutputAccum s)) d_zero /\
  mFftBuffer s' = replicate (length (mFftBuffer s)) (Complex d_zero d_zero) /\
  mAnalysisBuffer s'
  = replicate (length (mAnalysisBuffer s))
      {| Magnitude := d_zero; FreqBin := d_zero |} /\
  mSynthesisBuffer s'
  = replicate (length (mSynthesisBuffer s))
      {| Magnitude := d_zero; FreqBin := d_zero |} /\
  mCount s' = 0 /\ mPos s' = StftSize - StftStep /\
  mPitchShiftI s' = MixerFracOne /\ mPitchShift s' = d_of_Z 1 /\
  mCurrentGains s' = replicate (length (mCurrentGains s)) (f_of_Z 0) /\
  mTargetGains s' = replicate (length (mTargetGains s)) (f_of_Z 0).
Proof.
  intros Hbits. unfold deviceUpdate. fields. repeat split.
  unfold to_uint. apply Z.mod_small.
  pose proof (MixerFracOne_bounds Hbits). lia.
Qed.

(** The outer loop reads its input through the first channel line only. *)
Lemma process_loop_first_channel fuel samplesToDo in1 in2 base s :
  Arr.get in1 0 = Arr.get in2 0 ->
  process_loop fuel samplesToDo in1 base s
  = process_loop fuel samplesToDo in2 base s.
Proof.
  intros Hin. revert base s. induction fuel as [|fuel IH]; intros base s;
    simpl; [done|].
  case_decide; [|done]. unfold frame_chunk. rewrite Hin.
  repeat (case_match; try done).
Qed.

(** C8. [process] is a function of the state, the sample count, the
    output buffers and the first input channel line: two calls that agree
    on these return the same state and the same output, whatever the
    other input channel lines hold. *)
Theorem process_first_channel_only samplesToDo in1 in2 samplesOut s :
  Arr.get in1 0 = Arr.get in2 0 ->
  process samplesToDo in1 samplesOut s = process samplesToDo in2 samplesOut s.
Proof.
  intros Hin. unfold process.
  by rewrite (process_loop_first_channel _ _ in1 in2).
Qed.

(** C10. The cursor is a multiple of the step between 0 and
    [StftSize - StftStep] and the counter is below the step: after a
    reset, after a parameter update of a state where it holds, and after
    a call of [process] on a state where it holds. In such a state the
    positions [mPos + mCount + i] of one pass of the framer, for [i]
    below the number of samples of the pass, are below [StftSize]. *)
Theorem cursor_invariant :
  (forall s, cursor_ok (deviceUpdate s)) /\
  (forall s slot props target,
     cursor_ok s -> cursor_ok (update s slot props target)) /\
  (forall s samplesToDo samplesIn samplesOut s' out,
     cursor_ok s ->
     process samplesToDo samplesIn samplesOut s = Some (s', out) ->
     cursor_ok s') /\
  (forall s samplesToDo base i,
     cursor_ok s ->
     0 <= i < minz (to_size (StftStep - mCount s))
                   (to_size (samplesToDo - base)) ->
     0 <= mPos s + mCount s + i < StftSize).
Proof.
  split; [|split; [|split]].
  - intros s. unfold cursor_ok, deviceUpdate. fields.
    rewrite to_size_small by (sizes; lia). sizes. split; [done|lia].
  - intros s slot props target Hok. exact Hok.
  - intros s samplesToDo samplesIn samplesOut s' out Hok. unfold process.
    intros Hrun. open_do Hrun. injection Hrun as <- <-.
    match goal with H : process_loop _ _ _ _ _ = Some _ |- _ =>
      apply process_loop_cursor_ok in H; [|done]; exact H end.
  - intros s samplesToDo base i (Hmod & Hpos & Hcount) Hi.
    pose proof (todo_bounds s samplesToDo base Hcount). sizes. lia.
Qed.

(** C5. On a well-formed state with a pitch that is not zero, with
    transforms that work in place, [process] returns on every block the
    host may hand over, and it is the framer run sample by sample: each
    input sample sends the content of the ring buffer at cursor plus
    counter to the output line, takes its place and advances the counter,
    and the sample that fills the step resets the counter, moves the
    cursor on by one step modulo [StftSize] and runs one cycle. A cycle
    returns on every well-formed state, and it ends by copying the
    [StftStep] samples of the accumulator from the cursor on into the
    ring buffer and by zeroing these [StftStep] slots of the accumulator
    and no others. *)
Theorem framer_sample_by_sample samplesToDo samplesIn samplesOut in0 s :
  frac_bits_ok -> transforms_in_place ->
  Arr.get samplesIn 0 = Some in0 ->
  0 <= samplesToDo < 2 ^ 64 ->
  samplesToDo <= Z.of_nat (length in0) ->
  samplesToDo <= BufferLineSize ->
  sized s -> cursor_ok s -> pitch_ok s ->
  (exists s' out,
     process samplesToDo samplesIn samplesOut s = Some (s', out) /\
     process_by_sample samplesToDo samplesIn samplesOut s
     = Some (s', out)) /\
  (forall t, cursor_ok t ->
     mCount (advance t) = 0 /\
     mPos (advance t) = (mPos t + StftStep) mod StftSize) /\
  (forall t, sized t -> 0 <= mPos t <= StftSize - StftStep ->
     0 < mPitchShiftI t ->
     exists t' fft acc,
       hop t = Some t' /\
       overlap_add fft (mPos t) (mOutputAccum t) = Some acc /\
       (forall i, Arr.get (mFIFO t') i
                  = if decide (mPos t <= i < mPos t + StftStep)
                    then Arr.get acc i else Arr.get (mFIFO t) i) /\
       (forall i, Arr.get (mOutputAccum t') i
                  = if decide (mPos t <= i < mPos t + StftStep)
                    then Some d_zero else Arr.get acc i)).
Proof.
  intros Hbits Hfft Hin Hn Hlen Hline Hs Hok Hp.
  assert (framer_ok s) as Hframer.
  { split; [done|]. split; [apply (sized_FIFO _ Hs)|].
    apply (sized_BufferOut _ Hs). }
  split; [|split].
  - destruct (process_total Hbits Hfft samplesToDo samplesIn samplesOut
                in0 s Hin Hn Hlen Hline Hs Hok Hp)
      as (s' & out & Hrun & _).
    exists s', out. split; [done|]. rewrite <- Hrun.
    unfold process, process_by_sample. rewrite Hin.
    rewrite (process_loop_refines _ _ _ Hin Hn Hlen Hline) by (done || lia).
    by rewrite Z.sub_0_r, drop_0.
  - intros t (_ & Hpos & _). split; [done|]. by apply advance_pos.
  - intros t Ht Hpos Hpitch.
    destruct (hop_total Hbits Hfft t Ht Hpos Hpitch) as (t' & Hhop & _).
    destruct (hop_copy_out t t' Hhop) as (fft & acc & Hacc & Hfifo & Hzero).
    by exists t', fft, acc.
Qed.

End Claims.
(** * The numerical claims, in binary64 *)

Section Binary64Contracts.
Import Binary64.
Context {Lm : Libm} {Co : Collaborators} {Defs : MixerDefs}.
Local Open Scope R_scope.

(** C3. In binary64, with a [std::arg] that returns principal values, on
    arrays of the lengths of the effect and last phases of magnitude pi
    at most, the analysis loop returns, and for every bin [k] up to
    [StftHalfSize] it leaves the phase measured now, unfolded, in the
    last phase of the bin, and in the analysis bin the magnitude of the
    spectrum value and the frequency [k + w * (0.5 * R)], where [w] is
    the wrap of the deviation [x]: the phase less the last phase, less
    the advance [(k mod R) * (2 pi / R)] expected of the bin, times
    [1/pi], which is that difference divided by pi up to an error of
    [2^-47 / pi]. The wrap is exact: [w] is the fold [x - 2 round(x/2)] of [x],
    with [round] rounding ties away from zero, and the frequency stored
    is [k + 0.5 R (x - 2 round(x/2))] rounded once. The fold is in
    [[-1, 1]] for every real number. *)
Theorem analyzer_contract fft last ana :
  arg_principal ->
  Z.of_nat (length fft) = StftSize ->
  Z.of_nat (length last) = (StftHalfSize + 1)%Z ->
  Z.of_nat (length ana) = (StftHalfSize + 1)%Z ->
  phases_within (value d_pi) last ->
  (forall x, -1 <= fold_unit x <= 1) /\
  exists last' ana',
    analyze fft last ana = Some (last', ana') /\
    forall k, (0 <= k <= StftHalfSize)%Z ->
      exists c lp,
        Arr.get fft k = Some c /\ Arr.get last k = Some lp /\
        Arr.get last' k = Some (c_arg c) /\
        let x := phase_deviation k (c_arg c) lp in
        let w := wrap_unit x in
        let freq := d_add (d_of_Z k)
                      (d_mul w (d_mul d_half (d_of_Z OversampleFactor))) in
        Arr.get ana' k = Some {| Magnitude := c_abs c; FreqBin := freq |} /\
        finite x /\
        Rabs (value x * value d_pi
              - (value (c_arg c) - value lp
                 - IZR (k mod OversampleFactor)
                   * (2 * value d_pi / IZR OversampleFactor)))
        <= / 140737488355328 /\
        finite w /\ value w = fold_unit (value x) /\
        finite freq /\
        rnd (IZR k + 1 / 2 * IZR OversampleFactor * fold_unit (value x))
          (value freq).
Proof.
  intros Harg Hfft Hlast Hana Hwithin. split; [apply fold_unit_range|].
  pose proof value_pi_bounds as Hpi.
  destruct (analyze_total fft last ana) as [[last' ana'] Hrun];
    [sizes; lia|done|done|].
  exists last', ana'. split; [done|]. intros k Hk.
  destruct (analyze_inv _ _ _ _ _ Hrun) as (_ & Hlow & _).
  destruct (Hlow k Hk) as (c & lp & Hc & Hlp & Hl & Hbin).
  exists c, lp. split; [done|]. split; [done|]. split; [done|].
  destruct (Harg c) as [Hfc Hvc]. destruct (Hwithin k lp Hlp) as [Hfl Hvl].
  destruct (phase_deviation_R k (c_arg c) lp) as (Hfx & Hbx & Hdev);
    [lia|done|lra|done|lra|].
  destruct (wrap_unit_R _ Hfx ltac:(lra)) as [Hfw Hvw].
  destruct (bin_frequency_R k (c_arg c) lp) as (Hf & Hr & _);
    [change StftHalfSize with 512%Z in Hk;
     change (2 ^ 30)%Z with 1073741824%Z; lia|done|lra|done|lra|].
  cbv zeta. split; [exact Hbin|]. split; [done|]. split; [exact Hdev|].
  split; [done|]. split; [done|]. split; [exact Hf|].
  change OversampleFactor with 4%Z.
  replace (1 / 2 * 4) with 2 by lra. exact Hr.
Qed.

(** C4, amended to the rounding of binary64. With two fractional bits
    of the mixer or more and a [std::arg] that returns principal values,
    in every state the effect reaches from a reset, by any calls of
    [process] and any parameter updates, every accumulated phase is a
    number within [2^-19] of the interval [[-pi, pi]], with [pi] the
    constant of the code. *)
Theorem sum_phase_within_rounding s :
  frac_bits_two -> arg_principal -> reachable s ->
  forall k x, Arr.get (mSumPhase s) k = Some x ->
    finite x /\ Rabs (value x) <= value d_pi + / 524288.
Proof.
  intros Hbits Harg Hreach.
  destruct (reachable_phase_inv Hbits Harg s Hreach) as (_ & Hsum & _).
  exact Hsum.
Qed.

(** C9. The update adds the tunings to
    [cents = CoarseTune * 100 + FineTune], computes the pitch
    [pow(2, cents / 1200)] and its product with [MixerFracOne] in
    binary32, and stores as fixed-point pitch the conversion of the
    product by [fastf2u]: an integer within a half of the product, where
    the product is not negative and below [2^31 - 1]. The floating pitch it
    stores is that integer over [MixerFracOne], without error. *)
Theorem update_pitch_of_tuning s slot props target :
  frac_bits_ok ->
  let cents := (CoarseTune props * 100 + FineTune props)%Z in
  let scaled :=
    f_mul (f_pow (f_of_Z 2) (f_div (f_of_Z cents) (f_of_Z 1200)))
      (f_of_Z MixerFracOne) in
  let s' := update s slot props target in
  mPitchShiftI s' = to_uint (fastf2u scaled) /\
  (0 <= mPitchShiftI s' < 2 ^ 32)%Z /\
  (SF_finite scaled -> 0 <= SF2R scaled < 2147483647 ->
   Rabs (IZR (mPitchShiftI s') - SF2R scaled) <= 1 / 2) /\
  finite (mPitchShift s') /\
  value (mPitchShift s') = IZR (mPitchShiftI s') / IZR MixerFracOne.
Proof.
  intros Hbits cents scaled s'.
  assert (mPitchShiftI s' = to_uint (fastf2u scaled)) as HI by done.
  assert (0 <= mPitchShiftI s' < 2 ^ 32)%Z as HP.
  { rewrite HI. unfold to_uint. apply Z.mod_pos_bound. lia. }
  split; [done|]. split; [done|]. split.
  - intros Hfin [Hs0 Hs1]. rewrite HI.
    change (fastf2u scaled) with (to_uint (to_int (nearest scaled))).
    destruct (nearest_R scaled Hfin) as (z & -> & Hz & Hz0).
    specialize (Hz0 Hs0).
    assert (z < 2147483648)%Z as Hz1.
    { apply lt_IZR. apply Rabs_le_inv in Hz. lra. }
    rewrite to_int_small by (change (2 ^ 31)%Z with 2147483648%Z; lia).
    unfold to_uint. rewrite Z.mod_mod by lia.
    rewrite Z.mod_small; [done|].
    change (2 ^ 32)%Z with 4294967296%Z. lia.
  - apply (pitch_value _ Hbits HP).
Qed.

End Binary64Contracts.

Section Binary64Claims.
Import Binary64 Standin.

(** The wrap of the analyzer on binary64 numbers: the quotient is moved
    to the even integer away from zero, and the difference is exact. *)
Example wrap_unit_binary64 :
  map wrap_unit [0.75; 1; 2.5; 3; -1; -1.5; -3.5]%float
  = [0.75; -1; 0.5; -1; 1; 0.5; 0.5]%float.
Proof. vm_compute. reflexivity. Qed.

(** The floating form of a fixed-point pitch is the quotient by
    [MixerFracOne]: [31835 / 65536] here. *)
Example low_pitch_binary64 : low_pitch = 0.4857635498046875%float.
Proof. vm_compute. reflexivity. Qed.

(** C2. At the lowest pitch the effect is given, the analysis bins 34, 35
    and 36 are the bins mapped to the synthesis bin 17. With magnitudes 3,
    2 and 4 in them, the remapper leaves in bin 17 the magnitude
    [3 + 2 + 4] and the frequency of bin 34 scaled by the pitch. The
    magnitude 4 of bin 36 is the largest of the three, but it is compared
    with the sum [3 + 2] of the magnitudes before it, which it does not
    exceed, and the frequency of bin 36 is not taken. *)
Theorem remap_three_partials_keeps_first :
  scanned low_pitchI 513 17 = [34; 35; 36]%Z /\
  remapped low_pitchI low_pitch three_partials 17
  = Some (of_Z 9, d_mul (of_Z 34) low_pitch) /\
  d_gt (of_Z 4) (of_Z 3) = true /\ d_gt (of_Z 4) (of_Z 2) = true /\
  d_gt (of_Z 4) (d_add (of_Z 3) (of_Z 2)) = false /\
  d_gt (d_mul (of_Z 36) low_pitch) (d_mul (of_Z 34) low_pitch) = true.
Proof. repeat split; vm_compute; reflexivity. Qed.

(** C4, as it is stated. The wrap of the resynthesizer leaves the
    interval: from the reset state, with a
    partial of phase pi in bin 22, the analyzer finds the frequency 22,
    the remapper keeps it at the pitch of one, and the resynthesizer
    stores [-3.1415926535897967] as accumulated phase of the bin, which is
    below [-pi]. The product [tmp * inv_pi] rounds to 11 for a [tmp]
    that is below [11 pi], and [12 pi] is taken off where [10 pi] is
    due. *)
Lemma sum_phase_leaves_range_binary64 :
  bin_frequency 22 d_pi (of_Z 0) = of_Z 22 /\
  resynthesized_phase one_partial 22
  = Some (advance_phase (of_Z 0) (of_Z 22)) /\
  advance_phase (of_Z 0) (of_Z 22) = (-0x1.921fb54442d20p+1)%float /\
  d_gt (d_neg d_pi) (advance_phase (of_Z 0) (of_Z 22)) = true.
Proof. repeat split; vm_compute; reflexivity. Qed.

End Binary64Claims.
(** * Further properties of the code *)

Section WindowProperties.
Context {Ar : Arith} {Num : AlNumeric} {Lm : Libm} {Co : Collaborators}
        {Defs : MixerDefs}.

(** X1. [InitHannWindow] writes every slot of the table it returns, which
    the source declares without an initial value: the lower half holds
    the squared sines of the passes [0] to [StftHalfSize - 1] in order
    and the upper half holds them in reverse order, so the table has
    [StftSize] slots and is the same read from either end. *)
Theorem HannWindow_table :
  HannWindow = hann_half ++ reverse hann_half /\
  Z.of_nat (length HannWindow) = StftSize /\
  (forall k, 0 <= k < StftSize ->
     Arr.get HannWindow k
     = Some (hann_value (Z.min k (StftSize - 1 - k)))) /\
  (forall k, 0 <= k < StftSize ->
     Arr.get HannWindow (StftSize - 1 - k) = Arr.get HannWindow k).
Proof.
  split; [apply HannWindow_halves|]. split; [apply HannWindow_length|].
  split; [apply HannWindow_get|]. intros k Hk.
  rewrite !HannWindow_get by lia. do 2 f_equal. lia.
Qed.

(** X3. On a ring buffer and an FFT buffer of [StftSize] slots the two
    windowing loops return, and they fill the whole FFT buffer with the
    frame that starts at the cursor and wraps at the end of the ring
    buffer: slot [k] gets the sample at [(pos + k) mod StftSize] times
    the window value [k], as a real number. Nothing of the old contents
    of the FFT buffer is left. *)
Theorem window_frame_rotation fifo pos fft :
  0 <= pos <= StftSize ->
  Z.of_nat (length fifo) = StftSize -> Z.of_nat (length fft) = StftSize ->
  exists fft',
    window_frame fifo pos fft = Some fft' /\ length fft' = length fft /\
    forall k, 0 <= k < StftSize ->
      exists x w,
        Arr.get fifo ((pos + k) mod StftSize) = Some x /\
        Arr.get HannWindow k = Some w /\
        Arr.get fft' k = Some (Complex (d_mul x w) d_zero).
Proof.
  intros Hpos Hfifo Hfft.
  destruct (window_frame_spec fifo pos fft Hpos Hfifo Hfft)
    as (fft' & Hrun & Hlen & Hall).
  exists fft'. split; [done|]. split; [done|]. intros k Hk.
  rewrite (Hall k Hk). unfold windowed_sample.
  pose proof (Z.mod_pos_bound (pos + k) StftSize ltac:(by sizes)).
  destruct (get_is_Some fifo ((pos + k) mod StftSize)) as [x ->]; [lia|].
  destruct (HannWindow_is_Some k Hk) as [w ->].
  by exists x, w.
Qed.

(** X4. On an FFT buffer and an accumulator of [StftSize] slots the two
    overlap-add loops return, and they add one sample of the frame to
    every slot of the accumulator, the first sample of the frame to the
    slot of the cursor: slot [dst] gains the window value [k] times the
    real part of the FFT buffer at [k] times [4 / OversampleFactor /
    StftSize], for [k = (dst - pos) mod StftSize]. *)
Theorem overlap_add_rotation fft pos acc :
  0 <= pos <= StftSize ->
  Z.of_nat (length fft) = StftSize -> Z.of_nat (length acc) = StftSize ->
  exists acc',
    overlap_add fft pos acc = Some acc' /\ length acc' = length acc /\
    forall dst, 0 <= dst < StftSize ->
      exists a w c,
        Arr.get acc dst = Some a /\
        Arr.get HannWindow ((dst - pos) mod StftSize) = Some w /\
        Arr.get fft ((dst - pos) mod StftSize) = Some c /\
        Arr.get acc' dst
        = Some (d_add a (d_mul (d_mul w (real c)) ola_scale)).
Proof.
  intros Hpos Hfft Hacc.
  destruct (overlap_add_spec fft pos acc Hpos Hfft Hacc)
    as (acc' & Hrun & Hlen & Hall).
  exists acc'. split; [done|]. split; [done|]. intros dst Hdst.
  rewrite (Hall dst Hdst). unfold accumulated_sample. cbv zeta.
  pose proof (Z.mod_pos_bound (dst - pos) StftSize ltac:(by sizes)).
  destruct (get_is_Some acc dst) as [a ->]; [lia|].
  destruct (HannWindow_is_Some ((dst - pos) mod StftSize)) as [w ->];
    [lia|].
  destruct (get_is_Some fft ((dst - pos) mod StftSize)) as [c ->]; [lia|].
  by exists a, w, c.
Qed.

(** X5. On an FFT buffer of [StftSize] slots the mirroring loop returns;
    it leaves the bins [0] to [StftHalfSize] as they are and writes to
    every bin [k] above the conjugate of the bin [StftSize - k], so the
    spectrum handed to the inverse transform has conjugate symmetry
    between its halves. *)
Theorem mirror_conjugates fft :
  Z.of_nat (length fft) = StftSize ->
  exists fft',
    mirror fft = Some fft' /\ length fft' = length fft /\
    (forall k, 0 <= k <= StftHalfSize -> Arr.get fft' k = Arr.get fft k) /\
    (forall k, StftHalfSize < k < StftSize ->
       exists c, Arr.get fft (StftSize - k) = Some c /\
                 Arr.get fft' (StftSize - k) = Some c /\
                 Arr.get fft' k = Some (Complex (real c) (d_neg (imag c)))).
Proof.
  intros Hfft.
  destruct (mirror_spec fft Hfft) as (fft' & Hrun & Hlen & Hlow & Hhigh).
  exists fft'. split; [done|]. split; [done|]. split; [done|].
  intros k Hk.
  destruct (get_is_Some fft (StftSize - k)) as [c Hc]; [sizes; lia|].
  exists c. split; [done|].
  split; [by rewrite (Hlow (StftSize - k)) by (sizes; lia)|].
  by rewrite (Hhigh k Hk), Hc.
Qed.

(** X6. On arrays of the lengths of the effect the resynthesis loop
    returns, and for every bin [k] up to [StftHalfSize] it stores as
    accumulated phase the old phase advanced by the frequency of the
    synthesis bin and wrapped, and as spectrum value the polar form of
    the magnitude of the synthesis bin and this phase. The bins of the
    FFT buffer above [StftHalfSize] are left for the mirroring loop. *)
Theorem resynthesizer_contract syn sum fft :
  Z.of_nat (length syn) = StftHalfSize + 1 ->
  Z.of_nat (length sum) = StftHalfSize + 1 ->
  Z.of_nat (length fft) = StftSize ->
  exists sum' fft',
    synthesize syn sum fft = Some (sum', fft') /\
    length sum' = length sum /\ length fft' = length fft /\
    (forall k, 0 <= k <= StftHalfSize ->
       exists sp b,
         Arr.get sum k = Some sp /\ Arr.get syn k = Some b /\
         Arr.get sum' k = Some (advance_phase sp (FreqBin b)) /\
         Arr.get fft' k
         = Some (c_polar (Magnitude b) (advance_phase sp (FreqBin b)))) /\
    (forall k, StftHalfSize < k -> Arr.get fft' k = Arr.get fft k).
Proof.
  intros Hsyn Hsum Hfft.
  destruct (synthesize_total syn sum fft) as [[sum' fft'] Hrun];
    [done|done|sizes; lia|].
  destruct (synthesize_inv _ _ _ _ _ Hrun) as ((Hls & Hlf) & Hlow & Hhigh).
  exists sum', fft'. split; [done|]. split; [done|]. split; [done|].
  split; [done|]. intros k Hk. by apply Hhigh.
Qed.

End WindowProperties.

Section BlockProperties.
Context {Ar : Arith} {Num : AlNumeric} {Lm : Libm} {Co : Collaborators}
        {Defs : MixerDefs}.

(** X7. A call of [process] that returns leaves the counter and the
    cursor where the number of samples puts them: the counter is
    [(mCount + samplesToDo) mod StftStep], and the cursor has moved on by
    one step, modulo [StftSize], for each of the
    [(mCount + samplesToDo) / StftStep] steps the call has filled, each
    of which ran one cycle. *)
Theorem process_block_counters samplesToDo samplesIn samplesOut s s' out :
  cursor_ok s -> 0 <= samplesToDo < 2 ^ 64 ->
  process samplesToDo samplesIn samplesOut s = Some (s', out) ->
  mCount s' = (mCount s + samplesToDo) mod StftStep /\
  mPos s'
  = (mPos s + StftStep * ((mCount s + samplesToDo) / StftStep))
    mod StftSize.
Proof.
  intros Hok Hn Hrun.
  apply process_Some in Hrun as (u & Hloop & Hdsp & _).
  assert (mCount s' = mCount u /\ mPos s' = mPos u) as [-> ->]
    by (by injection Hdsp).
  destruct (process_loop_block _ _ _ _ _ _ Hloop Hok ltac:(lia) ltac:(lia))
    as (_ & Hc & Hp & _).
  rewrite Z.sub_0_r in Hc, Hp. done.
Qed.

(** X8. On a well-formed state with a pitch that is not zero, with
    transforms that keep the length of their buffer, a call of [process]
    for at least one sample returns if and only if there is a first
    input line, it holds [samplesToDo] samples, and [samplesToDo] is at
    most [BufferLineSize]; every other call reads or writes beyond an
    array. *)
Theorem process_returns_iff samplesToDo samplesIn samplesOut s :
  frac_bits_ok -> transforms_in_place ->
  sized s -> cursor_ok s -> pitch_ok s -> 0 < samplesToDo < 2 ^ 64 ->
  is_Some (process samplesToDo samplesIn samplesOut s) <->
  (exists in0, Arr.get samplesIn 0 = Some in0 /\
               samplesToDo <= Z.of_nat (length in0)) /\
  samplesToDo <= BufferLineSize.
Proof.
  intros Hbits Hfft Hs Hok Hpitch Hn. split.
  - intros [[s' out] Hrun].
    apply process_Some in Hrun as (u & Hloop & _).
    destruct (process_loop_block _ _ _ _ _ _ Hloop Hok ltac:(lia) ltac:(lia))
      as (Hfit & _).
    destruct Hfit as [Hin Hout]; [lia|].
    rewrite (sized_BufferOut _ Hs) in Hout. done.
  - intros [(in0 & Hin & Hlen) Hline].
    destruct (process_total Hbits Hfft samplesToDo samplesIn samplesOut
                in0 s) as (s' & out & -> & _); done || lia.
Qed.

(** X9. The samples a call of [process] emits before the first step is
    full were in the ring buffer before the call, from cursor plus
    counter on: the input of the call does not reach them. The call
    leaves the output line beyond [samplesToDo] as it was. *)
Theorem process_emits_ring_buffer
    samplesToDo samplesIn samplesOut s s' out :
  cursor_ok s -> 0 <= samplesToDo < 2 ^ 64 ->
  process samplesToDo samplesIn samplesOut s = Some (s', out) ->
  length (mBufferOut s') = length (mBufferOut s) /\
  (forall i, 0 <= i < Z.min (StftStep - mCount s) samplesToDo ->
     Arr.get (mBufferOut s') i
     = f_of_d <$> Arr.get (mFIFO s) (mPos s + mCount s + i)) /\
  (forall i, samplesToDo <= i ->
     Arr.get (mBufferOut s') i = Arr.get (mBufferOut s) i).
Proof.
  intros Hok Hn Hrun.
  apply process_Some in Hrun as (u & Hloop & _ & -> & _).
  destruct (process_loop_block _ _ _ _ _ _ Hloop Hok ltac:(lia) ltac:(lia))
    as (_ & _ & _ & Hlen & Hkeep & Hfirst).
  split; [done|]. split.
  - intros i Hi. rewrite Hfirst by lia. do 2 f_equal. lia.
  - intros i Hi. apply Hkeep. lia.
Qed.

(** X10. A call of [process] that returns has written neither form of
    the pitch, nor the target gains, nor the output target: what [update]
    sets stays as it is set. *)
Theorem process_keeps_parameters samplesToDo samplesIn samplesOut s s' out :
  process samplesToDo samplesIn samplesOut s = Some (s', out) ->
  mPitchShiftI s' = mPitchShiftI s /\ mPitchShift s' = mPitchShift s /\
  mTargetGains s' = mTargetGains s /\ mOutTarget s' = mOutTarget s.
Proof.
  intros Hrun.
  apply process_Some in Hrun as (u & Hloop & Hdsp & _ & Hg & Ht & _).
  destruct (process_loop_parameters _ _ _ _ _ _ Hloop)
    as (Hi & Hf & Hg' & _ & Ht').
  assert (mPitchShiftI s' = mPitchShiftI u /\ mPitchShift s' = mPitchShift u)
    as [-> ->] by (by injection Hdsp).
  by rewrite Hg, Ht.
Qed.

(** X11. A block handed over in two calls leaves the signal path, that
    is every field but the output line, the gains and the output target,
    in the state in which the same block handed over in one call leaves
    it: the cycles do not depend on how the host cuts the signal into
    blocks. *)
Theorem process_split samplesIn samplesIn' in0 out1 out2 out3 n1 n2
    s s1 o1 s2 o2 s12 o12 :
  framer_ok s ->
  Arr.get samplesIn 0 = Some in0 ->
  Arr.get samplesIn' 0 = Some (drop (Z.to_nat n1) in0) ->
  0 <= n1 -> 0 <= n2 -> n1 + n2 < 2 ^ 64 ->
  process n1 samplesIn out1 s = Some (s1, o1) ->
  process n2 samplesIn' out2 s1 = Some (s2, o2) ->
  process (n1 + n2) samplesIn out3 s = Some (s12, o12) ->
  dsp_state s2 = dsp_state s12.
Proof. apply process_split_dsp. Qed.

(** X12. With a fixed-point pitch of zero, every call of [process] that
    fills a step divides by zero in the bin remapper: [process] has no
    defined result. *)
Theorem process_zero_pitch samplesToDo samplesIn samplesOut s :
  cursor_ok s -> mPitchShiftI s = 0 ->
  StftStep - mCount s <= samplesToDo < 2 ^ 64 ->
  process samplesToDo samplesIn samplesOut s = None.
Proof.
  intros Hok Hzero Hn. unfold process.
  by rewrite process_loop_zero_pitch.
Qed.

(** X24. A call of [process] for no sample returns in every state and
    for every input, even one without a line: it leaves the signal path
    and the output line as they are and hands the mixer an empty line
    and the counter 512. *)
Theorem process_empty_block samplesIn samplesOut s :
  exists s' out,
    process 0 samplesIn samplesOut s = Some (s', out) /\
    dsp_state s' = dsp_state s /\ mBufferOut s' = mBufferOut s /\
    (out, mCurrentGains s')
    = MixSamples [] samplesOut (mCurrentGains s) (mTargetGains s) 512 0.
Proof.
  unfold process. simpl process_loop. cbv beta iota.
  rewrite slice_is_Some by lia.
  change (take (Z.to_nat 0) (drop (Z.to_nat 0) (mBufferOut s)))
    with (@nil float32).
  change (maxz 0 512) with 512.
  destruct (MixSamples _ _ _ _ _ _) as [out gains].
  eexists _, out. done.
Qed.

(** X23. A reset of a reset state changes nothing, and a reset writes
    neither the output line nor the output target. The state after a
    reset has the array lengths of the state before it, its cursor and
    counter are those of the framer, and its pitch is not zero. *)
Theorem deviceUpdate_idempotent s :
  deviceUpdate (deviceUpdate s) = deviceUpdate s /\
  mBufferOut (deviceUpdate s) = mBufferOut s /\
  mOutTarget (deviceUpdate s) = mOutTarget s /\
  cursor_ok (deviceUpdate s) /\
  (sized s -> sized (deviceUpdate s)) /\
  (frac_bits_ok -> pitch_ok (deviceUpdate s)).
Proof.
  split; [apply deviceUpdate_twice|]. split; [done|]. split; [done|].
  split; [apply deviceUpdate_cursor_ok|].
  split; [apply deviceUpdate_sized|apply deviceUpdate_pitch_ok].
Qed.

End BlockProperties.

Section RemapProperties.
Context {Ar : Arith} {Defs : MixerDefs}.

(** X15. The destination of an analysis bin grows with the bin: bin 0
    is mapped to bin 0 at every pitch, a higher bin is never mapped
    below a lower one, and at a pitch of one or above no two bins are
    mapped to the same destination. *)
Theorem remap_index_order shiftI :
  frac_bits_ok -> 0 <= shiftI < 2 ^ 32 ->
  remap_index shiftI 0 = 0 /\
  (forall k k', 0 <= k <= k' -> k' <= StftHalfSize ->
     remap_index shiftI k <= remap_index shiftI k') /\
  (MixerFracOne <= shiftI ->
   forall k k', 0 <= k < k' -> k' <= StftHalfSize ->
     remap_index shiftI k < remap_index shiftI k').
Proof.
  intros Hbits Hshift. split; [by apply remap_index_zero|]. split.
  - intros k k' Hk Hk'. by apply remap_index_mono.
  - intros Hup k k' Hk Hk'. apply remap_index_strict; done || lia.
Qed.

(** X16. The number of scanned bins is exact: an analysis bin is scanned
    if and only if its destination is within the synthesis buffer, so
    no bin that has a place is dropped. At a pitch of one or below all
    [StftHalfSize + 1] bins are scanned. *)
Theorem bin_count_exact shiftI n :
  frac_bits_ok -> 0 < shiftI < 2 ^ 32 -> bin_count shiftI = Some n ->
  (forall k, 0 <= k <= StftHalfSize ->
     k < n <-> remap_index shiftI k <= StftHalfSize) /\
  (shiftI <= MixerFracOne -> n = StftHalfSize + 1).
Proof.
  intros Hbits Hshift Hn. split.
  - intros k Hk. by apply bin_count_tight.
  - intros Hdown. rewrite bin_count_all in Hn by (done || lia).
    by injection Hn.
Qed.

(** X17. For every pitch but zero the remapping loop returns, and each
    synthesis bin holds the fold of the analysis bins mapped to it, in
    scan order, from the zero bin: its magnitude is the sum of their
    magnitudes, added in that order to [0.0], and its frequency is the
    scaled frequency of the last of them whose magnitude exceeded the
    sum of the magnitudes before it. A synthesis bin no analysis bin is
    mapped to is zero. *)
Theorem remap_contents shiftI shift ana syn :
  frac_bits_ok -> 0 < shiftI ->
  Z.of_nat (length ana) = StftHalfSize + 1 ->
  Z.of_nat (length syn) = StftHalfSize + 1 ->
  exists n syn',
    bin_count shiftI = Some n /\
    remap shiftI shift ana syn = Some syn' /\
    length syn' = length syn /\
    forall j, 0 <= j <= StftHalfSize ->
      exists b,
        Arr.get syn' j = Some b /\
        b = foldl (fun d a =>
                     {| Magnitude := d_add (Magnitude d) (Magnitude a);
                        FreqBin := if d_gt (Magnitude a) (Magnitude d)
                                   then d_mul (FreqBin a) shift
                                   else FreqBin d |})
              bin_zero (contributors shiftI n j ana) /\
        Magnitude b
        = foldl d_add d_zero
            (map Magnitude (contributors shiftI n j ana)) /\
        (scanned shiftI n j = [] -> b = bin_zero).
Proof.
  intros Hbits Hpos Hana Hsyn.
  destruct (remap_spec Hbits shiftI shift ana syn Hpos Hana Hsyn)
    as (n & syn' & Hn & Hrun & Hlen & Hbins).
  exists n, syn'. split; [done|]. split; [done|]. split; [done|].
  intros j Hj. eexists. split; [by apply Hbins|]. split; [done|].
  split; [apply merge_magnitude|].
  intros Hnone. unfold contributors. by rewrite Hnone.
Qed.

(** X18. At a pitch of one or above the remapper merges nothing: every
    synthesis bin is either zero, with no analysis bin mapped to it, or
    holds the one analysis bin mapped to it, with its magnitude added to
    [0.0] and its frequency scaled by the pitch if the magnitude exceeds
    [0.0]. *)
Theorem remap_pitch_up shiftI shift ana syn :
  frac_bits_ok -> MixerFracOne <= shiftI < 2 ^ 32 ->
  Z.of_nat (length ana) = StftHalfSize + 1 ->
  Z.of_nat (length syn) = StftHalfSize + 1 ->
  exists n syn',
    bin_count shiftI = Some n /\
    remap shiftI shift ana syn = Some syn' /\
    forall j, 0 <= j <= StftHalfSize ->
      (scanned shiftI n j = [] /\ Arr.get syn' j = Some bin_zero) \/
      (exists k a,
         scanned shiftI n j = [k] /\ Arr.get ana k = Some a /\
         Arr.get syn' j
         = Some {| Magnitude := d_add d_zero (Magnitude a);
                   FreqBin := if d_gt (Magnitude a) d_zero
                              then d_mul (FreqBin a) shift else d_zero |}).
Proof.
  intros Hbits Hshift Hana Hsyn.
  pose proof (MixerFracOne_bounds Hbits) as Hone.
  destruct (remap_spec Hbits shiftI shift ana syn ltac:(lia) Hana Hsyn)
    as (n & syn' & Hn & Hrun & Hlen & Hbins).
  exists n, syn'. split; [done|]. split; [done|]. intros j Hj.
  pose proof (bin_count_range Hbits _ _ Hn ltac:(lia)) as Hrange.
  pose proof (scanned_pitch_up Hbits shiftI j n Hshift ltac:(lia)) as Hone'.
  rewrite (Hbins j Hj). unfold contributors.
  destruct (scanned shiftI n j) as [|k [|k' l]] eqn:Hs; simpl in Hone'.
  - left. done.
  - right. assert (k ∈ scanned shiftI n j) as Hk by (rewrite Hs; left).
    apply scanned_elem in Hk as [Hk _].
    destruct (get_is_Some ana k) as [a Ha]; [lia|].
    exists k, a. simpl. rewrite Ha. done.
  - lia.
Qed.

(** X19. At the pitch of one, the pitch of the reset state, the remapper
    maps every analysis bin to the synthesis bin of its own index: the
    synthesis bin holds the magnitude of the analysis bin added to
    [0.0], and its frequency scaled by the floating pitch if the
    magnitude exceeds [0.0], else the frequency [0.0]. *)
Theorem remap_unity shift ana syn :
  frac_bits_ok ->
  Z.of_nat (length ana) = StftHalfSize + 1 ->
  Z.of_nat (length syn) = StftHalfSize + 1 ->
  (forall k, 0 <= k <= StftHalfSize -> remap_index MixerFracOne k = k) /\
  exists syn',
    remap MixerFracOne shift ana syn = Some syn' /\
    forall k a, 0 <= k <= StftHalfSize -> Arr.get ana k = Some a ->
      Arr.get syn' k
      = Some {| Magnitude := d_add d_zero (Magnitude a);
                FreqBin := if d_gt (Magnitude a) d_zero
                           then d_mul (FreqBin a) shift else d_zero |}.
Proof.
  intros Hbits Hana Hsyn. split; [by apply remap_index_unity|].
  pose proof (MixerFracOne_bounds Hbits) as Hone.
  assert (0 < MixerFracOne) as Hpos by lia.
  destruct (remap_spec Hbits MixerFracOne shift ana syn Hpos Hana Hsyn)
    as (n & syn' & Hn & Hrun & Hlen & Hbins).
  rewrite bin_count_all in Hn by (done || lia). injection Hn as <-.
  exists syn'. split; [done|]. intros k a Hk Ha.
  rewrite (Hbins k Hk). unfold contributors.
  rewrite scanned_identity
    by (sizes; try lia; intros k' Hk'; apply (remap_index_unity Hbits);
        sizes; lia).
  rewrite decide_True by lia. simpl. rewrite Ha. done.
Qed.

End RemapProperties.

(** * Further properties, in binary64 *)

Section Binary64Properties.
Import Binary64.
Context {Lm : Libm} {Co : Collaborators} {Defs : MixerDefs}.
Local Open Scope R_scope.

(** X2. In binary64, with a [std::sin] that returns numbers of magnitude
    one at most, every value of the window table is a number in
    [[0, 1]]: the window never amplifies a sample and never inverts
    it. *)
Theorem HannWindow_unit_range :
  sin_unit ->
  forall k w, Arr.get HannWindow k = Some w ->
    finite w /\ 0 <= value w <= 1.
Proof. apply HannWindow_range. Qed.

(** X13. In binary64, when the product of the pitch and [MixerFracOne]
    that the update computes in binary32 is a number below one half and
    not negative, as it is for a tuning many octaves down, the
    fixed-point pitch the update stores is zero and so is the floating
    pitch: the pitch at which the bin remapper divides by zero. *)
Theorem update_pitch_underflow s slot props target :
  frac_bits_ok ->
  let scaled := f_mul (update_pitch props) (f_of_Z MixerFracOne) in
  SF_finite scaled -> 0 <= SF2R scaled < 1 / 2 ->
  mPitchShiftI (update s slot props target) = 0%Z /\
  value (mPitchShift (update s slot props target)) = 0 /\
  bin_count (mPitchShiftI (update s slot props target)) = None.
Proof.
  intros Hbits scaled Hfin [Hs0 Hs1].
  assert (mPitchShiftI (update s slot props target) = 0%Z) as Hzero.
  { change (mPitchShiftI (update s slot props target))
      with (to_uint (to_uint (to_int (nearest scaled)))).
    destruct (nearest_R scaled Hfin) as (z & -> & Hz & Hz0).
    specialize (Hz0 Hs0). apply Rabs_le_inv in Hz.
    assert (z < 1)%Z by (apply lt_IZR; lra).
    assert (z = 0%Z) as -> by lia. done. }
  split; [done|]. split.
  - destruct (pitch_value (mPitchShiftI (update s slot props target)) Hbits)
      as [_ Hv]; [rewrite Hzero; lia|].
    change (mPitchShift (update s slot props target))
      with (d_mul (d_of_Z (mPitchShiftI (update s slot props target)))
              (d_div (d_of_Z 1) (d_of_Z MixerFracOne))).
    rewrite Hv, Hzero. lra.
  - by rewrite Hzero.
Qed.

(** X14. In binary64, for a tuning of [m] whole octaves on which
    [std::pow] is exact, the update stores the fixed-point pitch
    [2^(MixerFracBits + m)] without error, and the floating pitch
    [2^m]; a tuning of zero gives [MixerFracOne] and [1.0], the pitch of
    the reset state. *)
Theorem update_pitch_octaves s slot props target m :
  frac_bits_ok ->
  (CoarseTune props * 100 + FineTune props = 1200 * m)%Z ->
  (- MixerFracBits <= m <= 30 - MixerFracBits)%Z ->
  update_pitch props = exp2_f32 m ->
  mPitchShiftI (update s slot props target) = (2 ^ (MixerFracBits + m))%Z /\
  value (mPitchShift (update s slot props target))
  = IZR (2 ^ (MixerFracBits + m)) / IZR (2 ^ MixerFracBits) /\
  (m = 0%Z ->
   mPitchShiftI (update s slot props target) = MixerFracOne /\
   value (mPitchShift (update s slot props target)) = 1).
Proof.
  intros Hbits Htune Hm Hpow.
  assert (forallb (fun B =>
            forallb (fun k =>
              to_uint (to_uint (to_int (nearest
                (SFmul prec32 emax32 (exp2_f32 k) (b32_of_Z (2 ^ B))))))
              =? 2 ^ (B + k))%Z
              (seqZ (- B) 31)) (seqZ 0 31) = true) as Hall
    by (vm_compute; reflexivity).
  assert (mPitchShiftI (update s slot props target)
          = (2 ^ (MixerFracBits + m))%Z) as HI.
  { change (mPitchShiftI (update s slot props target))
      with (to_uint (to_uint (to_int (nearest
              (SFmul prec32 emax32 (update_pitch props)
                 (b32_of_Z MixerFracOne)))))).
    rewrite Hpow, MixerFracOne_eq.
    rewrite forallb_forall in Hall.
    specialize (Hall MixerFracBits).
    rewrite forallb_forall in Hall.
    apply Z.eqb_eq. apply Hall.
    - apply list_elem_of_In, elem_of_seqZ. unfold frac_bits_ok in Hbits. lia.
    - apply list_elem_of_In, elem_of_seqZ. lia. }
  assert (value (mPitchShift (update s slot props target))
          = IZR (2 ^ (MixerFracBits + m)) / IZR (2 ^ MixerFracBits)) as HF.
  { destruct (pitch_value (mPitchShiftI (update s slot props target)) Hbits)
      as [_ Hv].
    { rewrite HI. split; [apply Z.pow_nonneg; lia|].
      apply Z.pow_lt_mono_r; unfold frac_bits_ok in Hbits; lia. }
    change (mPitchShift (update s slot props target))
      with (d_mul (d_of_Z (mPitchShiftI (update s slot props target)))
              (d_div (d_of_Z 1) (d_of_Z MixerFracOne))).
    by rewrite Hv, HI, MixerFracOne_eq. }
  split; [done|]. split; [done|]. intros ->.
  rewrite Z.add_0_r in *. split; [by rewrite MixerFracOne_eq|].
  rewrite HF. field. apply not_0_IZR.
  pose proof (Z.pow_pos_nonneg 2 MixerFracBits).
  unfold frac_bits_ok in Hbits. lia.
Qed.


(** X21. In binary64 the frequency the analyzer stores for the bin [k],
    from two phases of magnitude 4 at most, as principal values are, is
    a number within [OversampleFactor / 2] bins of [k]. *)
Theorem analysis_frequency_near_bin k (phase lp : @double arith) :
  (0 <= k <= 2 ^ 30)%Z ->
  finite phase -> Rabs (value phase) <= 4 ->
  finite lp -> Rabs (value lp) <= 4 ->
  finite (bin_frequency k phase lp) /\
  IZR k - IZR OversampleFactor / 2
  <= value (bin_frequency k phase lp)
  <= IZR k + IZR OversampleFactor / 2.
Proof.
  intros Hk Hfp Hp Hfl Hl.
  destruct (bin_frequency_R k phase lp Hk Hfp Hp Hfl Hl) as (Hf & _ & Hv).
  split; [done|]. change OversampleFactor with 4%Z. lra.
Qed.

(** X22. In binary64, with transforms that work in place and map a
    buffer of zeros to a buffer of zeros, a magnitude that is a zero for
    a zero and a polar form that is a zero for a magnitude that is a
    zero, and a sine of magnitude one at most: on a well-formed state
    whose ring buffer and accumulator hold zeros, as after a reset, a
    call of [process] on a block of zeros returns, leaves such a state
    again, and hands the mixer a line of zeros. Silence stays silence,
    whatever the pitch and the phases the state has come to. A zero is
    a zero of either sign. *)
Theorem silence_stays_silence samplesToDo
    (samplesIn samplesOut : list (list (@float32 arith)))
    (in0 : list (@float32 arith)) s :
  frac_bits_ok -> transforms_in_place -> transforms_keep_silence ->
  polar_of_zero -> sin_unit ->
  sized s -> cursor_ok s -> pitch_ok s -> silent s ->
  Arr.get samplesIn 0 = Some in0 ->
  (0 <= samplesToDo < 2 ^ 64)%Z ->
  (samplesToDo <= Z.of_nat (length in0))%Z ->
  (samplesToDo <= BufferLineSize)%Z ->
  (forall i x, (0 <= i < samplesToDo)%Z -> Arr.get in0 i = Some x ->
     zero_f x) ->
  exists s' out,
    process samplesToDo samplesIn samplesOut s = Some (s', out) /\
    sized s' /\ cursor_ok s' /\ pitch_ok s' /\ silent s' /\
    (forall i x, (0 <= i < samplesToDo)%Z ->
       Arr.get (mBufferOut s') i = Some x -> zero_f x) /\
    (out, mCurrentGains s')
    = MixSamples (take (Z.to_nat samplesToDo) (mBufferOut s')) samplesOut
        (mCurrentGains s) (mTargetGains s) (maxz samplesToDo 512) 0.
Proof.
  intros Hbits Hplace Hfft Hzero Hsin Hs Hok Hpitch Hsil Hin Hn Hlen Hline
    Hquiet.
  destruct (process_loop_silent Hbits Hplace Hfft Hzero Hsin samplesToDo
              samplesIn in0 Hin Hn Hlen Hline Hquiet
              (S (Z.to_nat samplesToDo)) 0%Z s)
    as (u & Hloop & Hsu & Hoku & Hpu & Hsilu & Hout);
    [done|done|done|done|lia|lia|intros i x Hi; lia|].
  destruct (process_loop_parameters _ _ _ _ _ _ Hloop)
    as (_ & _ & Hg & Hc & _).
  unfold process. rewrite Hloop.
  rewrite slice_is_Some by (rewrite ?(sized_BufferOut _ Hsu); lia).
  rewrite drop_0. rewrite Hg, Hc.
  destruct (MixSamples _ _ _ _ _ _) as [out gains] eqn:Hmix.
  eexists _, out. split; [done|]. split; [by destruct Hsu|].
  split; [done|]. split; [done|]. split; [done|]. split; [exact Hout|].
  cbn [mBufferOut mCurrentGains]. by rewrite Hmix.
Qed.

End Binary64Properties.


(** * The statements on concrete inputs *)

Lemma standin_frac_bits_ok : frac_bits_ok (Defs := Standin.defs).
Proof. unfold frac_bits_ok. simpl. lia. Defined.

Lemma standin_fresh_framer_ok : framer_ok (Defs := Standin.defs) Standin.fresh.
Proof. vm_compute. repeat split; congruence. Defined.

Lemma remap_destination_in_bounds_witness :
  (forall n k, bin_count (Defs := Standin.defs) 262144 = Some n ->
     0 <= k < n ->
     0 <= remap_index (Defs := Standin.defs) 262144 k <= StftHalfSize) /\
  (262144 <> 0 ->
   is_Some (bin_count (Defs := Standin.defs) 262144) /\
   is_Some (remap (Ar := Binary64.arith) (Defs := Standin.defs)
              262144 (Binary64.of_Z 4)
              (mAnalysisBuffer Standin.fresh)
              (mSynthesisBuffer Standin.fresh))).
Proof.
  apply remap_destination_in_bounds;
    [exact standin_frac_bits_ok | lia | reflexivity | reflexivity].
Defined.

Lemma deviceUpdate_resets_witness :
  mFIFO (deviceUpdate (Defs := Standin.defs) Standin.blank)
  = replicate 1024 (Binary64.of_Z 0) /\
  mPos (deviceUpdate (Defs := Standin.defs) Standin.blank) = 768 /\
  mPitchShiftI (deviceUpdate (Defs := Standin.defs) Standin.blank) = 65536.
Proof.
  pose proof (deviceUpdate_resets (Defs := Standin.defs) Standin.blank
                standin_frac_bits_ok) as H.
  cbv zeta in H. destruct H as (H1 & _ & _ & _ & _ & _ & _ & _ & H2 & H3 & _).
  split; [exact H1|]. split; [exact H2|exact H3].
Defined.

Lemma process_first_channel_only_witness :
  process (Num := Binary64.alnumeric) (Lm := Standin.libm)
    (Co := Standin.collaborators) (Defs := Standin.defs)
    300 (Standin.stereo 300) [] Standin.fresh
  = process (Num := Binary64.alnumeric) (Lm := Standin.libm)
      (Co := Standin.collaborators) (Defs := Standin.defs)
      300 (Standin.mono 300) [] Standin.fresh.
Proof. apply process_first_channel_only. reflexivity. Defined.

Lemma cursor_invariant_witness :
  exists s' out,
    process (Num := Binary64.alnumeric) (Lm := Standin.libm)
      (Co := Standin.collaborators) (Defs := Standin.defs)
      300 (Standin.mono 300) [] Standin.fresh = Some (s', out) /\
    cursor_ok s'.
Proof.
  destruct (process (Num := Binary64.alnumeric) (Lm := Standin.libm)
              (Co := Standin.collaborators) (Defs := Standin.defs)
              300 (Standin.mono 300) [] Standin.fresh)
    as [[s' out]|] eqn:Hrun.
  - exists s', out. split; [reflexivity|].
    destruct (cursor_invariant (Num := Binary64.alnumeric)
                (Lm := Standin.libm) (Co := Standin.collaborators)
                (Defs := Standin.defs)) as (Hreset & _ & Hprocess & _).
    exact (Hprocess _ _ _ _ _ _ (Hreset Standin.blank) Hrun).
  - exfalso.
    assert (returned (process (Num := Binary64.alnumeric)
                        (Lm := Standin.libm) (Co := Standin.collaborators)
                        (Defs := Standin.defs)
                        300 (Standin.mono 300) [] Standin.fresh) = true)
      as Hran by (vm_compute; reflexivity).
    rewrite Hrun in Hran. discriminate Hran.
Defined.

Lemma standin_fresh_sized : sized (Defs := Standin.defs) Standin.fresh.
Proof. split; reflexivity. Defined.

Lemma standin_fresh_cursor_ok : cursor_ok Standin.fresh.
Proof. exact (proj1 standin_fresh_framer_ok). Defined.

Lemma standin_fresh_pitch_ok : pitch_ok Standin.fresh.
Proof. unfold pitch_ok. split; reflexivity. Defined.

Lemma standin_transforms_in_place :
  transforms_in_place (Co := Standin.collaborators).
Proof. split; intros l; reflexivity. Defined.

(** A block of 300 samples on the reset state. *)
Lemma standin_block_returns :
  exists s' out,
    process (Num := Binary64.alnumeric) (Lm := Standin.libm)
      (Co := Standin.collaborators) (Defs := Standin.defs)
      300 (Standin.mono 300) [] Standin.fresh = Some (s', out).
Proof.
  destruct (process_total (Num := Binary64.alnumeric) (Lm := Standin.libm)
              (Co := Standin.collaborators) (Defs := Standin.defs)
              standin_frac_bits_ok standin_transforms_in_place
              300 (Standin.mono 300) [] (Standin.ramp 300) Standin.fresh)
    as (s' & out & Hrun & _);
    [reflexivity | lia | vm_compute; discriminate | vm_compute; discriminate
    | exact standin_fresh_sized | exact standin_fresh_cursor_ok
    | exact standin_fresh_pitch_ok |].
  exists s', out. exact Hrun.
Defined.

Lemma framer_sample_by_sample_witness :
  exists s' out,
    process (Num := Binary64.alnumeric) (Lm := Standin.libm)
      (Co := Standin.collaborators) (Defs := Standin.defs)
      300 (Standin.mono 300) [] Standin.fresh = Some (s', out) /\
    process_by_sample (Num := Binary64.alnumeric) (Lm := Standin.libm)
      (Co := Standin.collaborators) (Defs := Standin.defs)
      300 (Standin.mono 300) [] Standin.fresh = Some (s', out).
Proof.
  destruct (framer_sample_by_sample (Num := Binary64.alnumeric)
              (Lm := Standin.libm) (Co := Standin.collaborators)
              (Defs := Standin.defs) 300 (Standin.mono 300) []
              (Standin.ramp 300) Standin.fresh) as [Hrun _];
    [exact standin_frac_bits_ok | exact standin_transforms_in_place
    | reflexivity | lia | vm_compute; discriminate
    | vm_compute; discriminate | exact standin_fresh_sized
    | exact standin_fresh_cursor_ok | exact standin_fresh_pitch_ok |].
  exact Hrun.
Defined.

Lemma standin_frac_bits_two : frac_bits_two (Defs := Standin.defs).
Proof. unfold frac_bits_two. simpl. lia. Defined.

Lemma value_zero : value (Binary64.of_Z 0) = 0%R.
Proof. exact (proj2 (of_Z_R 0 ltac:(lia))). Defined.

Lemma standin_arg_principal : arg_principal (Lm := Standin.libm).
Proof.
  intros c. split; [exact (proj1 (of_Z_R 0 ltac:(lia)))|].
  change (c_arg c) with (Binary64.of_Z 0).
  rewrite value_zero, Rabs_R0, value_pi. lra.
Defined.

Lemma standin_zeros_within n :
  phases_within (value (d_pi (Arith := Binary64.arith)))
    (replicate n (Binary64.of_Z 0)).
Proof.
  intros k x Hx. unfold Arr.get in Hx. case_decide; [|discriminate Hx].
  apply lookup_replicate in Hx as [-> _].
  split; [exact (proj1 (of_Z_R 0 ltac:(lia)))|].
  rewrite value_zero, Rabs_R0, value_pi. lra.
Defined.

Lemma analyzer_contract_witness :
  exists last' ana',
    analyze (Num := Binary64.alnumeric) (Lm := Standin.libm)
      (mFftBuffer Standin.blank) (mLastPhase Standin.blank)
      (mAnalysisBuffer Standin.blank) = Some (last', ana').
Proof.
  destruct (analyzer_contract (Lm := Standin.libm)
              (mFftBuffer Standin.blank) (mLastPhase Standin.blank)
              (mAnalysisBuffer Standin.blank))
    as [_ (last' & ana' & Hrun & _)];
    [exact standin_arg_principal | reflexivity | reflexivity
    | reflexivity | apply standin_zeros_within |].
  exists last', ana'. exact Hrun.
Defined.

(** The state a block of 300 samples leaves, one cycle after the
    reset. *)
Lemma sum_phase_within_rounding_witness :
  exists s' out,
    process (Num := Binary64.alnumeric) (Lm := Standin.libm)
      (Co := Standin.collaborators) (Defs := Standin.defs)
      300 (Standin.mono 300) [] Standin.fresh = Some (s', out) /\
    forall k x, Arr.get (mSumPhase s') k = Some x ->
      finite x /\
      (Rabs (value x) <= value (d_pi (Arith := Binary64.arith))
                         + / 524288)%R.
Proof.
  destruct standin_block_returns as (s' & out & Hrun).
  exists s', out. split; [exact Hrun|].
  apply (sum_phase_within_rounding (Lm := Standin.libm)
           (Co := Standin.collaborators) (Defs := Standin.defs)).
  - exact standin_frac_bits_two.
  - exact standin_arg_principal.
  - apply (reachable_process (Standin.fresh) 300 (Standin.mono 300) []
             s' out); [apply reachable_reset | exact Hrun].
Defined.

Lemma update_pitch_of_tuning_witness :
  value
    (mPitchShift
       (update (Num := Binary64.alnumeric) (Lm := Standin.octaves)
          (Co := Standin.collaborators) (Defs := Standin.defs)
          Standin.blank Standin.slot Standin.octave_up Standin.target))
  = (IZR (mPitchShiftI
            (update (Num := Binary64.alnumeric) (Lm := Standin.octaves)
               (Co := Standin.collaborators) (Defs := Standin.defs)
               Standin.blank Standin.slot Standin.octave_up Standin.target))
     / IZR (MixerFracOne (Defs := Standin.defs)))%R.
Proof.
  apply (update_pitch_of_tuning (Lm := Standin.octaves)
           (Co := Standin.collaborators) (Defs := Standin.defs)
           Standin.blank Standin.slot Standin.octave_up Standin.target).
  exact standin_frac_bits_ok.
Defined.
(** * The further properties on concrete inputs *)

Lemma standin_blank_cursor_ok : cursor_ok Standin.blank.
Proof.
  unfold cursor_ok. simpl. sizes. repeat split; lia || reflexivity.
Defined.

Lemma window_frame_rotation_witness :
  exists fft',
    window_frame (Lm := Standin.libm) (mFIFO Standin.fresh) 256
      (mFftBuffer Standin.fresh) = Some fft' /\
    length fft' = 1024%nat.
Proof.
  destruct (window_frame_rotation (Lm := Standin.libm)
              (mFIFO Standin.fresh) 256 (mFftBuffer Standin.fresh))
    as (fft' & Hrun & Hlen & _);
    [sizes; lia | reflexivity | reflexivity |].
  exists fft'. split; [exact Hrun | exact Hlen].
Defined.

Lemma overlap_add_rotation_witness :
  exists acc',
    overlap_add (Lm := Standin.libm) (mFftBuffer Standin.fresh) 256
      (mOutputAccum Standin.fresh) = Some acc' /\
    length acc' = 1024%nat.
Proof.
  destruct (overlap_add_rotation (Lm := Standin.libm)
              (mFftBuffer Standin.fresh) 256 (mOutputAccum Standin.fresh))
    as (acc' & Hrun & Hlen & _);
    [sizes; lia | reflexivity | reflexivity |].
  exists acc'. split; [exact Hrun | exact Hlen].
Defined.

Lemma mirror_conjugates_witness :
  exists fft',
    mirror (mFftBuffer Standin.fresh) = Some fft' /\
    length fft' = 1024%nat.
Proof.
  destruct (mirror_conjugates (mFftBuffer Standin.fresh))
    as (fft' & Hrun & Hlen & _); [reflexivity|].
  exists fft'. split; [exact Hrun | exact Hlen].
Defined.

Lemma resynthesizer_contract_witness :
  exists sum' fft',
    synthesize (Num := Binary64.alnumeric) (Lm := Standin.libm)
      (mSynthesisBuffer Standin.fresh) (mSumPhase Standin.fresh)
      (mFftBuffer Standin.fresh) = Some (sum', fft').
Proof.
  destruct (resynthesizer_contract (Num := Binary64.alnumeric)
              (Lm := Standin.libm) (mSynthesisBuffer Standin.fresh)
              (mSumPhase Standin.fresh) (mFftBuffer Standin.fresh))
    as (sum' & fft' & Hrun & _); [reflexivity..|].
  exists sum', fft'. exact Hrun.
Defined.

Lemma process_block_counters_witness :
  exists s' out,
    process (Num := Binary64.alnumeric) (Lm := Standin.libm)
      (Co := Standin.collaborators) (Defs := Standin.defs)
      300 (Standin.mono 300) [] Standin.fresh = Some (s', out) /\
    mCount s' = 44 /\ mPos s' = 0.
Proof.
  destruct standin_block_returns as (s' & out & Hrun).
  exists s', out. split; [exact Hrun|].
  apply (process_block_counters (Num := Binary64.alnumeric)
           (Lm := Standin.libm) (Co := Standin.collaborators)
           (Defs := Standin.defs) 300 (Standin.mono 300) [] Standin.fresh
           s' out);
    [exact standin_fresh_cursor_ok | lia | exact Hrun].
Defined.

Lemma process_returns_iff_witness :
  is_Some (process (Num := Binary64.alnumeric) (Lm := Standin.libm)
             (Co := Standin.collaborators) (Defs := Standin.defs)
             300 (Standin.mono 300) [] Standin.fresh) <->
  (exists in0, Arr.get (Standin.mono 300) 0 = Some in0 /\
               300 <= Z.of_nat (length in0)) /\
  300 <= BufferLineSize (MixerDefs := Standin.defs).
Proof.
  apply (process_returns_iff (Num := Binary64.alnumeric)
           (Lm := Standin.libm) (Co := Standin.collaborators)
           (Defs := Standin.defs));
    [exact standin_frac_bits_ok | exact standin_transforms_in_place
    | exact standin_fresh_sized | exact standin_fresh_cursor_ok
    | exact standin_fresh_pitch_ok | lia].
Defined.

Lemma process_emits_ring_buffer_witness :
  exists s' out,
    process (Num := Binary64.alnumeric) (Lm := Standin.libm)
      (Co := Standin.collaborators) (Defs := Standin.defs)
      300 (Standin.mono 300) [] Standin.fresh = Some (s', out) /\
    length (mBufferOut s') = length (mBufferOut Standin.fresh).
Proof.
  destruct standin_block_returns as (s' & out & Hrun).
  exists s', out. split; [exact Hrun|].
  apply (process_emits_ring_buffer (Num := Binary64.alnumeric)
           (Lm := Standin.libm) (Co := Standin.collaborators)
           (Defs := Standin.defs) 300 (Standin.mono 300) [] Standin.fresh
           s' out);
    [exact standin_fresh_cursor_ok | lia | exact Hrun].
Defined.

Lemma process_keeps_parameters_witness :
  exists s' out,
    process (Num := Binary64.alnumeric) (Lm := Standin.libm)
      (Co := Standin.collaborators) (Defs := Standin.defs)
      300 (Standin.mono 300) [] Standin.fresh = Some (s', out) /\
    mPitchShiftI s' = mPitchShiftI Standin.fresh.
Proof.
  destruct standin_block_returns as (s' & out & Hrun).
  exists s', out. split; [exact Hrun|].
  apply (process_keeps_parameters (Num := Binary64.alnumeric)
           (Lm := Standin.libm) (Co := Standin.collaborators)
           (Defs := Standin.defs) 300 (Standin.mono 300) [] Standin.fresh
           s' out Hrun).
Defined.

Lemma process_split_witness :
  exists s1 o1 s2 o2 s12 o12,
    process (Num := Binary64.alnumeric) (Lm := Standin.libm)
      (Co := Standin.collaborators) (Defs := Standin.defs)
      100 (Standin.mono 300) [] Standin.fresh = Some (s1, o1) /\
    process (Num := Binary64.alnumeric) (Lm := Standin.libm)
      (Co := Standin.collaborators) (Defs := Standin.defs)
      200 [drop 100 (Standin.ramp 300)] [] s1 = Some (s2, o2) /\
    process (Num := Binary64.alnumeric) (Lm := Standin.libm)
      (Co := Standin.collaborators) (Defs := Standin.defs)
      (100 + 200) (Standin.mono 300) [] Standin.fresh = Some (s12, o12) /\
    dsp_state s2 = dsp_state s12.
Proof.
  destruct (process_total (Num := Binary64.alnumeric) (Lm := Standin.libm)
              (Co := Standin.collaborators) (Defs := Standin.defs)
              standin_frac_bits_ok standin_transforms_in_place
              100 (Standin.mono 300) [] (Standin.ramp 300) Standin.fresh)
    as (s1 & o1 & H1 & Hs1 & Hc1 & Hp1);
    [reflexivity | lia | vm_compute; discriminate | vm_compute; discriminate
    | exact standin_fresh_sized | exact standin_fresh_cursor_ok
    | exact standin_fresh_pitch_ok |].
  destruct (process_total (Num := Binary64.alnumeric) (Lm := Standin.libm)
              (Co := Standin.collaborators) (Defs := Standin.defs)
              standin_frac_bits_ok standin_transforms_in_place
              200 [drop 100 (Standin.ramp 300)] []
              (drop 100 (Standin.ramp 300)) s1)
    as (s2 & o2 & H2 & _);
    [reflexivity | lia | vm_compute; discriminate | vm_compute; discriminate
    | exact Hs1 | exact Hc1 | exact Hp1 |].
  destruct (process_total (Num := Binary64.alnumeric) (Lm := Standin.libm)
              (Co := Standin.collaborators) (Defs := Standin.defs)
              standin_frac_bits_ok standin_transforms_in_place
              (100 + 200) (Standin.mono 300) [] (Standin.ramp 300)
              Standin.fresh)
    as (s12 & o12 & H12 & _);
    [reflexivity | lia | vm_compute; discriminate | vm_compute; discriminate
    | exact standin_fresh_sized | exact standin_fresh_cursor_ok
    | exact standin_fresh_pitch_ok |].
  exists s1, o1, s2, o2, s12, o12.
  split; [exact H1|]. split; [exact H2|]. split; [exact H12|].
  apply (process_split (Num := Binary64.alnumeric) (Lm := Standin.libm)
           (Co := Standin.collaborators) (Defs := Standin.defs)
           (Standin.mono 300) [drop 100 (Standin.ramp 300)]
           (Standin.ramp 300) [] [] [] 100 200 Standin.fresh
           s1 o1 s2 o2 s12 o12);
    [exact standin_fresh_framer_ok | reflexivity | reflexivity | lia | lia
    | lia | exact H1 | exact H2 | exact H12].
Defined.

Lemma process_zero_pitch_witness :
  process (Num := Binary64.alnumeric) (Lm := Standin.libm)
    (Co := Standin.collaborators) (Defs := Standin.defs)
    256 (Standin.mono 256) [] Standin.blank = None.
Proof.
  apply (process_zero_pitch (Num := Binary64.alnumeric)
           (Lm := Standin.libm) (Co := Standin.collaborators)
           (Defs := Standin.defs));
    [exact standin_blank_cursor_ok | reflexivity | simpl; sizes; lia].
Defined.

Lemma remap_index_order_witness :
  remap_index (Defs := Standin.defs) 131072 0 = 0 /\
  (forall k k', 0 <= k <= k' -> k' <= StftHalfSize ->
     remap_index (Defs := Standin.defs) 131072 k
     <= remap_index (Defs := Standin.defs) 131072 k') /\
  (MixerFracOne (Defs := Standin.defs) <= 131072 ->
   forall k k', 0 <= k < k' -> k' <= StftHalfSize ->
     remap_index (Defs := Standin.defs) 131072 k
     < remap_index (Defs := Standin.defs) 131072 k').
Proof.
  apply (remap_index_order (Defs := Standin.defs) 131072);
    [exact standin_frac_bits_ok | lia].
Defined.

Lemma bin_count_exact_witness :
  (forall k, 0 <= k <= StftHalfSize ->
     k < 513 <->
     remap_index (Defs := Standin.defs) Standin.low_pitchI k
     <= StftHalfSize) /\
  (Standin.low_pitchI <= MixerFracOne (Defs := Standin.defs) ->
   513 = StftHalfSize + 1).
Proof.
  apply (bin_count_exact (Defs := Standin.defs) Standin.low_pitchI 513);
    [exact standin_frac_bits_ok | unfold Standin.low_pitchI; lia
    | reflexivity].
Defined.

Lemma remap_contents_witness :
  exists n syn',
    bin_count (Defs := Standin.defs) Standin.low_pitchI = Some n /\
    remap (Ar := Binary64.arith) (Defs := Standin.defs) Standin.low_pitchI
      Standin.low_pitch Standin.three_partials
      (mSynthesisBuffer Standin.fresh) = Some syn'.
Proof.
  destruct (remap_contents (Ar := Binary64.arith) (Defs := Standin.defs)
              Standin.low_pitchI Standin.low_pitch Standin.three_partials
              (mSynthesisBuffer Standin.fresh))
    as (n & syn' & Hn & Hrun & _);
    [exact standin_frac_bits_ok | reflexivity | reflexivity | reflexivity |].
  exists n, syn'. split; [exact Hn | exact Hrun].
Defined.

Lemma remap_pitch_up_witness :
  exists n syn',
    bin_count (Defs := Standin.defs) 131072 = Some n /\
    remap (Ar := Binary64.arith) (Defs := Standin.defs) 131072
      (Binary64.of_Z 2) Standin.three_partials
      (mSynthesisBuffer Standin.fresh) = Some syn'.
Proof.
  destruct (remap_pitch_up (Ar := Binary64.arith) (Defs := Standin.defs)
              131072 (Binary64.of_Z 2) Standin.three_partials
              (mSynthesisBuffer Standin.fresh))
    as (n & syn' & Hn & Hrun & _);
    [exact standin_frac_bits_ok
    | change (MixerFracOne (Defs := Standin.defs)) with 65536; lia
    | reflexivity | reflexivity |].
  exists n, syn'. split; [exact Hn | exact Hrun].
Defined.

Lemma remap_unity_witness :
  exists syn',
    remap (Ar := Binary64.arith) (Defs := Standin.defs)
      (MixerFracOne (Defs := Standin.defs)) (Binary64.of_Z 1)
      Standin.three_partials (mSynthesisBuffer Standin.fresh) = Some syn'.
Proof.
  destruct (remap_unity (Ar := Binary64.arith) (Defs := Standin.defs)
              (Binary64.of_Z 1) Standin.three_partials
              (mSynthesisBuffer Standin.fresh))
    as (_ & syn' & Hrun & _);
    [exact standin_frac_bits_ok | reflexivity | reflexivity |].
  exists syn'. exact Hrun.
Defined.

Lemma standin_octaves_sin_unit : sin_unit (Lm := Standin.octaves).
Proof.
  intros x. change (d_sin x) with (Binary64.of_Z 1).
  destruct (of_Z_R 1 ltac:(lia)) as [Hf Hv]. split; [exact Hf|].
  rewrite Hv, Rabs_R1. lra.
Defined.

Lemma HannWindow_unit_range_witness :
  exists w,
    Arr.get (HannWindow (Ar := Binary64.arith) (Lm := Standin.octaves)) 0
    = Some w /\
    finite w /\ (0 <= value w <= 1)%R.
Proof.
  destruct (HannWindow_is_Some (Ar := Binary64.arith)
              (Lm := Standin.octaves) 0) as [w Hw]; [sizes; lia|].
  exists w. split; [exact Hw|].
  exact (HannWindow_unit_range (Lm := Standin.octaves)
           standin_octaves_sin_unit 0 w Hw).
Defined.

Lemma update_pitch_underflow_witness :
  mPitchShiftI
    (update (Num := Binary64.alnumeric) (Lm := Standin.octaves)
       (Co := Standin.collaborators) (Defs := Standin.defs)
       Standin.blank Standin.slot Standin.far_down Standin.target) = 0.
Proof.
  apply (update_pitch_underflow (Lm := Standin.octaves)
           (Co := Standin.collaborators) (Defs := Standin.defs)
           Standin.blank Standin.slot Standin.far_down Standin.target).
  - exact standin_frac_bits_ok.
  - vm_compute. exact I.
  - assert (f_mul (Arith := Binary64.arith)
              (update_pitch (Lm := Standin.octaves) Standin.far_down)
              (f_of_Z (MixerFracOne (Defs := Standin.defs)))
            = S754_finite false 8388608 (-25)) as ->
      by (vm_compute; reflexivity).
    rewrite SF2R_finite. simpl sgn.
    change (bpow (-25)) with (/ 33554432)%R. lra.
Defined.

Lemma update_pitch_octaves_witness :
  mPitchShiftI
    (update (Num := Binary64.alnumeric) (Lm := Standin.octaves)
       (Co := Standin.collaborators) (Defs := Standin.defs)
       Standin.blank Standin.slot Standin.octave_up Standin.target)
  = 2 ^ (MixerFracBits (MixerDefs := Standin.defs) + 1).
Proof.
  apply (update_pitch_octaves (Lm := Standin.octaves)
           (Co := Standin.collaborators) (Defs := Standin.defs)
           Standin.blank Standin.slot Standin.octave_up Standin.target 1).
  - exact standin_frac_bits_ok.
  - reflexivity.
  - simpl. lia.
  - vm_compute. reflexivity.
Defined.

Lemma analysis_frequency_near_bin_witness :
  finite (bin_frequency (Num := Binary64.alnumeric) 22
            (d_pi (Arith := Binary64.arith)) (Binary64.of_Z 0)) /\
  (IZR 22 - IZR OversampleFactor / 2
   <= value (bin_frequency (Num := Binary64.alnumeric) 22
               (d_pi (Arith := Binary64.arith)) (Binary64.of_Z 0))
   <= IZR 22 + IZR OversampleFactor / 2)%R.
Proof.
  apply (analysis_frequency_near_bin 22).
  - lia.
  - exact finite_pi.
  - rewrite value_pi. apply Rabs_le. lra.
  - exact (proj1 (of_Z_R 0 ltac:(lia))).
  - rewrite value_zero, Rabs_R0. lra.
Defined.

Lemma standin_keep_silence :
  transforms_keep_silence (Co := Standin.collaborators).
Proof. split; intros l Hl; exact Hl. Defined.

Lemma standin_octaves_polar_of_zero :
  polar_of_zero (Lm := Standin.octaves).
Proof.
  split.
  - intros [re im] [[s1 H1] [s2 H2]]. simpl in H1, H2.
    rewrite <- (SF2Prim_Prim2SF re), H1.
    rewrite <- (SF2Prim_Prim2SF im), H2.
    exists false. destruct s1, s2; vm_compute; reflexivity.
  - intros m p Hm. split; [exact Hm|]. exists false. vm_compute.
    reflexivity.
Defined.

Lemma silence_stays_silence_witness :
  exists s' out,
    process (Num := Binary64.alnumeric) (Lm := Standin.octaves)
      (Co := Standin.collaborators) (Defs := Standin.defs)
      300 [replicate 300 (Binary64.b32_of_Z 0)] [] Standin.fresh
    = Some (s', out) /\
    silent s'.
Proof.
  destruct (silence_stays_silence (Lm := Standin.octaves)
              (Co := Standin.collaborators) (Defs := Standin.defs)
              300 [replicate 300 (Binary64.b32_of_Z 0)] []
              (replicate 300 (Binary64.b32_of_Z 0)) Standin.fresh)
    as (s' & out & Hrun & _ & _ & _ & Hsil & _).
  - exact standin_frac_bits_ok.
  - exact standin_transforms_in_place.
  - exact standin_keep_silence.
  - exact standin_octaves_polar_of_zero.
  - exact standin_octaves_sin_unit.
  - exact standin_fresh_sized.
  - exact standin_fresh_cursor_ok.
  - exact standin_fresh_pitch_ok.
  - apply deviceUpdate_silent.
  - reflexivity.
  - lia.
  - rewrite length_replicate. lia.
  - simpl. lia.
  - intros i x Hi Hx.
    rewrite (get_replicate (Binary64.b32_of_Z 0) 300 i x Hx).
    exists false. reflexivity.
  - exists s', out. split; [exact Hrun | exact Hsil].
Defined.
